(** * advanced-vector: a shallow embedding of [vector.h]

    [RawMemory<T>] and [Vector<T>] are embedded as records; the raw region a
    [RawMemory] owns is carried with it as a list of slots, [None] for an
    uninitialised slot and [Some x] for a live object of value [x].  Element
    operations (constructors, assignments, destructor) are the fields of a
    class [Element]: each one reads and updates an element-type state [E]
    and reports whether it raised.  The C++ outcomes are kept apart: normal
    return, a propagating exception, and the two ways a program stops being
    observable (undefined behaviour, [std::terminate] from a [noexcept]
    function).

    Conventions of the model:
    - a successful copy or move gives the new object the value of its
      source; a move leaves the source as [moved_from] of its value; an
      element operation that raises leaves its operands as they were;
    - counts of elements are [nat]; the one place where the code computes
      with them in [size_t] so that it matters, the byte count
      [n * sizeof(T)] of [RawMemory::Allocate], is embedded twice: with the
      arithmetic of [size_t] ([Allocate_size_t], for any [n]) and without
      ([Allocate], which is that function on every request whose byte
      count [size_t] can express, [Allocate_exact]).  The requests the
      container makes for itself, [2 * size_] slots for a vector of
      [size_] elements that exist, are of the second kind; statements
      about a count the caller supplies ([Vector(n)], [Reserve(n)],
      [Resize(n)]) carry the hypothesis [representable n];
    - the arguments of [Emplace] and [EmplaceBack] do not alias the vector's
      own elements;
    - positions ([iterator], [T&]) are offsets from [begin()];
    - the standard algorithms ([std::uninitialized_copy_n], [std::move],
      ...) are embedded with the behaviour the standard gives them. *)

From stdpp Require Import prelude.

Set Default Proof Using "Type".

(** ** Outcomes *)

Inductive abort := UndefinedBehaviour | Terminated.

(** A run returns a value [a] in a final state, or lets an exception
    propagate in a final state, or stops. *)
Inductive Res (A S : Type) : Type :=
| Ok (a : A) (s : S)
| Throw (s : S)
| Abort (r : abort).
Arguments Ok {A S} a s.
Arguments Throw {A S} s.
Arguments Abort {A S} r.

Definition is_ok {A S} (r : Res A S) : bool :=
  match r with Ok _ _ => true | _ => false end.
Definition is_throw {A S} (r : Res A S) : bool :=
  match r with Throw _ => true | _ => false end.

(** ** What happens outside the container: the event log *)

Inductive Event (T : Type) : Type :=
| EvAlloc (addr n : nat)
| EvDealloc (addr : nat)
| EvEmplace (x : T)
| EvDefault (x : T)
| EvCopy (x : T)
| EvMove (x : T)
| EvCopyAssign (x : T)
| EvMoveAssign (x : T)
| EvDestroy (x : T).
Arguments EvAlloc {T} addr n.
Arguments EvDealloc {T} addr.
Arguments EvEmplace {T} x.
Arguments EvDefault {T} x.
Arguments EvCopy {T} x.
Arguments EvMove {T} x.
Arguments EvCopyAssign {T} x.
Arguments EvMoveAssign {T} x.
Arguments EvDestroy {T} x.

(** The environment of a run: the element type's own state, the allocator
    (slots still available, next fresh address) and the log. *)
Record Env (T E : Type) : Type := mkEnv {
  elem_ : E;
  free_ : nat;
  next_ : nat;
  log_ : list (Event T)
}.
Arguments mkEnv {T E} _ _ _ _.
Arguments elem_ {T E} _.
Arguments free_ {T E} _.
Arguments next_ {T E} _.
Arguments log_ {T E} _.

(** ** RawMemory<T> *)

Record RawMemory (T : Type) : Type := mkRaw {
  buffer_ : nat;                 (* 0 is nullptr *)
  capacity_ : nat;
  cells_ : list (option T)       (* contents of the region at [buffer_] *)
}.
Arguments mkRaw {T} _ _ _.
Arguments buffer_ {T} _.
Arguments capacity_ {T} _.
Arguments cells_ {T} _.

(** ** Vector<T> *)

Record Vector (T : Type) : Type := mkVector {
  data_ : RawMemory T;
  size_ : nat
}.
Arguments mkVector {T} _ _.
Arguments data_ {T} _.
Arguments size_ {T} _.

(** What is passed to [Emplace]/[EmplaceBack]: constructor arguments, or a
    value to copy ([Insert(pos, const T&)], [PushBack(const T&)]), or a value
    to move from ([Insert(pos, T&&)], [PushBack(T&&)]). *)
Inductive Args (T A : Type) : Type :=
| FromArgs (a : A)
| CopyOf (x : T)
| MoveOf (x : T).
Arguments FromArgs {T A} a.
Arguments CopyOf {T A} x.
Arguments MoveOf {T A} x.

(** ** The element type

    What the container needs from [T]: its operations, each acting on the
    element type's own state [E] (a counter of live objects, a budget before
    the next raise, ...), and the two traits the growth paths ask for. *)
Class Element (T E A : Type) : Type := {
  (** [T(args...)]: the value built, or a raise. *)
  construct : A → E → option T * E;
  (** [T()]: value-initialisation. *)
  default_ctor : E → option T * E;
  (** [T(const T&)]: on success the new object has the source's value. *)
  copy_ctor : T → E → bool * E;
  (** [T(T&&)]: on success the new object has the source's value and the
      source is left as [moved_from] of it. *)
  move_ctor : T → E → bool * E;
  moved_from : T → T;
  (** [dst = src] and [dst = std::move(src)], arguments [dst] then [src];
      a raise leaves both as they were. *)
  copy_assign : T → T → E → bool * E;
  move_assign : T → T → E → bool * E;
  (** [~T()], assumed not to raise. *)
  destroy : T → E → E;
  (** [std::is_nothrow_move_constructible_v<T>] *)
  nothrow_move : bool;
  (** [std::is_copy_constructible_v<T>] *)
  copy_constructible : bool
}.

(** The two numbers [RawMemory::Allocate] computes with: the width of
    [size_t] and [sizeof(T)]. *)
Class Layout (T : Type) : Type := {
  (** the width of [size_t], in bits *)
  size_t_bits : N;
  (** [sizeof(T)], in bytes *)
  sizeof_T : positive
}.

(** Sample element types: values are numbers, the state is a budget of
    element operations that still succeed (construction and assignment each
    use one unit and raise at zero). *)
Module Sample.

Definition spend (e : nat) : bool * nat :=
  match e with 0 => (false, 0) | S e' => (true, e') end.

Definition build (x : nat) (e : nat) : option nat * nat :=
  match e with 0 => (None, 0) | S e' => (Some x, e') end.

(** [mf] is the moved-from value, [nm] and [cc] the two traits. *)
Definition elem (mf : nat → nat) (nm cc : bool) : Element nat nat nat := {|
  construct := build;
  default_ctor := build 0;
  copy_ctor := fun _ => spend;
  move_ctor := fun _ => spend;
  moved_from := mf;
  copy_assign := fun _ _ => spend;
  move_assign := fun _ _ => spend;
  destroy := fun _ e => e;
  nothrow_move := nm;
  copy_constructible := cc
|}.

(** [int]: moving leaves the value in place. *)
Definition int_like : Element nat nat nat := elem id true true.
(** A handle ([std::string], [std::unique_ptr]): moving empties the
    source. *)
Definition handle_like : Element nat nat nat := elem (fun _ => 0) true true.
(** Copyable, with a move constructor that may raise: relocated by copy. *)
Definition copy_relocated : Element nat nat nat := elem (fun _ => 0) false true.
(** Not copyable, with a move constructor that may raise. *)
Definition move_only_throwing : Element nat nat nat :=
  elem (fun _ => 0) false false.

(** An element type none of whose operations raises. *)
Definition plain : Element nat unit nat := {|
  construct := fun x e => (Some x, e);
  default_ctor := fun e => (Some 0, e);
  copy_ctor := fun _ e => (true, e);
  move_ctor := fun _ e => (true, e);
  moved_from := id;
  copy_assign := fun _ _ e => (true, e);
  move_assign := fun _ _ e => (true, e);
  destroy := fun _ e => e;
  nothrow_move := true;
  copy_constructible := true
|}.

Definition env0 (budget room : nat) : Env nat nat := mkEnv budget room 0 [].

(** A 4-byte element type where [size_t] has 64 bits. *)
Definition lp64 : Layout nat := {| size_t_bits := 64; sizeof_T := 4 |}.

(** A count whose byte size wraps there: [(2^62 + 1) * 4 = 2^64 + 4]. *)
Definition wrapping_count : nat := Z.to_nat (2 ^ 62 + 1).

(** A vector holding [xs] in a region of [cap] slots at address [b]. *)
Definition vec_of (b cap : nat) (xs : list nat) : Vector nat :=
  mkVector (mkRaw b cap (map Some xs ++ replicate (cap - length xs) None))
           (length xs).

End Sample.

Section Element.

Context {T E A : Type} `{ops : !Element T E A} {lay : Layout T}.

Local Abbreviation Cells := (list (option T)).
Local Abbreviation env := (Env T E).

Definition set_elem (e : E) (en : env) : env :=
  mkEnv e (free_ en) (next_ en) (log_ en).
Definition emit (ev : Event T) (en : env) : env :=
  mkEnv (elem_ en) (free_ en) (next_ en) (log_ en ++ [ev]).

(** *** Element primitives *)

Definition do_copy (x : T) (en : env) : bool * env :=
  let '(ok, e) := copy_ctor x (elem_ en) in
  (ok, if ok then emit (EvCopy x) (set_elem e en) else set_elem e en).

(** A move constructor declared [noexcept] that raises ends the program. *)
Definition do_move (x : T) (en : env) : Res unit env :=
  let '(ok, e) := move_ctor x (elem_ en) in
  if ok then Ok () (emit (EvMove x) (set_elem e en))
  else if nothrow_move then Abort Terminated
  else Throw (set_elem e en).

Definition do_default (en : env) : option T * env :=
  let '(r, e) := default_ctor (elem_ en) in
  match r with
  | Some x => (Some x, emit (EvDefault x) (set_elem e en))
  | None => (None, set_elem e en)
  end.

Definition do_destroy (x : T) (en : env) : env :=
  emit (EvDestroy x) (set_elem (destroy x (elem_ en)) en).

Definition do_copy_assign (dst src : T) (en : env) : bool * env :=
  let '(ok, e) := copy_assign dst src (elem_ en) in
  (ok, if ok then emit (EvCopyAssign src) (set_elem e en) else set_elem e en).

Definition do_move_assign (dst src : T) (en : env) : bool * env :=
  let '(ok, e) := move_assign dst src (elem_ en) in
  (ok, if ok then emit (EvMoveAssign src) (set_elem e en) else set_elem e en).

(** [new (p) T(std::forward<Args>(args)...)]: the value built. *)
Definition do_construct (a : Args T A) (en : env) : Res T env :=
  match a with
  | FromArgs a =>
      let '(r, e) := construct a (elem_ en) in
      match r with
      | Some x => Ok x (emit (EvEmplace x) (set_elem e en))
      | None => Throw (set_elem e en)
      end
  | CopyOf x =>
      let '(ok, en') := do_copy x en in
      if ok then Ok x en' else Throw en'
  | MoveOf x =>
      match do_move x en with
      | Ok _ en' => Ok x en'
      | Throw en' => Throw en'
      | Abort r => Abort r
      end
  end.

(** *** The allocator: [operator new] and [operator delete] *)

(** [RawMemory::Allocate] on a request whose byte count [n * sizeof(T)]
    [size_t] can express ([Allocate_size_t] below is the function for any
    [n]): nothing is requested for [n = 0]; otherwise [operator new]
    raises [std::bad_alloc] when the request does not fit. *)
Definition Allocate (n : nat) (en : env) : Res nat env :=
  if n =? 0 then Ok 0 en
  else if n <=? free_ en then
    Ok (S (next_ en))
       (mkEnv (elem_ en) (free_ en - n) (S (next_ en))
              (log_ en ++ [EvAlloc (S (next_ en)) n]))
  else Throw en.

(** [explicit RawMemory(size_t capacity)] *)
Definition RawMemory_new (capacity : nat) (en : env)
  : Res (RawMemory T) env :=
  match Allocate capacity en with
  | Ok b en' => Ok (mkRaw b capacity (replicate capacity None)) en'
  | Throw en' => Throw en'
  | Abort r => Abort r
  end.

(** [~RawMemory()]: [Deallocate(buffer_)]; deleting [nullptr] does nothing.
    No element destructor runs, whatever the slots hold. *)
Definition RawMemory_delete (m : RawMemory T) (en : env) : env :=
  if buffer_ m =? 0 then en
  else mkEnv (elem_ en) (free_ en + capacity_ m) (next_ en)
             (log_ en ++ [EvDealloc (buffer_ m)]).

(** *** The allocation functions with the arithmetic of [size_t] *)

(** [n * sizeof(T)] is computed without wrapping: it is at most
    [SIZE_MAX]. *)
Definition representable (n : nat) : Prop :=
  (Z.of_nat n * Z.pos sizeof_T < 2 ^ Z.of_N size_t_bits)%Z.

(** [n * sizeof(T)] as [size_t] computes it, and the number of objects of
    type [T] that fit in that many bytes. *)
Definition request_bytes (n : nat) : Z :=
  ((Z.of_nat n * Z.pos sizeof_T) mod 2 ^ Z.of_N size_t_bits)%Z.
Definition granted (n : nat) : nat :=
  Z.to_nat (request_bytes n / Z.pos sizeof_T).

(** [RawMemory::Allocate], for any [n]: [operator new] is asked for
    [request_bytes n] bytes, so the program gets room for [granted n]
    objects (and a non-null pointer even when that is none). *)
Definition Allocate_size_t (n : nat) (en : env) : Res nat env :=
  if n =? 0 then Ok 0 en
  else if granted n <=? free_ en then
    Ok (S (next_ en))
       (mkEnv (elem_ en) (free_ en - granted n) (S (next_ en))
              (log_ en ++ [EvAlloc (S (next_ en)) (granted n)]))
  else Throw en.

(** [explicit RawMemory(size_t capacity)], for any [capacity]: [capacity_]
    is what was asked for, the region is what was obtained. *)
Definition RawMemory_new_size_t (capacity : nat) (en : env)
  : Res (RawMemory T) env :=
  match Allocate_size_t capacity en with
  | Ok b en' => Ok (mkRaw b capacity (replicate (granted capacity) None)) en'
  | Throw en' => Throw en'
  | Abort r => Abort r
  end.

(** [~RawMemory()] of a region obtained that way: the allocator gets back
    the slots the region has, whatever [capacity_] says. *)
Definition RawMemory_delete_size_t (m : RawMemory T) (en : env) : env :=
  if buffer_ m =? 0 then en
  else mkEnv (elem_ en) (free_ en + length (cells_ m)) (next_ en)
             (log_ en ++ [EvDealloc (buffer_ m)]).

(** *** The standard algorithms the container calls, on slots *)

(** [std::destroy_n(first, n)]: destructors do not raise, so the only
    way not to return is to destroy what is not a live object ([None]). *)
Fixpoint destroy_n (c : Cells) (first n : nat) (en : env)
  : option (Cells * env) :=
  match n with
  | 0 => Some (c, en)
  | S n' =>
      match c !! first with
      | Some (Some x) =>
          destroy_n (<[first := None]> c) (S first) n' (do_destroy x en)
      | _ => None
      end
  end.

(** The construction loop of [std::uninitialized_copy_n]; a raise reports
    the slot reached. *)
Fixpoint copy_loop (src : Cells) (s n : nat) (dst : Cells) (d : nat)
    (en : env) : Res unit (nat * Cells * env) :=
  match n with
  | 0 => Ok () (d, dst, en)
  | S n' =>
      match src !! s, dst !! d with
      | Some (Some x), Some None =>
          let '(ok, en') := do_copy x en in
          if ok then copy_loop src (S s) n' (<[d := Some x]> dst) (S d) en'
          else Throw (d, dst, en')
      | _, _ => Abort UndefinedBehaviour
      end
  end.

(** [std::uninitialized_copy_n(first, n, d_first)]: what was built is
    destroyed before the raise leaves. *)
Definition uninitialized_copy_n (src : Cells) (s n : nat) (dst : Cells)
    (d : nat) (en : env) : Res unit (Cells * env) :=
  match copy_loop src s n dst d en with
  | Ok _ (_, dst', en') => Ok () (dst', en')
  | Throw (cur, dst', en') =>
      match destroy_n dst' d (cur - d) en' with
      | Some st => Throw st
      | None => Abort UndefinedBehaviour
      end
  | Abort r => Abort r
  end.

(** The construction loop of [std::uninitialized_move_n]: each source slot
    is left moved-from. *)
Fixpoint move_loop (src : Cells) (s n : nat) (dst : Cells) (d : nat)
    (en : env) : Res unit (nat * Cells * Cells * env) :=
  match n with
  | 0 => Ok () (d, src, dst, en)
  | S n' =>
      match src !! s, dst !! d with
      | Some (Some x), Some None =>
          match do_move x en with
          | Ok _ en' =>
              move_loop (<[s := Some (moved_from x)]> src) (S s) n'
                        (<[d := Some x]> dst) (S d) en'
          | Throw en' => Throw (d, src, dst, en')
          | Abort r => Abort r
          end
      | _, _ => Abort UndefinedBehaviour
      end
  end.

(** [std::uninitialized_move_n(first, n, d_first)]: source and destination
    are different regions here. *)
Definition uninitialized_move_n (src : Cells) (s n : nat) (dst : Cells)
    (d : nat) (en : env) : Res unit (Cells * Cells * env) :=
  match move_loop src s n dst d en with
  | Ok _ (_, src', dst', en') => Ok () (src', dst', en')
  | Throw (cur, src', dst', en') =>
      match destroy_n dst' d (cur - d) en' with
      | Some (dst'', en'') => Throw (src', dst'', en'')
      | None => Abort UndefinedBehaviour
      end
  | Abort r => Abort r
  end.

(** The construction loop of [std::uninitialized_value_construct_n]. *)
Fixpoint value_loop (dst : Cells) (d n : nat) (en : env)
  : Res unit (nat * Cells * env) :=
  match n with
  | 0 => Ok () (d, dst, en)
  | S n' =>
      match dst !! d with
      | Some None =>
          match do_default en with
          | (Some x, en') => value_loop (<[d := Some x]> dst) (S d) n' en'
          | (None, en') => Throw (d, dst, en')
          end
      | _ => Abort UndefinedBehaviour
      end
  end.

(** [std::uninitialized_value_construct_n(first, n)] *)
Definition uninitialized_value_construct_n (dst : Cells) (d n : nat)
    (en : env) : Res unit (Cells * env) :=
  match value_loop dst d n en with
  | Ok _ (_, dst', en') => Ok () (dst', en')
  | Throw (cur, dst', en') =>
      match destroy_n dst' d (cur - d) en' with
      | Some st => Throw st
      | None => Abort UndefinedBehaviour
      end
  | Abort r => Abort r
  end.

(** [std::destroy_at(p)] *)
Definition destroy_at (c : Cells) (i : nat) (en : env)
  : option (Cells * env) :=
  match c !! i with
  | Some (Some x) => Some (<[i := None]> c, do_destroy x en)
  | _ => None
  end.

(** [new (p) T(std::forward<Args>(args)...)] into the raw slot [i]. *)
Definition construct_at (c : Cells) (i : nat) (a : Args T A) (en : env)
  : Res unit (Cells * env) :=
  match c !! i with
  | Some None =>
      match do_construct a en with
      | Ok x en' => Ok () (<[i := Some x]> c, en')
      | Throw en' => Throw (c, en')
      | Abort r => Abort r
      end
  | _ => Abort UndefinedBehaviour
  end.

(** [std::copy(first, first + n, d_first)] from another region: element
    by element copy assignment, no unwinding. *)
Fixpoint std_copy (src : Cells) (s n : nat) (dst : Cells) (d : nat)
    (en : env) : Res unit (Cells * env) :=
  match n with
  | 0 => Ok () (dst, en)
  | S n' =>
      match src !! s, dst !! d with
      | Some (Some x), Some (Some y) =>
          let '(ok, en') := do_copy_assign y x en in
          if ok then std_copy src (S s) n' (<[d := Some x]> dst) (S d) en'
          else Throw (dst, en')
      | _, _ => Abort UndefinedBehaviour
      end
  end.

(** One move assignment [c[d] = std::move(c[f])] inside a region. *)
Definition move_assign_at (c : Cells) (f d : nat) (en : env)
  : Res unit (Cells * env) :=
  match c !! f, c !! d with
  | Some (Some x), Some (Some y) =>
      let '(ok, en') := do_move_assign y x en in
      if ok then Ok () (<[d := Some x]> (<[f := Some (moved_from x)]> c), en')
      else Throw (c, en')
  | _, _ => Abort UndefinedBehaviour
  end.

(** [std::move(first, first + n, d_first)], front to back. *)
Fixpoint std_move (c : Cells) (f n d : nat) (en : env)
  : Res unit (Cells * env) :=
  match n with
  | 0 => Ok () (c, en)
  | S n' =>
      match move_assign_at c f d en with
      | Ok _ (c', en') => std_move c' (S f) n' (S d) en'
      | r => r
      end
  end.

(** [std::move_backward(last - n, last, d_last)], back to front. *)
Fixpoint std_move_backward (c : Cells) (last n d_last : nat) (en : env)
  {struct n} : Res unit (Cells * env) :=
  match n with
  | 0 => Ok () (c, en)
  | S n' =>
      match last, d_last with
      | S l, S dl =>
          match move_assign_at c l dl en with
          | Ok _ (c', en') => std_move_backward c' l n' dl en'
          | r => r
          end
      | _, _ => Abort UndefinedBehaviour
      end
  end.

(** The [if constexpr] block repeated in every growth path:
    [uninitialized_move_n] when [T] is nothrow-move-constructible or not
    copy-constructible, [uninitialized_copy_n] otherwise. *)
Definition relocate_by_move : bool :=
  nothrow_move || negb copy_constructible.

Definition relocate_n (src : Cells) (s n : nat) (dst : Cells) (d : nat)
    (en : env) : Res unit (Cells * Cells * env) :=
  if relocate_by_move then uninitialized_move_n src s n dst d en
  else
    match uninitialized_copy_n src s n dst d en with
    | Ok _ (dst', en') => Ok () (src, dst', en')
    | Throw (dst', en') => Throw (src, dst', en')
    | Abort r => Abort r
    end.

(** *** Vector<T> *)

Local Abbreviation vec := (Vector T).

Definition set_cells (c : Cells) (m : RawMemory T) : RawMemory T :=
  mkRaw (buffer_ m) (capacity_ m) c.
Definition with_cells (c : Cells) (v : vec) : vec :=
  mkVector (set_cells c (data_ v)) (size_ v).
Definition with_size (n : nat) (v : vec) : vec :=
  mkVector (data_ v) n.

(** [Vector() = default] *)
Definition Vector_default : vec := mkVector (mkRaw 0 0 []) 0.

Definition Size (v : vec) : nat := size_ v.
Definition Capacity (v : vec) : nat := capacity_ (data_ v).

(** [explicit Vector(size_t size)]: a raise from the element constructor
    unwinds the already built member [data_]. *)
Definition Vector_sized (size : nat) (en : env) : Res vec env :=
  match RawMemory_new size en with
  | Ok data en1 =>
      if 0 <? size then
        match uninitialized_value_construct_n (cells_ data) 0 size en1 with
        | Ok _ (c, en2) => Ok (mkVector (set_cells c data) size) en2
        | Throw (c, en2) => Throw (RawMemory_delete (set_cells c data) en2)
        | Abort r => Abort r
        end
      else Ok (mkVector data 0) en1
  | Throw en1 => Throw en1
  | Abort r => Abort r
  end.

(** [Vector(const Vector& other)] *)
Definition Vector_copy (other : vec) (en : env) : Res vec env :=
  match RawMemory_new (size_ other) en with
  | Ok data en1 =>
      if 0 <? size_ other then
        match uninitialized_copy_n (cells_ (data_ other)) 0 (size_ other)
                                   (cells_ data) 0 en1 with
        | Ok _ (c, en2) => Ok (mkVector (set_cells c data) (size_ other)) en2
        | Throw (c, en2) => Throw (RawMemory_delete (set_cells c data) en2)
        | Abort r => Abort r
        end
      else Ok (mkVector data 0) en1
  | Throw en1 => Throw en1
  | Abort r => Abort r
  end.

(** [void Swap(Vector& other) noexcept]: the pair is (this, other). *)
Definition Swap (this other : vec) : vec * vec := (other, this).

(** [Vector(Vector&& other) noexcept]: the new object and what is left
    of [other]. *)
Definition Vector_move (other : vec) : vec * vec :=
  Swap Vector_default other.

(** [~Vector()] followed by the destructor of the member [data_]. *)
Definition Vector_delete (v : vec) (en : env) : Res unit env :=
  match destroy_n (cells_ (data_ v)) 0 (size_ v) en with
  | Some (c, en1) => Ok () (RawMemory_delete (set_cells c (data_ v)) en1)
  | None => Abort UndefinedBehaviour
  end.

(** [void AssignFrom(const Vector& other)] *)
Definition AssignFrom (other : vec) (this : vec) (en : env)
  : Res unit (vec * env) :=
  match std_copy (cells_ (data_ other)) 0 (size_ other `min` size_ this)
                 (cells_ (data_ this)) 0 en with
  | Ok _ (c1, en1) =>
      if size_ this <? size_ other then
        match uninitialized_copy_n (cells_ (data_ other)) (size_ this)
                (size_ other - size_ this) c1 (size_ this) en1 with
        | Ok _ (c2, en2) =>
            Ok () (with_size (size_ other) (with_cells c2 this), en2)
        | Throw (c2, en2) => Throw (with_cells c2 this, en2)
        | Abort r => Abort r
        end
      else if size_ other <? size_ this then
        match destroy_n c1 (size_ other) (size_ this - size_ other) en1 with
        | Some (c2, en2) =>
            Ok () (with_size (size_ other) (with_cells c2 this), en2)
        | None => Abort UndefinedBehaviour
        end
      else Ok () (with_size (size_ other) (with_cells c1 this), en1)
  | Throw (c1, en1) => Throw (with_cells c1 this, en1)
  | Abort r => Abort r
  end.

(** The body of [operator=(const Vector& rhs)] under [this != &rhs]. *)
Definition copy_assign_distinct (rhs : vec) (this : vec) (en : env)
  : Res unit (vec * env) :=
  if Capacity this <? size_ rhs then
    match Vector_copy rhs en with
    | Ok rhs_copy en1 =>
        let '(this', rhs_copy') := Swap this rhs_copy in
        match Vector_delete rhs_copy' en1 with
        | Ok _ en2 => Ok () (this', en2)
        | Throw en2 => Throw (this', en2)
        | Abort r => Abort r
        end
    | Throw en1 => Throw (this, en1)
    | Abort r => Abort r
    end
  else AssignFrom rhs this en.

(** Objects are told apart by their place in a store, so that
    [this != &rhs] can be tested. *)
Definition CopyAssign (this rhs : nat) (st : list vec) (en : env)
  : Res unit (list vec * env) :=
  match st !! this, st !! rhs with
  | Some v, Some r =>
      if this =? rhs then Ok () (st, en)
      else
        match copy_assign_distinct r v en with
        | Ok _ (v', en') => Ok () (<[this := v']> st, en')
        | Throw (v', en') => Throw (<[this := v']> st, en')
        | Abort a => Abort a
        end
  | _, _ => Abort UndefinedBehaviour
  end.

(** [operator=(Vector&& rhs) noexcept] *)
Definition MoveAssign (this rhs : nat) (st : list vec) (en : env)
  : Res unit (list vec * env) :=
  match st !! this, st !! rhs with
  | Some v, Some r =>
      if this =? rhs then Ok () (st, en)
      else
        let '(v', r') := Swap v r in
        Ok () (<[rhs := r']> (<[this := v']> st), en)
  | _, _ => Abort UndefinedBehaviour
  end.

(** [void PopBack() noexcept]; the assertion [size_ > 0] stands for the
    precondition. *)
Definition PopBack (v : vec) (en : env) : Res unit (vec * env) :=
  if size_ v =? 0 then Abort UndefinedBehaviour
  else
    match destroy_at (cells_ (data_ v)) (size_ v - 1) en with
    | Some (c, en1) => Ok () (with_size (size_ v - 1) (with_cells c v), en1)
    | None => Abort UndefinedBehaviour
    end.

(** [void Reserve(size_t new_capacity)] *)
Definition Reserve (new_capacity : nat) (v : vec) (en : env)
  : Res unit (vec * env) :=
  if new_capacity <=? capacity_ (data_ v) then Ok () (v, en)
  else
    match RawMemory_new new_capacity en with
    | Ok new_data en1 =>
        let moved :=
          if 0 <? size_ v then
            relocate_n (cells_ (data_ v)) 0 (size_ v) (cells_ new_data) 0 en1
          else Ok () (cells_ (data_ v), cells_ new_data, en1) in
        match moved with
        | Ok _ (oc, nc, en2) =>
            match destroy_n oc 0 (size_ v) en2 with
            | Some (oc', en3) =>
                Ok () (mkVector (set_cells nc new_data) (size_ v),
                       RawMemory_delete (set_cells oc' (data_ v)) en3)
            | None => Abort UndefinedBehaviour
            end
        | Throw (oc, nc, en2) =>
            Throw (with_cells oc v,
                   RawMemory_delete (set_cells nc new_data) en2)
        | Abort r => Abort r
        end
    | Throw en1 => Throw (v, en1)
    | Abort r => Abort r
    end.

(** [void Resize(size_t new_size)] *)
Definition Resize (new_size : nat) (v : vec) (en : env)
  : Res unit (vec * env) :=
  if new_size <? size_ v then
    match destroy_n (cells_ (data_ v)) new_size (size_ v - new_size) en with
    | Some (c, en1) => Ok () (with_size new_size (with_cells c v), en1)
    | None => Abort UndefinedBehaviour
    end
  else if size_ v <? new_size then
    match Reserve new_size v en with
    | Ok _ (v1, en1) =>
        match uninitialized_value_construct_n (cells_ (data_ v1)) (size_ v1)
                (new_size - size_ v1) en1 with
        | Ok _ (c, en2) => Ok () (with_size new_size (with_cells c v1), en2)
        | Throw (c, en2) => Throw (with_cells c v1, en2)
        | Abort r => Abort r
        end
    | r => r
    end
  else Ok () (v, en).

(** The growth rule of [EmplaceBack] and [Emplace]. *)
Definition grown_capacity (size : nat) : nat :=
  if size =? 0 then 1 else size * 2.

(** [T& EmplaceBack(Args&&... args)]: returns the index of the new
    element. *)
Definition EmplaceBack (a : Args T A) (v : vec) (en : env)
  : Res nat (vec * env) :=
  if size_ v =? Capacity v then
    let new_capacity := grown_capacity (size_ v) in
    match RawMemory_new new_capacity en with
    | Ok new_data en1 =>
        match construct_at (cells_ new_data) (size_ v) a en1 with
        | Ok _ (nc, en2) =>
            match relocate_n (cells_ (data_ v)) 0 (size_ v) nc 0 en2 with
            | Ok _ (oc, nc1, en3) =>
                match destroy_n oc 0 (size_ v) en3 with
                | Some (oc', en4) =>
                    Ok (size_ v)
                       (mkVector (set_cells nc1 new_data) (S (size_ v)),
                        RawMemory_delete (set_cells oc' (data_ v)) en4)
                | None => Abort UndefinedBehaviour
                end
            | Throw (oc, nc1, en3) =>
                match destroy_at nc1 (size_ v) en3 with
                | Some (nc2, en4) =>
                    Throw (with_cells oc v,
                           RawMemory_delete (set_cells nc2 new_data) en4)
                | None => Abort UndefinedBehaviour
                end
            | Abort r => Abort r
            end
        | Throw (nc, en2) =>
            Throw (v, RawMemory_delete (set_cells nc new_data) en2)
        | Abort r => Abort r
        end
    | Throw en1 => Throw (v, en1)
    | Abort r => Abort r
    end
  else
    match construct_at (cells_ (data_ v)) (size_ v) a en with
    | Ok _ (c, en1) =>
        Ok (size_ v) (with_size (S (size_ v)) (with_cells c v), en1)
    | Throw (c, en1) => Throw (with_cells c v, en1)
    | Abort r => Abort r
    end.

(** [void PushBack(const T& value)] and [void PushBack(T&& value)] *)
Definition PushBack_copy (value : T) (v : vec) (en : env)
  : Res unit (vec * env) :=
  match EmplaceBack (CopyOf value) v en with
  | Ok _ st => Ok () st
  | Throw st => Throw st
  | Abort r => Abort r
  end.
Definition PushBack_move (value : T) (v : vec) (en : env)
  : Res unit (vec * env) :=
  match EmplaceBack (MoveOf value) v en with
  | Ok _ st => Ok () st
  | Throw st => Throw st
  | Abort r => Abort r
  end.

(** [Emplace], branch [size_ == Capacity()], the block [if (offset > 0)]:
    the prefix is relocated; on a raise the new element is destroyed. *)
Definition grow_prefix (oc : Cells) (offset : nat) (nc : Cells) (en : env)
  : Res unit (Cells * Cells * env) :=
  if 0 <? offset then
    match relocate_n oc 0 offset nc 0 en with
    | Ok _ st => Ok () st
    | Throw (oc1, nc1, en1) =>
        match destroy_at nc1 offset en1 with
        | Some (nc2, en2) => Throw (oc1, nc2, en2)
        | None => Abort UndefinedBehaviour
        end
    | Abort r => Abort r
    end
  else Ok () (oc, nc, en).

(** The block [if (size_ > offset)]: the suffix is relocated one slot
    later; on a raise the prefix and the new element are destroyed. *)
Definition grow_suffix (oc : Cells) (offset size : nat) (nc : Cells)
    (en : env) : Res unit (Cells * Cells * env) :=
  if offset <? size then
    match relocate_n oc offset (size - offset) nc (offset + 1) en with
    | Ok _ st => Ok () st
    | Throw (oc1, nc1, en1) =>
        match destroy_n nc1 0 (offset + 1) en1 with
        | Some (nc2, en2) => Throw (oc1, nc2, en2)
        | None => Abort UndefinedBehaviour
        end
    | Abort r => Abort r
    end
  else Ok () (oc, nc, en).

(** [Emplace], branch [size_ == Capacity()]: the new element first, then
    the prefix, then the suffix one slot later. *)
Definition Emplace_grow (offset : nat) (a : Args T A) (v : vec) (en : env)
  : Res nat (vec * env) :=
  let new_capacity := grown_capacity (size_ v) in
  match RawMemory_new new_capacity en with
  | Ok new_data en1 =>
      match construct_at (cells_ new_data) offset a en1 with
      | Ok _ (nc, en2) =>
          match grow_prefix (cells_ (data_ v)) offset nc en2 with
          | Ok _ (oc1, nc1, en3) =>
              match grow_suffix oc1 offset (size_ v) nc1 en3 with
              | Ok _ (oc2, nc2, en4) =>
                  match destroy_n oc2 0 (size_ v) en4 with
                  | Some (oc3, en5) =>
                      Ok offset
                         (mkVector (set_cells nc2 new_data) (S (size_ v)),
                          RawMemory_delete (set_cells oc3 (data_ v)) en5)
                  | None => Abort UndefinedBehaviour
                  end
              | Throw (oc2, nc2, en4) =>
                  Throw (with_cells oc2 v,
                         RawMemory_delete (set_cells nc2 new_data) en4)
              | Abort r => Abort r
              end
          | Throw (oc1, nc1, en3) =>
              Throw (with_cells oc1 v,
                     RawMemory_delete (set_cells nc1 new_data) en3)
          | Abort r => Abort r
          end
      | Throw (nc, en2) =>
          Throw (v, RawMemory_delete (set_cells nc new_data) en2)
      | Abort r => Abort r
      end
  | Throw en1 => Throw (v, en1)
  | Abort r => Abort r
  end.

(** [Emplace], branch with room, [offset != size_]: a scratch [temp], the
    last element moved to [end()], the backward shift, the assignment from
    [temp]; [temp] is destroyed when its scope is left, either way. *)
Definition Emplace_shift (offset : nat) (a : Args T A) (v : vec) (en : env)
  : Res nat (vec * env) :=
  match do_construct a en with
  | Ok temp en1 =>
      let c := cells_ (data_ v) in
      match size_ v, c !! (size_ v - 1), c !! size_ v with
      | S _, Some (Some x), Some None =>
          match do_move x en1 with
          | Ok _ en2 =>
              let c1 := <[size_ v := Some x]>
                          (<[size_ v - 1 := Some (moved_from x)]> c) in
              let size1 := S (size_ v) in
              let shifted :=
                match std_move_backward c1 (size1 - 1)
                        (size1 - 1 - offset) size1 en2 with
                | Ok _ (c2, en3) =>
                    match c2 !! offset with
                    | Some (Some y) =>
                        let '(ok, en4) := do_move_assign y temp en3 in
                        if ok then
                          Ok (moved_from temp) (<[offset := Some temp]> c2, en4)
                        else Throw (c2, en4)
                    | _ => Abort UndefinedBehaviour
                    end
                | Throw st => Throw st
                | Abort r => Abort r
                end in
              match shifted with
              | Ok temp' (c3, en4) =>
                  Ok offset (with_size size1 (with_cells c3 v),
                             do_destroy temp' en4)
              | Throw (c3, en4) =>
                  match destroy_at c3 (size1 - 1) en4 with
                  | Some (c4, en5) =>
                      Throw (with_size (size1 - 1) (with_cells c4 v),
                             do_destroy temp en5)
                  | None => Abort UndefinedBehaviour
                  end
              | Abort r => Abort r
              end
          | Throw en2 => Throw (v, do_destroy temp en2)
          | Abort r => Abort r
          end
      | _, _, _ => Abort UndefinedBehaviour
      end
  | Throw en1 => Throw (v, en1)
  | Abort r => Abort r
  end.

(** [iterator Emplace(const_iterator pos, Args&&... args)], with
    [offset = pos - begin()]; the iterator returned is given by its
    offset.  The assertion stands for the precondition. *)
Definition Emplace (offset : nat) (a : Args T A) (v : vec) (en : env)
  : Res nat (vec * env) :=
  if size_ v <? offset then Abort UndefinedBehaviour
  else if size_ v =? Capacity v then Emplace_grow offset a v en
  else if offset =? size_ v then
    match EmplaceBack a v en with
    | Ok _ st => Ok offset st
    | r => r
    end
  else Emplace_shift offset a v en.

(** [Insert(const_iterator pos, const T& value)] and
    [Insert(const_iterator pos, T&& value)] *)
Definition Insert_copy (offset : nat) (value : T) (v : vec) (en : env)
  : Res nat (vec * env) := Emplace offset (CopyOf value) v en.
Definition Insert_move (offset : nat) (value : T) (v : vec) (en : env)
  : Res nat (vec * env) := Emplace offset (MoveOf value) v en.

(** [iterator Erase(const_iterator pos)], with [offset = pos - begin()]; the
    iterator returned is given by its offset.  The assertion
    [pos < end()] stands for the precondition. *)
Definition Erase (offset : nat) (v : vec) (en : env)
  : Res nat (vec * env) :=
  if size_ v <=? offset then Abort UndefinedBehaviour
  else
    match std_move (cells_ (data_ v)) (offset + 1)
                   (size_ v - (offset + 1)) offset en with
    | Ok _ (c, en1) =>
        match PopBack (with_cells c v) en1 with
        | Ok _ st => Ok offset st
        | Throw st => Throw st
        | Abort r => Abort r
        end
    | Throw (c, en1) => Throw (with_cells c v, en1)
    | Abort r => Abort r
    end.

(** [T& operator[](size_t index)] *)
Definition index (i : nat) (v : vec) : option T :=
  if i <? size_ v then mjoin (cells_ (data_ v) !! i) else None.

(** The live elements, in order. *)
Definition elements (v : vec) : list (option T) :=
  take (size_ v) (cells_ (data_ v)).

(** *** The public mutating operations on one vector, as data *)

Inductive Op : Type :=
| OpResize (new_size : nat)
| OpPushBack_copy (value : T)
| OpPushBack_move (value : T)
| OpEmplaceBack (a : Args T A)
| OpEmplace (offset : nat) (a : Args T A)
| OpInsert_copy (offset : nat) (value : T)
| OpInsert_move (offset : nat) (value : T)
| OpErase (offset : nat)
| OpPopBack
| OpReserve (new_capacity : nat).

Definition forget {R S} (r : Res R S) : Res unit S :=
  match r with
  | Ok _ s => Ok () s
  | Throw s => Throw s
  | Abort a => Abort a
  end.

Definition step (op : Op) (v : vec) (en : env) : Res unit (vec * env) :=
  match op with
  | OpResize n => Resize n v en
  | OpPushBack_copy x => PushBack_copy x v en
  | OpPushBack_move x => PushBack_move x v en
  | OpEmplaceBack a => forget (EmplaceBack a v en)
  | OpEmplace offset a => forget (Emplace offset a v en)
  | OpInsert_copy offset x => forget (Insert_copy offset x v en)
  | OpInsert_move offset x => forget (Insert_move offset x v en)
  | OpErase offset => forget (Erase offset v en)
  | OpPopBack => PopBack v en
  | OpReserve n => Reserve n v en
  end.

(** *** Invariants *)

(** The region [data_] owns has [capacity_] slots. *)
Definition region_ok (v : vec) : Prop :=
  length (cells_ (data_ v)) = capacity_ (data_ v).

(** The structural invariant, [0 <= size_ <= Capacity()]. *)
Definition invariant (v : vec) : Prop :=
  region_ok v ∧ Size v ≤ Capacity v.

(** The full invariant: slots [[0, size_)] hold the live elements [xs],
    slots [[size_, Capacity())] are raw. *)
Definition holds (xs : list T) (v : vec) : Prop :=
  size_ v = length xs ∧
  cells_ (data_ v) =
    map Some xs ++ replicate (capacity_ (data_ v) - length xs) None ∧
  length xs ≤ capacity_ (data_ v).

(** What a run leaves: the vector in its final state, if the program is
    still observable. *)
Definition final {R} (r : Res R (vec * env)) : option vec :=
  match r with
  | Ok _ (v, _) | Throw (v, _) => Some v
  | Abort _ => None
  end.

(** [logged en en' evs]: from [en] to [en'] exactly the events [evs] were
    added to the log, and the allocator was not used. *)
Definition logged (en en' : env) (evs : list (Event T)) : Prop :=
  log_ en' = log_ en ++ evs ∧ free_ en' = free_ en ∧ next_ en' = next_ en.

(** The events of relocating the values [xs], and what relocation leaves
    in the old slots. *)
Definition relocation_log (xs : list T) : list (Event T) :=
  map (if relocate_by_move then EvMove else EvCopy) xs.
Definition left_behind (xs : list T) : list T :=
  if relocate_by_move then map moved_from xs else xs.

(** Element types for which an interrupted relocation cannot have touched
    the old region: relocated by copy, or by a move that does not raise. *)
Definition relocation_is_safe : bool := nothrow_move || copy_constructible.

(** What releasing the region of [v] adds to the log. *)
Definition dealloc_log (v : vec) : list (Event T) :=
  if buffer_ (data_ v) =? 0 then [] else [EvDealloc (buffer_ (data_ v))].

(** [x] is a value that value-initialisation can produce. *)
Definition is_default (x : T) : Prop :=
  ∃ e, (default_ctor e).1 = Some x.

(** What the construction of the new element [x] from [a] adds to the log. *)
Definition construct_log (a : Args T A) (x : T) : list (Event T) :=
  match a with
  | FromArgs _ => [EvEmplace x]
  | CopyOf _ => [EvCopy x]
  | MoveOf _ => [EvMove x]
  end.

(** What the forward shift of [xs] onto the slot of [y] leaves in the last
    slot it read: the moved-from last element, or [y] itself when nothing
    was shifted. *)
Definition shift_residue (y : T) (xs : list T) : T :=
  match last xs with
  | Some z => moved_from z
  | None => y
  end.

(** What the backward shift of [ws] onto the slot of [y] leaves in the
    first slot it read: the moved-from first element, or [y] itself when
    nothing was shifted. *)
Definition shift_back_residue (y : T) (ws : list T) : T :=
  match ws with
  | w :: _ => moved_from w
  | [] => y
  end.

(** The store of vectors a run leaves. *)
Definition final_store {R} (r : Res R (list vec * env)) : option (list vec) :=
  match r with
  | Ok _ (st, _) | Throw (st, _) => Some st
  | Abort _ => None
  end.

(** The full invariant, for some sequence of live elements. *)
Definition valid (v : vec) : Prop := ∃ xs, holds xs v.

(** The precondition of an operation: the position passed to [Emplace] and
    [Insert] lies in [[begin, end]], the one passed to [Erase] in
    [[begin, end)], and [PopBack] needs an element. *)
Definition op_pre (op : Op) (v : vec) : Prop :=
  match op with
  | OpEmplace offset _ | OpInsert_copy offset _ | OpInsert_move offset _ =>
      offset ≤ Size v
  | OpErase offset => offset < Size v
  | OpPopBack => 0 < Size v
  | _ => True
  end.

(** The region a run leaves has as many slots as [c]. *)
Definition same_length {R S} (proj : S → Cells) (c : Cells) (r : Res R S)
  : Prop :=
  match r with
  | Ok _ s | Throw s => length (proj s) = length c
  | Abort _ => True
  end.

(** *** Counting objects and storage *)

(** The number of live objects in a region. *)
Definition weight (o : option T) : nat :=
  match o with Some _ => 1 | None => 0 end.
Definition live (c : Cells) : nat := sum_list_with weight c.

(** What an event does to the number of objects of type [T] alive in the
    program: every construction makes one, every destruction ends one. *)
Definition event_net (ev : Event T) : Z :=
  match ev with
  | EvEmplace _ | EvDefault _ | EvCopy _ | EvMove _ => 1
  | EvDestroy _ => -1
  | _ => 0
  end%Z.
Definition net (evs : list (Event T)) : Z :=
  foldr (λ ev z, event_net ev + z)%Z 0%Z evs.
Definition objects (en : env) : Z := net (log_ en).

(** [delta k en en']: from [en] to [en'] the number of objects grew by [k]
    and the allocator was not used. *)
Definition delta (k : Z) (en en' : env) : Prop :=
  objects en' = (objects en + k)%Z ∧
  free_ en' = free_ en ∧ next_ en' = next_ en.

(** The live objects of a vector are its [size_] first slots and no other. *)
Definition counted (v : vec) : Prop := live (cells_ (data_ v)) = size_ v.

(** A null buffer has no capacity. *)
Definition null_is_empty (v : vec) : Prop :=
  buffer_ (data_ v) = 0 → capacity_ (data_ v) = 0.

(** [accounted v en v' en']: a run from [(v, en)] to [(v', en')] has made
    or ended exactly as many objects as the size changed, and taken or given
    back exactly as many slots as the capacity changed. *)
Definition accounted (v : vec) (en : env) (v' : vec) (en' : env) : Prop :=
  counted v' ∧ null_is_empty v' ∧
  (objects en' - Z.of_nat (size_ v') = objects en - Z.of_nat (size_ v))%Z ∧
  free_ en' + capacity_ (data_ v') = free_ en + capacity_ (data_ v).

(** *** A scope that owns a vector *)

(** A sequence of statements on one vector: a raise propagates out of the
    sequence, the later statements are not run. *)
Fixpoint run (prog : list Op) (v : vec) (en : env) : Res unit (vec * env) :=
  match prog with
  | [] => Ok () (v, en)
  | op :: prog' =>
      match step op v en with
      | Ok _ (v', en') => run prog' v' en'
      | r => r
      end
  end.

(** [{ Vector<T> v(size); prog }]: the vector is destroyed when the scope
    is left, by its end or by a raise that unwinds it. *)
Definition scope (size : nat) (prog : list Op) (en : env) : Res unit env :=
  match Vector_sized size en with
  | Ok v en1 =>
      match run prog v en1 with
      | Ok _ (v', en2) => Vector_delete v' en2
      | Throw (v', en2) =>
          match Vector_delete v' en2 with
          | Ok _ en3 => Throw en3
          | r => r
          end
      | Abort r => Abort r
      end
  | Throw en1 => Throw en1
  | Abort r => Abort r
  end.

(** *** Operations that stay in the region they have *)

(** The test each operation makes before it asks for a new region:
    [Reserve] and the growing [Resize] compare the request with the
    capacity, the insertions test [size_ == Capacity()]; [Erase] and
    [PopBack] never ask. *)
Definition has_room (op : Op) (v : vec) : bool :=
  match op with
  | OpResize n | OpReserve n => n <=? Capacity v
  | OpPushBack_copy _ | OpPushBack_move _ | OpEmplaceBack _
  | OpEmplace _ _ | OpInsert_copy _ _ | OpInsert_move _ _ =>
      negb (size_ v =? Capacity v)
  | OpErase _ | OpPopBack => true
  end.

(** The run from [(v, en)] to [(v', en')] kept the region: same buffer,
    same capacity, and the allocator was not used. *)
Definition kept_in_place (v : vec) (en : env) (v' : vec) (en' : env)
  : Prop :=
  buffer_ (data_ v') = buffer_ (data_ v) ∧ Capacity v' = Capacity v ∧
  free_ en' = free_ en ∧ next_ en' = next_ en.

(** [x] is a value the construction from [a] can give: what the
    constructor of [T] builds from the arguments, or the value copied or
    moved from. *)
Definition built (a : Args T A) (x : T) : Prop :=
  match a with
  | FromArgs a' => ∃ e, (construct a' e).1 = Some x
  | CopyOf y | MoveOf y => x = y
  end.

(** The capacity that repeated doubling from nothing gives a vector of [n]
    elements: none for none, else a power of two that holds [n] and is
    less than twice [n]. *)
Definition doubled (n cap : nat) : Prop :=
  (n = 0 ∧ cap = 0) ∨ (∃ k, cap = 2 ^ k ∧ n ≤ cap ∧ cap < 2 * n).

(** *** The operations that take a count from the caller, for any count *)

(** [explicit Vector(size_t size)], for any [size]. *)
Definition Vector_sized_size_t (size : nat) (en : env) : Res vec env :=
  match RawMemory_new_size_t size en with
  | Ok data en1 =>
      if 0 <? size then
        match uninitialized_value_construct_n (cells_ data) 0 size en1 with
        | Ok _ (c, en2) => Ok (mkVector (set_cells c data) size) en2
        | Throw (c, en2) =>
            Throw (RawMemory_delete_size_t (set_cells c data) en2)
        | Abort r => Abort r
        end
      else Ok (mkVector data 0) en1
  | Throw en1 => Throw en1
  | Abort r => Abort r
  end.

(** [void Reserve(size_t new_capacity)], for any [new_capacity]. *)
Definition Reserve_size_t (new_capacity : nat) (v : vec) (en : env)
  : Res unit (vec * env) :=
  if new_capacity <=? capacity_ (data_ v) then Ok () (v, en)
  else
    match RawMemory_new_size_t new_capacity en with
    | Ok new_data en1 =>
        let moved :=
          if 0 <? size_ v then
            relocate_n (cells_ (data_ v)) 0 (size_ v) (cells_ new_data) 0 en1
          else Ok () (cells_ (data_ v), cells_ new_data, en1) in
        match moved with
        | Ok _ (oc, nc, en2) =>
            match destroy_n oc 0 (size_ v) en2 with
            | Some (oc', en3) =>
                Ok () (mkVector (set_cells nc new_data) (size_ v),
                       RawMemory_delete_size_t (set_cells oc' (data_ v)) en3)
            | None => Abort UndefinedBehaviour
            end
        | Throw (oc, nc, en2) =>
            Throw (with_cells oc v,
                   RawMemory_delete_size_t (set_cells nc new_data) en2)
        | Abort r => Abort r
        end
    | Throw en1 => Throw (v, en1)
    | Abort r => Abort r
    end.

(** [void Resize(size_t new_size)], for any [new_size]. *)
Definition Resize_size_t (new_size : nat) (v : vec) (en : env)
  : Res unit (vec * env) :=
  if new_size <? size_ v then
    match destroy_n (cells_ (data_ v)) new_size (size_ v - new_size) en with
    | Some (c, en1) => Ok () (with_size new_size (with_cells c v), en1)
    | None => Abort UndefinedBehaviour
    end
  else if size_ v <? new_size then
    match Reserve_size_t new_size v en with
    | Ok _ (v1, en1) =>
        match uninitialized_value_construct_n (cells_ (data_ v1)) (size_ v1)
                (new_size - size_ v1) en1 with
        | Ok _ (c, en2) => Ok () (with_size new_size (with_cells c v1), en2)
        | Throw (c, en2) => Throw (with_cells c v1, en2)
        | Abort r => Abort r
        end
    | r => r
    end
  else Ok () (v, en).

(** The public mutating operations, for any count the caller supplies. *)
Definition step_size_t (op : Op) (v : vec) (en : env)
  : Res unit (vec * env) :=
  match op with
  | OpResize n => Resize_size_t n v en
  | OpReserve n => Reserve_size_t n v en
  | _ => step op v en
  end.

(** [~Vector()] followed by the destructor of the member [data_], for a
    region obtained with any count. *)
Definition Vector_delete_size_t (v : vec) (en : env) : Res unit env :=
  match destroy_n (cells_ (data_ v)) 0 (size_ v) en with
  | Some (c, en1) => Ok () (RawMemory_delete_size_t (set_cells c (data_ v)) en1)
  | None => Abort UndefinedBehaviour
  end.

(** [run] and [scope], for any counts. *)
Fixpoint run_size_t (prog : list Op) (v : vec) (en : env)
  : Res unit (vec * env) :=
  match prog with
  | [] => Ok () (v, en)
  | op :: prog' =>
      match step_size_t op v en with
      | Ok _ (v', en') => run_size_t prog' v' en'
      | r => r
      end
  end.

Definition scope_size_t (size : nat) (prog : list Op) (en : env)
  : Res unit env :=
  match Vector_sized_size_t size en with
  | Ok v en1 =>
      match run_size_t prog v en1 with
      | Ok _ (v', en2) => Vector_delete_size_t v' en2
      | Throw (v', en2) =>
          match Vector_delete_size_t v' en2 with
          | Ok _ en3 => Throw en3
          | r => r
          end
      | Abort r => Abort r
      end
  | Throw en1 => Throw en1
  | Abort r => Abort r
  end.

(** The count an operation takes from its caller is representable. *)
Definition op_representable (op : Op) : Prop :=
  match op with
  | OpResize n | OpReserve n => representable n
  | _ => True
  end.

(** *** Element types whose operations do not raise *)

(** No constructor and no assignment of [T] raises, whatever the state of
    the element type. *)
Definition never_raises : Prop :=
  (∀ a e, is_Some (construct a e).1) ∧
  (∀ e, is_Some (default_ctor e).1) ∧
  (∀ x e, (copy_ctor x e).1 = true) ∧
  (∀ x e, (move_ctor x e).1 = true) ∧
  (∀ y x e, (copy_assign y x e).1 = true) ∧
  (∀ y x e, (move_assign y x e).1 = true).

(** A run that did not let a failure out and did not end in
    [std::terminate]: it returned, unless it left defined behaviour. *)
Definition unfailing {R S} (r : Res R S) : Prop :=
  match r with
  | Ok _ _ => True
  | Throw _ => False
  | Abort r => r = UndefinedBehaviour
  end.

(** ** Facts about the algorithms *)

Ltac split_pairs :=
  repeat match goal with
  | p : (_ * _)%type |- _ => destruct p
  | u : unit |- _ => destruct u
  end.
Ltac cases := repeat case_match; split_pairs; simplify_eq/=.

(** *** No algorithm changes the number of slots of a region *)

Lemma destroy_n_length (c : Cells) f n en c' en' :
  destroy_n c f n en = Some (c', en') → length c' = length c.
Proof.
  revert c f en. induction n as [|n IH]; intros c f en; simpl.
  - intros [= <- _]; done.
  - repeat case_match; try done.
    intros Hd%IH. by rewrite length_insert in Hd.
Qed.

Lemma destroy_at_length (c : Cells) i en c' en' :
  destroy_at c i en = Some (c', en') → length c' = length c.
Proof.
  unfold destroy_at. repeat case_match; try done.
  intros [= <- _]. by rewrite length_insert.
Qed.

Lemma copy_loop_length (src : Cells) s n dst d en :
  same_length (λ st, st.1.2) dst (copy_loop src s n dst d en).
Proof.
  revert s dst d en. induction n as [|n IH]; intros s dst d en; simpl.
  - done.
  - repeat case_match; try done.
    match goal with |- context [copy_loop ?a ?b n ?c ?e ?f] =>
      specialize (IH b c e f) end.
    unfold same_length in *. repeat case_match; simplify_eq/=;
      by rewrite ?length_insert in IH.
Qed.

Lemma uninitialized_copy_n_length (src : Cells) s n dst d en :
  same_length fst dst (uninitialized_copy_n src s n dst d en).
Proof.
  unfold uninitialized_copy_n.
  pose proof (copy_loop_length src s n dst d en) as Hl.
  unfold same_length in *. cases; try done.
  match goal with Hd : destroy_n _ _ _ _ = Some _ |- _ =>
    apply destroy_n_length in Hd end. congruence.
Qed.

Lemma move_loop_length (src : Cells) s n dst d en :
  same_length (λ st, st.1.2) dst (move_loop src s n dst d en) ∧
  same_length (λ st, st.1.1.2) src (move_loop src s n dst d en).
Proof.
  revert src s dst d en. induction n as [|n IH]; intros src s dst d en; simpl.
  - done.
  - repeat case_match; try done.
    match goal with |- context [move_loop ?a ?b n ?c ?e ?f] =>
      specialize (IH a b c e f) end.
    unfold same_length in *. repeat case_match; simplify_eq/=;
      by rewrite ?length_insert in IH.
Qed.

Lemma uninitialized_move_n_length (src : Cells) s n dst d en :
  same_length (λ st, st.1.2) dst (uninitialized_move_n src s n dst d en) ∧
  same_length (λ st, st.1.1) src (uninitialized_move_n src s n dst d en).
Proof.
  unfold uninitialized_move_n.
  pose proof (move_loop_length src s n dst d en) as [Hd Hs].
  unfold same_length in *. cases; try done.
  match goal with Hx : destroy_n _ _ _ _ = Some _ |- _ =>
    apply destroy_n_length in Hx end. split; congruence.
Qed.

Lemma relocate_n_length (src : Cells) s n dst d en :
  same_length (λ st, st.1.2) dst (relocate_n src s n dst d en) ∧
  same_length (λ st, st.1.1) src (relocate_n src s n dst d en).
Proof.
  unfold relocate_n. destruct relocate_by_move.
  - apply uninitialized_move_n_length.
  - pose proof (uninitialized_copy_n_length src s n dst d en) as Hl.
    unfold same_length in *. repeat case_match; simplify_eq/=; done.
Qed.

Lemma value_loop_length (dst : Cells) d n en :
  same_length (λ st, st.1.2) dst (value_loop dst d n en).
Proof.
  revert dst d en. induction n as [|n IH]; intros dst d en; simpl.
  - done.
  - repeat case_match; try done.
    match goal with |- context [value_loop ?a ?b n ?c] =>
      specialize (IH a b c) end.
    unfold same_length in *. cases; by rewrite ?length_insert in IH.
Qed.

Lemma uninitialized_value_construct_n_length (dst : Cells) d n en :
  same_length fst dst (uninitialized_value_construct_n dst d n en).
Proof.
  unfold uninitialized_value_construct_n.
  pose proof (value_loop_length dst d n en) as Hl.
  unfold same_length in *. cases; try done.
  match goal with Hd : destroy_n _ _ _ _ = Some _ |- _ =>
    apply destroy_n_length in Hd end. congruence.
Qed.

Lemma construct_at_length (c : Cells) i a en :
  same_length fst c (construct_at c i a en).
Proof.
  unfold construct_at, same_length. cases; by rewrite ?length_insert.
Qed.

Lemma std_copy_length (src : Cells) s n dst d en :
  same_length fst dst (std_copy src s n dst d en).
Proof.
  revert s dst d en. induction n as [|n IH]; intros s dst d en; simpl.
  - done.
  - repeat case_match; try done.
    match goal with |- context [std_copy ?a ?b n ?c ?e ?f] =>
      specialize (IH b c e f) end.
    unfold same_length in *. cases; by rewrite ?length_insert in IH.
Qed.

Lemma move_assign_at_length (c : Cells) f d en :
  same_length fst c (move_assign_at c f d en).
Proof.
  unfold move_assign_at, same_length. cases; by rewrite ?length_insert.
Qed.

Lemma std_move_length (c : Cells) f n d en :
  same_length fst c (std_move c f n d en).
Proof.
  revert c f d en. induction n as [|n IH]; intros c f d en; simpl.
  - done.
  - pose proof (move_assign_at_length c f d en) as Hl.
    destruct (move_assign_at c f d en) as [[] [c1 en1]|[c1 en1]|]; try done.
    specialize (IH c1 (S f) (S d) en1).
    unfold same_length in *. cases; congruence.
Qed.

Lemma std_move_backward_length (c : Cells) l n dl en :
  same_length fst c (std_move_backward c l n dl en).
Proof.
  revert c l dl en. induction n as [|n IH]; intros c l dl en; simpl.
  - done.
  - destruct l as [|l], dl as [|dl]; try done.
    pose proof (move_assign_at_length c l dl en) as Hl.
    destruct (move_assign_at c l dl en) as [[] [c1 en1]|[c1 en1]|]; try done.
    specialize (IH c1 l dl en1).
    unfold same_length in *. cases; congruence.
Qed.

Lemma grow_prefix_length (oc : Cells) offset nc en :
  same_length (λ st, st.1.2) nc (grow_prefix oc offset nc en) ∧
  same_length (λ st, st.1.1) oc (grow_prefix oc offset nc en).
Proof.
  unfold grow_prefix. destruct (0 <? offset); last done.
  pose proof (relocate_n_length oc 0 offset nc 0 en) as [Hd Hs].
  unfold same_length in *. cases; try done.
  match goal with Hx : destroy_at _ _ _ = Some _ |- _ =>
    apply destroy_at_length in Hx end. split; congruence.
Qed.

Lemma grow_suffix_length (oc : Cells) offset size nc en :
  same_length (λ st, st.1.2) nc (grow_suffix oc offset size nc en) ∧
  same_length (λ st, st.1.1) oc (grow_suffix oc offset size nc en).
Proof.
  unfold grow_suffix. destruct (offset <? size); last done.
  pose proof (relocate_n_length oc offset (size - offset) nc (offset + 1) en)
    as [Hd Hs].
  unfold same_length in *. cases; try done.
  match goal with Hx : destroy_n _ _ _ _ = Some _ |- _ =>
    apply destroy_n_length in Hx end. split; congruence.
Qed.

(** *** The structural invariant is kept by every operation *)

Ltac use_len H lem :=
  let Hl := fresh "Hl" in
  pose proof lem as Hl; rewrite H in Hl;
  unfold same_length in Hl; simpl in Hl; clear H.

Ltac len_facts :=
  repeat match goal with
  | H : destroy_n _ _ _ _ = Some _ |- _ => apply destroy_n_length in H
  | H : destroy_at _ _ _ = Some _ |- _ => apply destroy_at_length in H
  | H : relocate_n ?a ?b ?c ?d ?e ?f = _ |- _ =>
      use_len H (relocate_n_length a b c d e f)
  | H : grow_prefix ?a ?b ?c ?d = _ |- _ =>
      use_len H (grow_prefix_length a b c d)
  | H : grow_suffix ?a ?b ?c ?d ?e = _ |- _ =>
      use_len H (grow_suffix_length a b c d e)
  | H : uninitialized_copy_n ?a ?b ?c ?d ?e ?f = _ |- _ =>
      use_len H (uninitialized_copy_n_length a b c d e f)
  | H : uninitialized_value_construct_n ?a ?b ?c ?d = _ |- _ =>
      use_len H (uninitialized_value_construct_n_length a b c d)
  | H : construct_at ?a ?b ?c ?d = _ |- _ =>
      use_len H (construct_at_length a b c d)
  | H : std_copy ?a ?b ?c ?d ?e ?f = _ |- _ =>
      use_len H (std_copy_length a b c d e f)
  | H : std_move ?a ?b ?c ?d ?e = _ |- _ =>
      use_len H (std_move_length a b c d e)
  | H : std_move_backward ?a ?b ?c ?d ?e = _ |- _ =>
      use_len H (std_move_backward_length a b c d e)
  end.

Ltac bool_facts :=
  repeat match goal with
  | H : (_ =? _) = true |- _ => apply Nat.eqb_eq in H
  | H : (_ =? _) = false |- _ => apply Nat.eqb_neq in H
  | H : (_ <? _) = true |- _ => apply Nat.ltb_lt in H
  | H : (_ <? _) = false |- _ => apply Nat.ltb_ge in H
  | H : (_ <=? _) = true |- _ => apply Nat.leb_le in H
  | H : (_ <=? _) = false |- _ => apply Nat.leb_gt in H
  end.

Ltac inv_solve :=
  unfold invariant, region_ok, Size, Capacity, with_cells, with_size,
    set_cells, grown_capacity in *;
  simpl in *; destruct_and?; len_facts; destruct_and?;
  repeat case_match; bool_facts;
  repeat match goal with
  | H : cells_ _ = replicate _ _ |- _ => rewrite H in *; clear H
  end;
  rewrite ?length_insert, ?length_replicate in *;
  try (split; lia).

Lemma RawMemory_new_spec n en m en' :
  RawMemory_new n en = Ok m en' →
  capacity_ m = n ∧ cells_ m = replicate n None.
Proof. unfold RawMemory_new. intros Hm. cases; done. Qed.

Lemma lookup_raw_lt (c : Cells) i x : c !! i = Some x → i < length c.
Proof. apply lookup_lt_Some. Qed.

(** *** The allocation functions agree on representable requests *)

Lemma granted_exact n : representable n → granted n = n.
Proof.
  unfold representable, granted, request_bytes. intros Hn.
  rewrite Z.mod_small by lia.
  rewrite Z.div_mul by lia. apply Nat2Z.id.
Qed.

Lemma Allocate_exact n en :
  representable n → Allocate_size_t n en = Allocate n en.
Proof.
  intros Hn. unfold Allocate_size_t, Allocate. by rewrite granted_exact.
Qed.

Lemma RawMemory_new_exact n en :
  representable n → RawMemory_new_size_t n en = RawMemory_new n en.
Proof.
  intros Hn. unfold RawMemory_new_size_t, RawMemory_new.
  by rewrite Allocate_exact, granted_exact.
Qed.

Lemma RawMemory_delete_exact m en :
  length (cells_ m) = capacity_ m →
  RawMemory_delete_size_t m en = RawMemory_delete m en.
Proof.
  intros Hn. unfold RawMemory_delete_size_t, RawMemory_delete.
  by rewrite Hn.
Qed.

Lemma Vector_sized_exact n en :
  representable n → Vector_sized_size_t n en = Vector_sized n en.
Proof.
  intros Hn. unfold Vector_sized_size_t, Vector_sized.
  rewrite RawMemory_new_exact by done.
  destruct (RawMemory_new n en) as [m en1|en1|] eqn:Hnew; try done.
  apply RawMemory_new_spec in Hnew as [Hcap Hcells].
  destruct (0 <? n); [|done].
  pose proof (uninitialized_value_construct_n_length (cells_ m) 0 n en1)
    as Hl.
  destruct (uninitialized_value_construct_n _ _ _ en1)
    as [[] [c en2]|[c en2]|]; try done.
  rewrite RawMemory_delete_exact; [done|].
  unfold same_length in Hl. simpl in *.
  by rewrite Hl, Hcells, length_replicate.
Qed.

Lemma Reserve_exact n v en :
  representable n → region_ok v →
  Reserve_size_t n v en = Reserve n v en.
Proof.
  intros Hn Hv. unfold Reserve_size_t, Reserve, region_ok in *.
  destruct (n <=? capacity_ (data_ v)); [done|].
  rewrite RawMemory_new_exact by done.
  destruct (RawMemory_new n en) as [m en1|en1|] eqn:Hnew; try done.
  apply RawMemory_new_spec in Hnew as [Hcap Hcells].
  assert (∀ oc nc en2,
    (if 0 <? size_ v
     then relocate_n (cells_ (data_ v)) 0 (size_ v) (cells_ m) 0 en1
     else Ok () (cells_ (data_ v), cells_ m, en1)) = Ok () (oc, nc, en2) ∨
    (if 0 <? size_ v
     then relocate_n (cells_ (data_ v)) 0 (size_ v) (cells_ m) 0 en1
     else Ok () (cells_ (data_ v), cells_ m, en1)) = Throw (oc, nc, en2) →
    length oc = capacity_ (data_ v) ∧ length nc = capacity_ m) as Hlen.
  { intros oc nc en2 Hr. destruct (0 <? size_ v).
    - pose proof (relocate_n_length (cells_ (data_ v)) 0 (size_ v)
                    (cells_ m) 0 en1) as [Hd Hs].
      unfold same_length in *.
      destruct Hr as [Hr|Hr]; rewrite Hr in Hd, Hs; simpl in *;
        rewrite Hd, Hs, Hcells, length_replicate; done.
    - destruct Hr as [Hr|Hr]; simplify_eq.
      by rewrite Hcells, length_replicate. }
  destruct (if 0 <? size_ v then _ else _)
    as [[] [[oc nc] en2]|[[oc nc] en2]|]; try done.
  - destruct (Hlen oc nc en2 (or_introl eq_refl)) as [Hoc _].
    destruct (destroy_n oc 0 (size_ v) en2) as [[oc' en3]|] eqn:Hd; [|done].
    apply destroy_n_length in Hd.
    rewrite RawMemory_delete_exact; [done|]. simpl. congruence.
  - destruct (Hlen oc nc en2 (or_intror eq_refl)) as [_ Hnc].
    by rewrite RawMemory_delete_exact.
Qed.

(** Without any assumption on the vector the two leave the same vector. *)
Lemma Reserve_exact_final n v en :
  representable n →
  match Reserve_size_t n v en, Reserve n v en with
  | Ok _ (v1, _), Ok _ (v2, _) | Throw (v1, _), Throw (v2, _) => v1 = v2
  | Abort r1, Abort r2 => r1 = r2
  | _, _ => False
  end.
Proof.
  intros Hn. unfold Reserve_size_t, Reserve.
  destruct (n <=? capacity_ (data_ v)); [done|].
  rewrite RawMemory_new_exact by done.
  destruct (RawMemory_new n en) as [m en1|en1|]; try done.
  destruct (if 0 <? size_ v then _ else _) as [[] [[oc nc] en2]|[[oc nc] en2]|];
    try done.
  by destruct (destroy_n oc 0 (size_ v) en2) as [[oc' en3]|].
Qed.

Lemma Resize_exact n v en :
  (Capacity v < n → representable n) → region_ok v →
  Resize_size_t n v en = Resize n v en.
Proof.
  intros Hn Hv. unfold Resize_size_t, Resize.
  destruct (n <? size_ v); [done|].
  destruct (size_ v <? n); [|done].
  destruct (decide (Capacity v < n)) as [Hbig|Hfit].
  - by rewrite Reserve_exact by auto.
  - unfold Reserve_size_t, Reserve, Capacity in *.
    assert ((n <=? capacity_ (data_ v)) = true) as ->
      by (apply Nat.leb_le; lia).
    done.
Qed.

Lemma step_exact op v en :
  op_representable op → region_ok v →
  step_size_t op v en = step op v en.
Proof.
  intros Hop Hv. destruct op; simpl in *; try done.
  - by apply Resize_exact.
  - by apply Reserve_exact.
Qed.

(** *** Element types whose operations do not raise: every algorithm
    returns *)

Lemma do_copy_never x en : never_raises → (do_copy x en).1 = true.
Proof.
  intros (_ & _ & Hc & _). unfold do_copy. specialize (Hc x (elem_ en)).
  destruct (copy_ctor x (elem_ en)) as [ok e]. simpl in *. by subst.
Qed.

Lemma do_move_never x en : never_raises → ∃ en', do_move x en = Ok () en'.
Proof.
  intros (_ & _ & _ & Hm & _). unfold do_move. specialize (Hm x (elem_ en)).
  destruct (move_ctor x (elem_ en)) as [ok e]. simpl in *. subst.
  by eexists.
Qed.

Lemma do_default_never en : never_raises → is_Some (do_default en).1.
Proof.
  intros (_ & Hd & _). unfold do_default. specialize (Hd (elem_ en)).
  destruct (default_ctor (elem_ en)) as [[x|] e]; simpl in *; [done|].
  by destruct Hd.
Qed.

Lemma do_copy_assign_never y x en :
  never_raises → (do_copy_assign y x en).1 = true.
Proof.
  intros (_ & _ & _ & _ & Hc & _). unfold do_copy_assign.
  specialize (Hc y x (elem_ en)).
  destruct (copy_assign y x (elem_ en)) as [ok e]. simpl in *. by subst.
Qed.

Lemma do_move_assign_never y x en :
  never_raises → (do_move_assign y x en).1 = true.
Proof.
  intros (_ & _ & _ & _ & _ & Hm). unfold do_move_assign.
  specialize (Hm y x (elem_ en)).
  destruct (move_assign y x (elem_ en)) as [ok e]. simpl in *. by subst.
Qed.

Lemma do_construct_never a en :
  never_raises → ∃ x en', do_construct a en = Ok x en'.
Proof.
  intros Hnr. unfold do_construct. destruct a as [a|x|x].
  - destruct Hnr as (Hc & _). specialize (Hc a (elem_ en)).
    destruct (construct a (elem_ en)) as [[x|] e]; simpl in *;
      [by eexists _, _ | by destruct Hc].
  - pose proof (do_copy_never x en Hnr) as Hc.
    destruct (do_copy x en) as [ok en1]. simpl in Hc. subst.
    by eexists _, _.
  - destruct (do_move_never x en Hnr) as (en1 & ->). by eexists _, _.
Qed.

Lemma copy_loop_unfailing (src : Cells) s n dst d en :
  never_raises → unfailing (copy_loop src s n dst d en).
Proof.
  intros Hnr. revert s dst d en.
  induction n as [|n IH]; intros s dst d en; simpl; [done|].
  destruct (src !! s) as [[x|]|]; try done.
  destruct (dst !! d) as [[y|]|]; try done.
  pose proof (do_copy_never x en Hnr) as Hc.
  destruct (do_copy x en) as [ok en1]. simpl in Hc. subst. apply IH.
Qed.

Lemma uninitialized_copy_n_unfailing (src : Cells) s n dst d en :
  never_raises → unfailing (uninitialized_copy_n src s n dst d en).
Proof.
  intros Hnr. unfold uninitialized_copy_n.
  pose proof (copy_loop_unfailing src s n dst d en Hnr) as Hl.
  by destruct (copy_loop src s n dst d en) as [[] [[? ?] ?]|[[? ?] ?]|].
Qed.

Lemma move_loop_unfailing (src : Cells) s n dst d en :
  never_raises → unfailing (move_loop src s n dst d en).
Proof.
  intros Hnr. revert src s dst d en.
  induction n as [|n IH]; intros src s dst d en; simpl; [done|].
  destruct (src !! s) as [[x|]|]; try done.
  destruct (dst !! d) as [[y|]|]; try done.
  destruct (do_move_never x en Hnr) as (en1 & ->). apply IH.
Qed.

Lemma uninitialized_move_n_unfailing (src : Cells) s n dst d en :
  never_raises → unfailing (uninitialized_move_n src s n dst d en).
Proof.
  intros Hnr. unfold uninitialized_move_n.
  pose proof (move_loop_unfailing src s n dst d en Hnr) as Hl.
  by destruct (move_loop src s n dst d en) as [[] [[[? ?] ?] ?]|[[[? ?] ?] ?]|].
Qed.

Lemma relocate_n_unfailing (src : Cells) s n dst d en :
  never_raises → unfailing (relocate_n src s n dst d en).
Proof.
  intros Hnr. unfold relocate_n. destruct relocate_by_move.
  - by apply uninitialized_move_n_unfailing.
  - pose proof (uninitialized_copy_n_unfailing src s n dst d en Hnr) as Hl.
    by destruct (uninitialized_copy_n src s n dst d en) as [[] [? ?]|[? ?]|].
Qed.

Lemma value_loop_unfailing (dst : Cells) d n en :
  never_raises → unfailing (value_loop dst d n en).
Proof.
  intros Hnr. revert dst d en.
  induction n as [|n IH]; intros dst d en; simpl; [done|].
  destruct (dst !! d) as [[y|]|]; try done.
  pose proof (do_default_never en Hnr) as Hd.
  destruct (do_default en) as [[x|] en1]; simpl in Hd;
    [apply IH | by destruct Hd].
Qed.

Lemma uninitialized_value_construct_n_unfailing (dst : Cells) d n en :
  never_raises → unfailing (uninitialized_value_construct_n dst d n en).
Proof.
  intros Hnr. unfold uninitialized_value_construct_n.
  pose proof (value_loop_unfailing dst d n en Hnr) as Hl.
  by destruct (value_loop dst d n en) as [[] [[? ?] ?]|[[? ?] ?]|].
Qed.

Lemma construct_at_unfailing (c : Cells) i a en :
  never_raises → unfailing (construct_at c i a en).
Proof.
  intros Hnr. unfold construct_at.
  destruct (c !! i) as [[y|]|]; try done.
  by destruct (do_construct_never a en Hnr) as (x & en1 & ->).
Qed.

Lemma std_copy_unfailing (src : Cells) s n dst d en :
  never_raises → unfailing (std_copy src s n dst d en).
Proof.
  intros Hnr. revert s dst d en.
  induction n as [|n IH]; intros s dst d en; simpl; [done|].
  destruct (src !! s) as [[x|]|]; try done.
  destruct (dst !! d) as [[y|]|]; try done.
  pose proof (do_copy_assign_never y x en Hnr) as Hc.
  destruct (do_copy_assign y x en) as [ok en1]. simpl in Hc. subst. apply IH.
Qed.

Lemma move_assign_at_unfailing (c : Cells) f d en :
  never_raises → unfailing (move_assign_at c f d en).
Proof.
  intros Hnr. unfold move_assign_at.
  destruct (c !! f) as [[x|]|]; try done.
  destruct (c !! d) as [[y|]|]; try done.
  pose proof (do_move_assign_never y x en Hnr) as Hc.
  destruct (do_move_assign y x en) as [ok en1]. simpl in Hc. by subst.
Qed.

Lemma std_move_unfailing (c : Cells) f n d en :
  never_raises → unfailing (std_move c f n d en).
Proof.
  intros Hnr. revert c f d en.
  induction n as [|n IH]; intros c f d en; simpl; [done|].
  pose proof (move_assign_at_unfailing c f d en Hnr) as Hm.
  destruct (move_assign_at c f d en) as [[] [c1 en1]|[c1 en1]|];
    [apply IH | done | done].
Qed.

Lemma std_move_backward_unfailing (c : Cells) last n d_last en :
  never_raises → unfailing (std_move_backward c last n d_last en).
Proof.
  intros Hnr. revert c last d_last en.
  induction n as [|n IH]; intros c last d_last en; simpl; [done|].
  destruct last as [|l]; [done|]. destruct d_last as [|dl]; [done|].
  pose proof (move_assign_at_unfailing c l dl en Hnr) as Hm.
  destruct (move_assign_at c l dl en) as [[] [c1 en1]|[c1 en1]|];
    [apply IH | done | done].
Qed.

Lemma grow_prefix_unfailing (oc : Cells) offset nc en :
  never_raises → unfailing (grow_prefix oc offset nc en).
Proof.
  intros Hnr. unfold grow_prefix. destruct (0 <? offset); [|done].
  pose proof (relocate_n_unfailing oc 0 offset nc 0 en Hnr) as Hr.
  by destruct (relocate_n oc 0 offset nc 0 en) as [[] [[? ?] ?]|[[? ?] ?]|].
Qed.

Lemma grow_suffix_unfailing (oc : Cells) offset size nc en :
  never_raises → unfailing (grow_suffix oc offset size nc en).
Proof.
  intros Hnr. unfold grow_suffix. destruct (offset <? size); [|done].
  pose proof (relocate_n_unfailing oc offset (size - offset) nc (offset + 1)
                en Hnr) as Hr.
  by destruct (relocate_n oc offset (size - offset) nc (offset + 1) en)
    as [[] [[? ?] ?]|[[? ?] ?]|].
Qed.

Lemma RawMemory_new_enough n en :
  n ≤ free_ en → ∃ m en', RawMemory_new n en = Ok m en'.
Proof.
  intros Hn. unfold RawMemory_new, Allocate.
  destruct (n =? 0); [by eexists _, _|].
  apply Nat.leb_le in Hn. rewrite Hn. by eexists _, _.
Qed.

Lemma unfailing_is_ok {R S} (r : Res R S) :
  unfailing r →
  match r with Abort a => a = Terminated | _ => True end →
  is_ok r = true.
Proof. destruct r as [| |a]; simpl; [done | done |]. by intros -> ?. Qed.

Ltac unf_call Hnr :=
  let Hu := fresh "Hu" in
  match goal with
  | |- context [construct_at ?c ?i ?a ?e] =>
      pose proof (construct_at_unfailing c i a e Hnr) as Hu;
      destruct (construct_at c i a e) as [[] [? ?]|[? ?]|]
  | |- context [relocate_n ?a ?b ?c ?d ?f ?e] =>
      pose proof (relocate_n_unfailing a b c d f e Hnr) as Hu;
      destruct (relocate_n a b c d f e) as [[] [[? ?] ?]|[[? ?] ?]|]
  | |- context [grow_prefix ?a ?b ?c ?e] =>
      pose proof (grow_prefix_unfailing a b c e Hnr) as Hu;
      destruct (grow_prefix a b c e) as [[] [[? ?] ?]|[[? ?] ?]|]
  | |- context [grow_suffix ?a ?b ?c ?d ?e] =>
      pose proof (grow_suffix_unfailing a b c d e Hnr) as Hu;
      destruct (grow_suffix a b c d e) as [[] [[? ?] ?]|[[? ?] ?]|]
  | |- context [uninitialized_copy_n ?a ?b ?c ?d ?f ?e] =>
      pose proof (uninitialized_copy_n_unfailing a b c d f e Hnr) as Hu;
      destruct (uninitialized_copy_n a b c d f e) as [[] [? ?]|[? ?]|]
  | |- context [uninitialized_value_construct_n ?a ?b ?c ?e] =>
      pose proof (uninitialized_value_construct_n_unfailing a b c e Hnr)
        as Hu;
      destruct (uninitialized_value_construct_n a b c e)
        as [[] [? ?]|[? ?]|]
  | |- context [std_copy ?a ?b ?c ?d ?f ?e] =>
      pose proof (std_copy_unfailing a b c d f e Hnr) as Hu;
      destruct (std_copy a b c d f e) as [[] [? ?]|[? ?]|]
  | |- context [std_move_backward ?a ?b ?c ?d ?e] =>
      pose proof (std_move_backward_unfailing a b c d e Hnr) as Hu;
      destruct (std_move_backward a b c d e) as [[] [? ?]|[? ?]|]
  | |- context [std_move ?a ?b ?c ?d ?e] =>
      pose proof (std_move_unfailing a b c d e Hnr) as Hu;
      destruct (std_move a b c d e) as [[] [? ?]|[? ?]|]
  | |- context [destroy_n ?a ?b ?c ?e] =>
      destruct (destroy_n a b c e) as [[? ?]|]
  | |- context [destroy_at ?a ?b ?e] =>
      destruct (destroy_at a b e) as [[? ?]|]
  end; simpl in *; try done.

Lemma EmplaceBack_unfailing a v en :
  never_raises →
  (size_ v = Capacity v → grown_capacity (size_ v) ≤ free_ en) →
  unfailing (EmplaceBack a v en).
Proof.
  intros Hnr Hmem. unfold EmplaceBack.
  destruct (size_ v =? Capacity v) eqn:Hfull.
  - apply Nat.eqb_eq in Hfull.
    destruct (RawMemory_new_enough _ en (Hmem Hfull)) as (m & en1 & ->).
    repeat unf_call Hnr.
  - repeat unf_call Hnr.
Qed.

Lemma Emplace_grow_unfailing offset a v en :
  never_raises → grown_capacity (size_ v) ≤ free_ en →
  unfailing (Emplace_grow offset a v en).
Proof.
  intros Hnr Hmem. unfold Emplace_grow.
  destruct (RawMemory_new_enough _ en Hmem) as (m & en1 & ->).
  repeat unf_call Hnr.
Qed.

Lemma Emplace_shift_unfailing offset a v en :
  never_raises → unfailing (Emplace_shift offset a v en).
Proof.
  intros Hnr. unfold Emplace_shift.
  destruct (do_construct_never a en Hnr) as (temp & en1 & ->).
  destruct (size_ v) as [|k]; [done|].
  destruct (cells_ (data_ v) !! (S k - 1)) as [[x|]|]; try done.
  destruct (cells_ (data_ v) !! S k) as [[|]|]; try done.
  destruct (do_move_never x en1 Hnr) as (en2 & ->).
  unf_call Hnr.
  destruct (l !! offset) as [[y|]|]; try done.
  pose proof (do_move_assign_never y temp e Hnr) as Hma.
  destruct (do_move_assign y temp e) as [ok en4]. simpl in Hma. by subst.
Qed.

Lemma Emplace_unfailing offset a v en :
  never_raises →
  (size_ v = Capacity v → grown_capacity (size_ v) ≤ free_ en) →
  unfailing (Emplace offset a v en).
Proof.
  intros Hnr Hmem. unfold Emplace.
  destruct (size_ v <? offset); [done|].
  destruct (size_ v =? Capacity v) eqn:Hfull.
  { apply Nat.eqb_eq in Hfull. by apply Emplace_grow_unfailing, Hmem. }
  destruct (offset =? size_ v); [|by apply Emplace_shift_unfailing].
  pose proof (EmplaceBack_unfailing a v en Hnr Hmem) as Hb.
  by destruct (EmplaceBack a v en) as [? [? ?]|[? ?]|].
Qed.

Lemma Reserve_unfailing n v en :
  never_raises → (Capacity v < n → n ≤ free_ en) →
  unfailing (Reserve n v en).
Proof.
  intros Hnr Hmem. unfold Reserve.
  destruct (n <=? capacity_ (data_ v)) eqn:Hle; [done|].
  apply Nat.leb_gt in Hle.
  destruct (RawMemory_new_enough n en (Hmem Hle)) as (m & en1 & ->).
  destruct (0 <? size_ v); repeat unf_call Hnr.
Qed.

Lemma Vector_copy_unfailing other en :
  never_raises → size_ other ≤ free_ en →
  unfailing (Vector_copy other en).
Proof.
  intros Hnr Hmem. unfold Vector_copy.
  destruct (RawMemory_new_enough _ en Hmem) as (m & en1 & ->).
  destruct (0 <? size_ other); [|done]. repeat unf_call Hnr.
Qed.

Lemma AssignFrom_unfailing other this en :
  never_raises → unfailing (AssignFrom other this en).
Proof.
  intros Hnr. unfold AssignFrom. unf_call Hnr.
  destruct (size_ this <? size_ other); [by repeat unf_call Hnr|].
  destruct (size_ other <? size_ this); [by repeat unf_call Hnr|done].
Qed.

Lemma copy_assign_distinct_unfailing rhs this en :
  never_raises → (Capacity this < size_ rhs → size_ rhs ≤ free_ en) →
  unfailing (copy_assign_distinct rhs this en).
Proof.
  intros Hnr Hmem. unfold copy_assign_distinct.
  destruct (Capacity this <? size_ rhs) eqn:Hbig;
    [|by apply AssignFrom_unfailing].
  apply Nat.ltb_lt in Hbig.
  pose proof (Vector_copy_unfailing rhs en Hnr (Hmem Hbig)) as Hc.
  destruct (Vector_copy rhs en) as [c en1|en1|]; [|done|done].
  unfold Swap, Vector_delete. by unf_call Hnr.
Qed.




Lemma EmplaceBack_invariant a v en v' :
  invariant v → final (EmplaceBack a v en) = Some v' → invariant v'.
Proof.
  intros Hv Hf. unfold EmplaceBack, final in Hf.
  destruct (size_ v =? Capacity v) eqn:Hfull.
  - apply Nat.eqb_eq in Hfull.
    destruct (RawMemory_new _ en) as [m en1|en1|] eqn:Hnew; last done.
    + apply RawMemory_new_spec in Hnew as [Hcap Hcells].
      cases; inv_solve.
    + by simplify_eq.
  - apply Nat.eqb_neq in Hfull.
    unfold construct_at in Hf. cases; try done.
    all: match goal with H : _ !! _ = Some _ |- _ =>
           apply lookup_raw_lt in H end; inv_solve.
Qed.

Lemma Emplace_grow_invariant offset a v en v' :
  invariant v → size_ v = Capacity v →
  final (Emplace_grow offset a v en) = Some v' → invariant v'.
Proof.
  intros Hv Hfull Hf. unfold Emplace_grow, final in Hf.
  destruct (RawMemory_new _ en) as [m en1|en1|] eqn:Hnew; last done.
  - apply RawMemory_new_spec in Hnew as [Hcap Hcells].
    cases; inv_solve.
  - by simplify_eq.
Qed.

Lemma Emplace_shift_invariant offset a v en v' :
  invariant v →
  final (Emplace_shift offset a v en) = Some v' → invariant v'.
Proof.
  intros Hv Hf. unfold Emplace_shift, final in Hf.
  cases; try done.
  all: repeat match goal with H : cells_ _ !! _ = Some _ |- _ =>
         apply lookup_raw_lt in H end; inv_solve.
Qed.

Lemma Emplace_invariant offset a v en v' :
  invariant v → final (Emplace offset a v en) = Some v' → invariant v'.
Proof.
  intros Hv Hf. unfold Emplace in Hf.
  destruct (size_ v <? offset); first done.
  destruct (size_ v =? Capacity v) eqn:Hfull.
  { apply Nat.eqb_eq in Hfull. by eapply Emplace_grow_invariant. }
  destruct (offset =? size_ v).
  - apply (EmplaceBack_invariant a v en); first done.
    destruct (EmplaceBack a v en) as [?[]|[]|]; done.
  - by eapply Emplace_shift_invariant.
Qed.

Lemma PopBack_invariant v en v' :
  invariant v → final (PopBack v en) = Some v' → invariant v'.
Proof.
  intros Hv Hf. unfold PopBack, final in Hf. cases; inv_solve.
Qed.

Lemma Erase_invariant offset v en v' :
  invariant v → final (Erase offset v en) = Some v' → invariant v'.
Proof.
  intros Hv Hf. unfold Erase, PopBack, final in Hf. cases; inv_solve.
Qed.

Lemma Reserve_invariant n v en v' :
  invariant v → final (Reserve n v en) = Some v' → invariant v'.
Proof.
  intros Hv Hf. unfold Reserve, final in Hf.
  destruct (n <=? capacity_ (data_ v)) eqn:Hn; first by simplify_eq.
  destruct (RawMemory_new n en) as [m en1|en1|] eqn:Hnew; last done.
  - apply RawMemory_new_spec in Hnew as [Hcap Hcells].
    cases; inv_solve.
  - by simplify_eq.
Qed.

Lemma Reserve_capacity n v en v' en' :
  Reserve n v en = Ok () (v', en') → n ≤ Capacity v'.
Proof.
  intros Hf. unfold Reserve in Hf.
  destruct (n <=? capacity_ (data_ v)) eqn:Hn.
  { simplify_eq. by apply Nat.leb_le. }
  destruct (RawMemory_new n en) as [m en1|en1|] eqn:Hnew; try done.
  apply RawMemory_new_spec in Hnew as [Hcap Hcells].
  cases; unfold Capacity; simpl; lia.
Qed.

Lemma Reserve_size n v en r v' en' :
  Reserve n v en = r → (r = Ok () (v', en') ∨ r = Throw (v', en')) →
  size_ v' = size_ v.
Proof.
  intros Hf Hr. unfold Reserve in Hf. destruct Hr; cases; done.
Qed.

Lemma Resize_invariant n v en v' :
  invariant v → final (Resize n v en) = Some v' → invariant v'.
Proof.
  intros Hv Hf. unfold Resize in Hf.
  destruct (n <? size_ v) eqn:Hlt.
  { unfold final in Hf. cases; inv_solve. }
  destruct (size_ v <? n) eqn:Hgt; last by (simpl in Hf; simplify_eq).
  destruct (Reserve n v en) as [[] [v1 en1]|[v1 en1]|] eqn:HR; last done.
  - pose proof (Reserve_capacity _ _ _ _ _ HR) as Hcap.
    assert (invariant v1) as Hv1
      by (apply (Reserve_invariant n v en); [done|by rewrite HR]).
    unfold final in Hf. cases; inv_solve.
  - apply (Reserve_invariant n v en); [done|by rewrite HR].
Qed.

Lemma final_forget {R} (r : Res R (vec * env)) : final (forget r) = final r.
Proof. by destruct r. Qed.

Lemma step_invariant op v en v' :
  invariant v → final (step op v en) = Some v' → invariant v'.
Proof.
  intros Hv. destruct op; simpl; rewrite ?final_forget;
    eauto using Resize_invariant, EmplaceBack_invariant, Emplace_invariant,
      Erase_invariant, PopBack_invariant, Reserve_invariant.
  - unfold PushBack_copy. intros Hf.
    apply (EmplaceBack_invariant (CopyOf value) v en); first done.
    by destruct (EmplaceBack _ v en).
  - unfold PushBack_move. intros Hf.
    apply (EmplaceBack_invariant (MoveOf value) v en); first done.
    by destruct (EmplaceBack _ v en).
Qed.

Lemma Vector_sized_invariant n en v en' :
  Vector_sized n en = Ok v en' → invariant v.
Proof.
  intros Hf. unfold Vector_sized in Hf.
  destruct (RawMemory_new n en) as [m en1|en1|] eqn:Hnew; try done.
  apply RawMemory_new_spec in Hnew as [Hcap Hcells].
  cases; inv_solve.
Qed.

Lemma Vector_copy_invariant other en v en' :
  Vector_copy other en = Ok v en' → invariant v.
Proof.
  intros Hf. unfold Vector_copy in Hf.
  destruct (RawMemory_new _ en) as [m en1|en1|] eqn:Hnew; try done.
  apply RawMemory_new_spec in Hnew as [Hcap Hcells].
  cases; inv_solve.
Qed.

Lemma Vector_default_invariant : invariant Vector_default.
Proof. split; [done | unfold Size, Capacity; simpl; lia]. Qed.

Lemma AssignFrom_invariant other this en v' :
  invariant this → size_ other ≤ Capacity this →
  final (AssignFrom other this en) = Some v' → invariant v'.
Proof.
  intros Hv Hfit Hf. unfold AssignFrom, final in Hf. cases; inv_solve.
Qed.

Lemma copy_assign_distinct_invariant rhs this en v' :
  invariant this →
  final (copy_assign_distinct rhs this en) = Some v' → invariant v'.
Proof.
  intros Hv Hf. unfold copy_assign_distinct in Hf.
  destruct (Capacity this <? size_ rhs) eqn:Hbig.
  - destruct (Vector_copy rhs en) as [c en1|en1|] eqn:Hc; last done.
    + apply Vector_copy_invariant in Hc.
      unfold Swap, final in Hf. cases; done.
    + simpl in Hf. by simplify_eq.
  - apply Nat.ltb_ge in Hbig. by eapply AssignFrom_invariant.
Qed.

Lemma Forall_insert_inv (P : vec → Prop) (st : list vec) i v :
  Forall P st → P v → Forall P (<[i := v]> st).
Proof. intros. by apply Forall_insert. Qed.

Lemma CopyAssign_invariant this rhs st en st' :
  Forall invariant st →
  final_store (CopyAssign this rhs st en) = Some st' → Forall invariant st'.
Proof.
  intros Hst Hf. unfold CopyAssign in Hf.
  destruct (st !! this) as [v|] eqn:Hthis; last done.
  destruct (st !! rhs) as [r|] eqn:Hrhs; last done.
  destruct (this =? rhs); first by (simpl in Hf; simplify_eq).
  pose proof (copy_assign_distinct_invariant r v en) as Hk.
  assert (invariant v) as Hv by (eapply Forall_lookup_1; eauto).
  destruct (copy_assign_distinct r v en) as [[] [v1 en1]|[v1 en1]|];
    simpl in *; simplify_eq; apply Forall_insert_inv; auto.
Qed.

Lemma MoveAssign_invariant this rhs st en st' :
  Forall invariant st →
  final_store (MoveAssign this rhs st en) = Some st' → Forall invariant st'.
Proof.
  intros Hst Hf. unfold MoveAssign, Swap in Hf.
  destruct (st !! this) as [v|] eqn:Hthis; last done.
  destruct (st !! rhs) as [r|] eqn:Hrhs; last done.
  destruct (this =? rhs); simpl in Hf; simplify_eq; first done.
  repeat apply Forall_insert_inv; try done; eapply Forall_lookup_1; eauto.
Qed.

(** *** The algorithms on a region whose live slots are known *)

Lemma lookup_mid {X} (pre : list X) x post :
  (pre ++ x :: post) !! length pre = Some x.
Proof. by apply list_lookup_middle. Qed.

Lemma insert_mid {X} (pre : list X) x y post :
  <[length pre := y]> (pre ++ x :: post) = pre ++ y :: post.
Proof.
  replace (length pre) with (length pre + 0) by lia.
  by rewrite insert_app_r.
Qed.

Lemma logged_refl en : logged en en [].
Proof. unfold logged. by rewrite app_nil_r. Qed.

Lemma logged_trans en en1 en2 a b :
  logged en en1 a → logged en1 en2 b → logged en en2 (a ++ b).
Proof.
  unfold logged. intros (-> & <- & <-) (-> & <- & <-).
  by rewrite app_assoc.
Qed.

Lemma logged_destroy x en : logged en (do_destroy x en) [EvDestroy x].
Proof. done. Qed.

Lemma logged_copy x en ok en' :
  do_copy x en = (ok, en') →
  logged en en' (if ok then [EvCopy x] else []).
Proof.
  unfold do_copy, logged. intros Hc. cases; simpl; by rewrite ?app_nil_r.
Qed.

Lemma logged_move x en en' :
  do_move x en = Ok () en' → logged en en' [EvMove x].
Proof. unfold do_move, logged. intros Hc. cases; done. Qed.

Lemma logged_move_throw x en en' :
  do_move x en = Throw en' → logged en en' [] ∧ nothrow_move = false.
Proof.
  unfold do_move, logged. intros Hc. cases; simpl; by rewrite ?app_nil_r.
Qed.

Lemma destroy_n_live (pre : Cells) ys post en :
  ∃ en', destroy_n (pre ++ map Some ys ++ post) (length pre) (length ys) en
           = Some (pre ++ replicate (length ys) None ++ post, en') ∧
         logged en en' (map EvDestroy ys).
Proof.
  revert pre en. induction ys as [|y ys IH]; intros pre en; simpl.
  - eexists; split; [done | apply logged_refl].
  - rewrite lookup_mid, insert_mid.
    destruct (IH (pre ++ [None]) (do_destroy y en)) as (en' & Hd & Hl).
    rewrite length_app, Nat.add_1_r, <- !app_assoc in Hd. simpl in Hd.
    eexists; split; first exact Hd.
    apply (logged_trans en (do_destroy y en) en' [EvDestroy y]);
      [apply logged_destroy | done].
Qed.

Lemma copy_loop_live (spre : Cells) xs spost (pre : Cells) k post en :
  length xs ≤ k →
  match copy_loop (spre ++ map Some xs ++ spost) (length spre) (length xs)
                  (pre ++ replicate k None ++ post) (length pre) en with
  | Ok _ (cur, dst', en') =>
      dst' = pre ++ map Some xs ++ replicate (k - length xs) None ++ post ∧
      logged en en' (map EvCopy xs)
  | Throw (cur, dst', en') =>
      ∃ j, j < length xs ∧ cur = length pre + j ∧
           dst' = pre ++ map Some (take j xs) ++ replicate (k - j) None ++ post ∧
           logged en en' (map EvCopy (take j xs))
  | Abort _ => False
  end.
Proof.
  revert spre pre k en.
  induction xs as [|x xs IH]; intros spre pre k en Hk; simpl.
  - rewrite Nat.sub_0_r. split; [done | apply logged_refl].
  - destruct k as [|k]; simpl in Hk; first lia. simpl.
    rewrite !lookup_mid.
    destruct (do_copy x en) as [ok en1] eqn:Hc.
    apply logged_copy in Hc. destruct ok.
    + rewrite insert_mid.
      specialize (IH (spre ++ [Some x]) (pre ++ [Some x]) k en1).
      rewrite !length_app, !Nat.add_1_r, <- !app_assoc in IH. simpl in IH.
      specialize (IH ltac:(lia)).
      destruct (copy_loop _ _ _ _ _ en1) as [[] [[cur c] en2]|[[cur c] en2]|];
        last done.
      * destruct IH as [-> Hl]. split; first done.
        exact (logged_trans en en1 en2 [EvCopy x] _ Hc Hl).
      * destruct IH as (j & Hj & -> & -> & Hl).
        exists (S j).
        split_and!; [simpl; lia | lia | by rewrite <- app_assoc |].
        exact (logged_trans en en1 en2 [EvCopy x] _ Hc Hl).
    + exists 0. split_and!; [lia | lia | done | done].
Qed.

Lemma uninitialized_copy_n_live (spre : Cells) xs spost (pre : Cells) k
    post en :
  length xs ≤ k →
  match uninitialized_copy_n (spre ++ map Some xs ++ spost) (length spre)
          (length xs) (pre ++ replicate k None ++ post) (length pre) en with
  | Ok _ (dst', en') =>
      dst' = pre ++ map Some xs ++ replicate (k - length xs) None ++ post ∧
      logged en en' (map EvCopy xs)
  | Throw (dst', en') =>
      dst' = pre ++ replicate k None ++ post ∧
      ∃ j, j < length xs ∧
           logged en en' (map EvCopy (take j xs) ++ map EvDestroy (take j xs))
  | Abort _ => False
  end.
Proof.
  intros Hk. unfold uninitialized_copy_n.
  pose proof (copy_loop_live spre xs spost pre k post en Hk) as Hl.
  destruct (copy_loop _ _ _ _ _ en) as [[] [[cur c] en1]|[[cur c] en1]|];
    [done| |done].
  destruct Hl as (j & Hj & -> & -> & Hl).
  replace (length pre + j - length pre) with (length (take j xs))
    by (rewrite length_take; lia).
  destruct (destroy_n_live pre (take j xs)
              (replicate (k - j) None ++ post) en1) as (en2 & -> & Hd).
  split.
  - rewrite length_take, (app_assoc (replicate _ _)), <- replicate_add.
    do 3 f_equal. lia.
  - exists j. split; first done. by eapply logged_trans.
Qed.

Lemma do_move_abort x en r :
  do_move x en = Abort r → r = Terminated ∧ nothrow_move = true.
Proof. unfold do_move. intros Hm. cases; done. Qed.

Lemma move_loop_live (spre : Cells) xs spost (pre : Cells) k post en :
  length xs ≤ k →
  match move_loop (spre ++ map Some xs ++ spost) (length spre) (length xs)
                  (pre ++ replicate k None ++ post) (length pre) en with
  | Ok _ (cur, src', dst', en') =>
      src' = spre ++ map Some (map moved_from xs) ++ spost ∧
      dst' = pre ++ map Some xs ++ replicate (k - length xs) None ++ post ∧
      logged en en' (map EvMove xs)
  | Throw (cur, src', dst', en') =>
      ∃ j, j < length xs ∧ cur = length pre + j ∧
           src' = spre ++ map Some (map moved_from (take j xs) ++ drop j xs)
                       ++ spost ∧
           dst' = pre ++ map Some (take j xs) ++ replicate (k - j) None ++ post ∧
           logged en en' (map EvMove (take j xs)) ∧
           nothrow_move = false
  | Abort r => r = Terminated ∧ nothrow_move = true
  end.
Proof.
  revert spre pre k en.
  induction xs as [|x xs IH]; intros spre pre k en Hk; simpl.
  - rewrite Nat.sub_0_r. split_and!; [done | done | apply logged_refl].
  - destruct k as [|k]; simpl in Hk; first lia. simpl.
    rewrite !lookup_mid.
    destruct (do_move x en) as [[] en1|en1|r] eqn:Hc.
    + apply logged_move in Hc. rewrite !insert_mid.
      specialize (IH (spre ++ [Some (moved_from x)]) (pre ++ [Some x]) k en1).
      rewrite !length_app, !Nat.add_1_r, <- !app_assoc in IH. simpl in IH.
      specialize (IH ltac:(lia)).
      destruct (move_loop _ _ _ _ _ en1)
        as [[] [[[cur sc] c] en2]|[[[cur sc] c] en2]|]; last done.
      * destruct IH as (-> & -> & Hl). split_and!; [done | done |].
        exact (logged_trans en en1 en2 [EvMove x] _ Hc Hl).
      * destruct IH as (j & Hj & -> & -> & -> & Hl & Hnm).
        exists (S j).
        split_and!; [simpl; lia | lia | by rewrite <- app_assoc
                    | by rewrite <- app_assoc | | done].
        exact (logged_trans en en1 en2 [EvMove x] _ Hc Hl).
    + apply logged_move_throw in Hc as [Hc Hnm].
      exists 0. split_and!; [lia | lia | done | done | done | done].
    + by apply do_move_abort in Hc.
Qed.

Lemma uninitialized_move_n_live (spre : Cells) xs spost (pre : Cells) k
    post en :
  length xs ≤ k →
  match uninitialized_move_n (spre ++ map Some xs ++ spost) (length spre)
          (length xs) (pre ++ replicate k None ++ post) (length pre) en with
  | Ok _ (src', dst', en') =>
      src' = spre ++ map Some (map moved_from xs) ++ spost ∧
      dst' = pre ++ map Some xs ++ replicate (k - length xs) None ++ post ∧
      logged en en' (map EvMove xs)
  | Throw (src', dst', en') =>
      dst' = pre ++ replicate k None ++ post ∧
      nothrow_move = false ∧
      ∃ j, j < length xs ∧
           src' = spre ++ map Some (map moved_from (take j xs) ++ drop j xs)
                       ++ spost ∧
           logged en en' (map EvMove (take j xs) ++ map EvDestroy (take j xs))
  | Abort r => r = Terminated ∧ nothrow_move = true
  end.
Proof.
  intros Hk. unfold uninitialized_move_n.
  pose proof (move_loop_live spre xs spost pre k post en Hk) as Hl.
  destruct (move_loop _ _ _ _ _ en)
    as [[] [[[cur sc] c] en1]|[[[cur sc] c] en1]|]; [done| |done].
  destruct Hl as (j & Hj & -> & -> & -> & Hl & Hnm).
  replace (length pre + j - length pre) with (length (take j xs))
    by (rewrite length_take; lia).
  destruct (destroy_n_live pre (take j xs)
              (replicate (k - j) None ++ post) en1) as (en2 & -> & Hd).
  split_and!; [|done|].
  - rewrite length_take, (app_assoc (replicate _ _)), <- replicate_add.
    do 3 f_equal. lia.
  - exists j. split_and!; [done | done | by eapply logged_trans].
Qed.

(** *** A raise during relocation *)

Lemma do_move_nothrow x en :
  nothrow_move = true → is_throw (do_move x en) = false.
Proof. unfold do_move. intros ->. cases; done. Qed.

Lemma move_loop_nothrow (src : Cells) s n dst d en :
  nothrow_move = true → is_throw (move_loop src s n dst d en) = false.
Proof.
  intros Hnm. revert src s dst d en.
  induction n as [|n IH]; intros src s dst d en; simpl; first done.
  repeat case_match; try done; try apply IH.
  match goal with H : do_move ?x ?e = Throw _ |- _ =>
    pose proof (do_move_nothrow x e Hnm) as Hx;
    revert Hx; rewrite H end. done.
Qed.

Lemma uninitialized_move_n_nothrow (src : Cells) s n dst d en :
  nothrow_move = true →
  is_throw (uninitialized_move_n src s n dst d en) = false.
Proof.
  intros Hnm. unfold uninitialized_move_n.
  pose proof (move_loop_nothrow src s n dst d en Hnm) as Hl.
  destruct (move_loop src s n dst d en)
    as [[] [[[? ?] ?] ?]|[[[? ?] ?] ?]|]; done.
Qed.

(** A relocation that raises has left the old slots as they were, for the
    element types of [relocation_is_safe]. *)
Lemma relocate_n_throw (src : Cells) s n dst d en src' dst' en' :
  relocation_is_safe = true →
  relocate_n src s n dst d en = Throw (src', dst', en') → src' = src.
Proof.
  intros Hsafe Hr. unfold relocate_n, relocate_by_move in Hr.
  unfold relocation_is_safe in Hsafe.
  destruct nothrow_move eqn:Hnm; simpl in *.
  - pose proof (uninitialized_move_n_nothrow src s n dst d en Hnm) as Hx.
    by rewrite Hr in Hx.
  - rewrite Hsafe in Hr. simpl in Hr. cases; done.
Qed.

Lemma with_cells_same (v : vec) : with_cells (cells_ (data_ v)) v = v.
Proof. by destruct v as [[] ?]. Qed.

Lemma EmplaceBack_throw a v en v' en' :
  relocation_is_safe = true →
  EmplaceBack a v en = Throw (v', en') → v' = v.
Proof.
  intros Hsafe Hf. unfold EmplaceBack in Hf.
  unfold construct_at in Hf.
  cases; try done; try apply with_cells_same.
  match goal with H : relocate_n _ _ _ _ _ _ = Throw _ |- _ =>
    apply (relocate_n_throw _ _ _ _ _ _ _ _ _ Hsafe) in H as -> end.
  apply with_cells_same.
Qed.

Lemma relocate_n_by_copy (src : Cells) s n dst d en r src' dst' en' :
  relocate_by_move = false →
  relocate_n src s n dst d en = r →
  r = Ok () (src', dst', en') ∨ r = Throw (src', dst', en') → src' = src.
Proof.
  intros Hc Hr Hcase. unfold relocate_n in Hr. rewrite Hc in Hr.
  destruct Hcase; cases; done.
Qed.

Lemma relocate_n_nothrow (src : Cells) s n dst d en :
  nothrow_move = true → is_throw (relocate_n src s n dst d en) = false.
Proof.
  intros Hnm. unfold relocate_n, relocate_by_move. rewrite Hnm. simpl.
  by apply uninitialized_move_n_nothrow.
Qed.

Lemma grow_prefix_by_copy (oc : Cells) offset nc en r oc' nc' en' :
  relocate_by_move = false →
  grow_prefix oc offset nc en = r →
  r = Ok () (oc', nc', en') ∨ r = Throw (oc', nc', en') → oc' = oc.
Proof.
  intros Hc Hr Hcase. unfold grow_prefix in Hr.
  destruct (0 <? offset); last by (destruct Hcase; simplify_eq).
  destruct (relocate_n oc 0 offset nc 0 en) as [[] [[sc c] e]|[[sc c] e]|]
    eqn:Hrel.
  - destruct Hcase; simplify_eq.
    eapply relocate_n_by_copy; [done | exact Hrel | by left].
  - assert (sc = oc) as ->
      by (eapply relocate_n_by_copy; [done | exact Hrel | by right]).
    destruct Hcase; cases; done.
  - destruct Hcase; simplify_eq.
Qed.

Lemma grow_suffix_by_copy (oc : Cells) offset size nc en r oc' nc' en' :
  relocate_by_move = false →
  grow_suffix oc offset size nc en = r →
  r = Ok () (oc', nc', en') ∨ r = Throw (oc', nc', en') → oc' = oc.
Proof.
  intros Hc Hr Hcase. unfold grow_suffix in Hr.
  destruct (offset <? size); last by (destruct Hcase; simplify_eq).
  destruct (relocate_n oc offset (size - offset) nc (offset + 1) en)
    as [[] [[sc c] e]|[[sc c] e]|] eqn:Hrel.
  - destruct Hcase; simplify_eq.
    eapply relocate_n_by_copy; [done | exact Hrel | by left].
  - assert (sc = oc) as ->
      by (eapply relocate_n_by_copy; [done | exact Hrel | by right]).
    destruct Hcase; cases; done.
  - destruct Hcase; simplify_eq.
Qed.

Lemma grow_prefix_nothrow (oc : Cells) offset nc en :
  nothrow_move = true → is_throw (grow_prefix oc offset nc en) = false.
Proof.
  intros Hnm. unfold grow_prefix. destruct (0 <? offset); last done.
  pose proof (relocate_n_nothrow oc 0 offset nc 0 en Hnm) as Hx.
  destruct (relocate_n oc 0 offset nc 0 en) as [[] [[? ?] ?]|[[? ?] ?]|];
    done.
Qed.

Lemma grow_suffix_nothrow (oc : Cells) offset size nc en :
  nothrow_move = true → is_throw (grow_suffix oc offset size nc en) = false.
Proof.
  intros Hnm. unfold grow_suffix. destruct (offset <? size); last done.
  pose proof (relocate_n_nothrow oc offset (size - offset) nc (offset + 1)
                en Hnm) as Hx.
  destruct (relocate_n oc offset (size - offset) nc (offset + 1) en)
    as [[] [[? ?] ?]|[[? ?] ?]|]; done.
Qed.

Lemma Emplace_grow_throw offset a v en v' en' :
  relocation_is_safe = true →
  Emplace_grow offset a v en = Throw (v', en') → v' = v.
Proof.
  intros Hsafe Hf. unfold Emplace_grow in Hf.
  destruct nothrow_move eqn:Hnm.
  - cases; try done; try apply with_cells_same.
    + match goal with H : grow_suffix ?a ?b ?c ?d ?e = Throw _ |- _ =>
        pose proof (grow_suffix_nothrow a b c d e Hnm) as Hx;
        by rewrite H in Hx end.
    + match goal with H : grow_prefix ?a ?b ?c ?d = Throw _ |- _ =>
        pose proof (grow_prefix_nothrow a b c d Hnm) as Hx;
        by rewrite H in Hx end.
  - assert (relocate_by_move = false) as Hcopy.
    { unfold relocation_is_safe in Hsafe. unfold relocate_by_move.
      rewrite Hnm in *. simpl in *. by rewrite Hsafe. }
    cases; try done;
      repeat match goal with
      | H : grow_prefix _ _ _ _ = _ |- _ =>
          eapply (grow_prefix_by_copy _ _ _ _ _ _ _ _ Hcopy) in H;
          [| by eauto]
      | H : grow_suffix _ _ _ _ _ = _ |- _ =>
          eapply (grow_suffix_by_copy _ _ _ _ _ _ _ _ _ Hcopy) in H;
          [| by eauto]
      end;
      subst; try apply with_cells_same.
Qed.

(** *** Relocation of known live slots *)

Lemma left_behind_length xs : length (left_behind xs) = length xs.
Proof. unfold left_behind. case_match; by rewrite ?length_map. Qed.

Lemma relocate_n_live (spre : Cells) xs spost (pre : Cells) k post en :
  length xs ≤ k →
  match relocate_n (spre ++ map Some xs ++ spost) (length spre) (length xs)
                   (pre ++ replicate k None ++ post) (length pre) en with
  | Ok _ (src', dst', en') =>
      src' = spre ++ map Some (left_behind xs) ++ spost ∧
      dst' = pre ++ map Some xs ++ replicate (k - length xs) None ++ post ∧
      logged en en' (relocation_log xs)
  | Throw (src', dst', en') =>
      dst' = pre ++ replicate k None ++ post ∧
      nothrow_move = false ∧
      ∃ j, j < length xs ∧
           src' = spre ++ map Some (left_behind (take j xs) ++ drop j xs)
                       ++ spost ∧
           logged en en' (relocation_log (take j xs) ++
                          map EvDestroy (take j xs))
  | Abort r => r = Terminated ∧ nothrow_move = true
  end.
Proof.
  intros Hk. unfold relocate_n, left_behind, relocation_log.
  destruct relocate_by_move eqn:Hby.
  - apply uninitialized_move_n_live; done.
  - pose proof (uninitialized_copy_n_live spre xs spost pre k post en Hk) as Hl.
    destruct (uninitialized_copy_n _ _ _ _ _ en) as [[] [c en1]|[c en1]|];
      last done.
    + destruct Hl as [-> Hl]. done.
    + destruct Hl as (-> & j & Hj & Hl).
      split_and!; first done.
      * unfold relocate_by_move in Hby. by destruct nothrow_move.
      * exists j. by rewrite take_drop.
Qed.

(** The same from the first slot of the old region into a fresh one, as
    [Reserve] calls it. *)
Lemma relocate_n_live_0 xs (spost : Cells) k en :
  length xs ≤ k →
  match relocate_n (map Some xs ++ spost) 0 (length xs)
                   (replicate k None) 0 en with
  | Ok _ (src', dst', en') =>
      src' = map Some (left_behind xs) ++ spost ∧
      dst' = map Some xs ++ replicate (k - length xs) None ∧
      logged en en' (relocation_log xs)
  | Throw (src', dst', en') =>
      dst' = replicate k None ∧
      nothrow_move = false ∧
      ∃ j, j < length xs ∧
           src' = map Some (left_behind (take j xs) ++ drop j xs) ++ spost ∧
           logged en en' (relocation_log (take j xs) ++
                          map EvDestroy (take j xs))
  | Abort r => r = Terminated ∧ nothrow_move = true
  end.
Proof.
  intros Hk.
  pose proof (relocate_n_live [] xs spost [] k [] en Hk) as Hl.
  simpl in Hl. rewrite app_nil_r in Hl.
  destruct (relocate_n _ _ _ _ _ en) as [[] [[sc c] en1]|[[sc c] en1]|];
    last done.
  - by rewrite ?app_nil_r in Hl.
  - by rewrite ?app_nil_r in Hl.
Qed.

Lemma destroy_n_live_0 ys (post : Cells) en :
  ∃ en', destroy_n (map Some ys ++ post) 0 (length ys) en
           = Some (replicate (length ys) None ++ post, en') ∧
         logged en en' (map EvDestroy ys).
Proof. apply (destroy_n_live [] ys post en). Qed.

(** *** The allocator *)

Lemma RawMemory_new_ok n en m en' :
  RawMemory_new n en = Ok m en' →
  m = mkRaw (if n =? 0 then 0 else S (next_ en)) n (replicate n None) ∧
  elem_ en' = elem_ en ∧
  log_ en' = log_ en ++ (if n =? 0 then [] else [EvAlloc (S (next_ en)) n]).
Proof.
  unfold RawMemory_new, Allocate. intros Hm.
  cases; rewrite ?app_nil_r; done.
Qed.

Lemma RawMemory_delete_log m en :
  elem_ (RawMemory_delete m en) = elem_ en ∧
  log_ (RawMemory_delete m en) =
    log_ en ++ (if buffer_ m =? 0 then [] else [EvDealloc (buffer_ m)]).
Proof.
  unfold RawMemory_delete. case_match; simpl; rewrite ?app_nil_r; done.
Qed.

(** *** Reserve *)

Lemma holds_length xs v :
  holds xs v → length (cells_ (data_ v)) = capacity_ (data_ v).
Proof.
  intros (Hsz & Hc & Hle).
  rewrite Hc, length_app, length_map, length_replicate. lia.
Qed.

Lemma Reserve_ok n xs v en v' en' :
  holds xs v → Capacity v < n →
  Reserve n v en = Ok () (v', en') →
  holds xs v' ∧ Capacity v' = n ∧
  buffer_ (data_ v') = S (next_ en) ∧
  log_ en' = log_ en ++ [EvAlloc (S (next_ en)) n] ++ relocation_log xs ++
             map EvDestroy (left_behind xs) ++ dealloc_log v.
Proof.
  intros (Hsz & Hc & Hle) Hn Hf. unfold Capacity in Hn.
  unfold Reserve in Hf.
  destruct (n <=? capacity_ (data_ v)) eqn:Hfit; bool_facts; first lia.
  destruct (RawMemory_new n en) as [m en1|en1|] eqn:Hnew; try done.
  apply RawMemory_new_ok in Hnew as (-> & He1 & Hlog1).
  assert ((n =? 0) = false) as Hn0 by (apply Nat.eqb_neq; lia).
  rewrite Hn0 in *. simpl in Hf.
  rewrite Hc, Hsz in Hf.
  assert (∃ oc nc en2,
    (if 0 <? length xs
     then relocate_n (map Some xs ++
            replicate (capacity_ (data_ v) - length xs) None) 0 (length xs)
            (replicate n None) 0 en1
     else Ok () (map Some xs ++
            replicate (capacity_ (data_ v) - length xs) None,
            replicate n None, en1)) = Ok () (oc, nc, en2) ∧
    oc = map Some (left_behind xs) ++
           replicate (capacity_ (data_ v) - length xs) None ∧
    nc = map Some xs ++ replicate (n - length xs) None ∧
    log_ en2 = log_ en1 ++ relocation_log xs) as (oc & nc & en2 & Hrel & -> & -> & Hlog2).
  { destruct (0 <? length xs) eqn:Hpos.
    - pose proof (relocate_n_live_0 xs
        (replicate (capacity_ (data_ v) - length xs) None) n en1
        ltac:(lia)) as Hl.
      destruct (relocate_n _ _ _ _ _ en1) as [[] [[sc c] e2]|[[sc c] e2]|];
        try done.
      destruct Hl as (-> & -> & Hl & _). eauto 10.
    - bool_facts. destruct xs; simpl in *; last lia.
      do 3 eexists. split; first done.
      unfold left_behind. rewrite !Nat.sub_0_r, app_nil_r.
      by destruct relocate_by_move. }
  rewrite Hrel in Hf.
  destruct (destroy_n_live_0 (left_behind xs)
    (replicate (capacity_ (data_ v) - length xs) None) en2)
    as (en3 & Hd & Hlog3 & _).
  rewrite left_behind_length in Hd. rewrite Hd in Hf.
  simplify_eq. split_and!.
  - unfold holds. simpl. split_and!; [done | done | lia].
  - done.
  - done.
  - destruct (RawMemory_delete_log
      (set_cells (replicate (length xs) None ++
         replicate (capacity_ (data_ v) - length xs) None) (data_ v)) en3)
      as [_ ->].
    rewrite Hlog3, Hlog2, Hlog1. unfold dealloc_log. simpl.
    by rewrite <- !app_assoc.
Qed.

Lemma Reserve_throw n v en v' en' :
  relocation_is_safe = true →
  Reserve n v en = Throw (v', en') → v' = v.
Proof.
  intros Hsafe Hf. unfold Reserve in Hf.
  cases; try done; try apply with_cells_same.
  match goal with H : relocate_n _ _ _ _ _ _ = Throw _ |- _ =>
    apply (relocate_n_throw _ _ _ _ _ _ _ _ _ Hsafe) in H as -> end.
  apply with_cells_same.
Qed.

(** *** Value construction *)

Lemma logged_default en r en' :
  do_default en = (r, en') →
  match r with
  | Some x => is_default x ∧ logged en en' [EvDefault x]
  | None => logged en en' []
  end.
Proof.
  unfold do_default, logged, is_default. intros Hd.
  destruct (default_ctor (elem_ en)) as [o e] eqn:He.
  destruct o; simplify_eq; simpl; rewrite ?app_nil_r; split_and?; try done.
  exists (elem_ en). by rewrite He.
Qed.

Lemma value_loop_live (pre : Cells) k post n en :
  n ≤ k →
  match value_loop (pre ++ replicate k None ++ post) (length pre) n en with
  | Ok _ (cur, dst', en') =>
      ∃ xs, length xs = n ∧ Forall is_default xs ∧
            dst' = pre ++ map Some xs ++ replicate (k - n) None ++ post ∧
            logged en en' (map EvDefault xs)
  | Throw (cur, dst', en') =>
      ∃ xs, length xs < n ∧ cur = length pre + length xs ∧
            dst' = pre ++ map Some xs ++ replicate (k - length xs) None
                       ++ post ∧
            logged en en' (map EvDefault xs)
  | Abort _ => False
  end.
Proof.
  revert pre k en. induction n as [|n IH]; intros pre k en Hk; simpl.
  - exists []. rewrite Nat.sub_0_r.
    split_and!; [done | done | done | apply logged_refl].
  - destruct k as [|k]; first lia. simpl. rewrite lookup_mid.
    destruct (do_default en) as [[x|] en1] eqn:Hd;
      apply logged_default in Hd.
    + destruct Hd as [Hx Hd]. rewrite insert_mid.
      specialize (IH (pre ++ [Some x]) k en1).
      rewrite !length_app, !Nat.add_1_r, <- !app_assoc in IH. simpl in IH.
      specialize (IH ltac:(lia)).
      destruct (value_loop _ _ _ en1) as [[] [[cur c] en2]|[[cur c] en2]|];
        last done.
      * destruct IH as (xs & Hlen & Hall & -> & Hl).
        exists (x :: xs). simpl.
        split_and!; [lia | by constructor | by rewrite <- app_assoc |].
        exact (logged_trans en en1 en2 [EvDefault x] _ Hd Hl).
      * destruct IH as (xs & Hlen & -> & -> & Hl).
        exists (x :: xs). simpl.
        split_and!; [lia | lia | by rewrite <- app_assoc |].
        exact (logged_trans en en1 en2 [EvDefault x] _ Hd Hl).
    + exists []. simpl. split_and!; [lia | lia | done | done].
Qed.

Lemma uninitialized_value_construct_n_live (pre : Cells) k post n en :
  n ≤ k →
  match uninitialized_value_construct_n (pre ++ replicate k None ++ post)
          (length pre) n en with
  | Ok _ (dst', en') =>
      ∃ xs, length xs = n ∧ Forall is_default xs ∧
            dst' = pre ++ map Some xs ++ replicate (k - n) None ++ post ∧
            logged en en' (map EvDefault xs)
  | Throw (dst', en') =>
      dst' = pre ++ replicate k None ++ post ∧
      ∃ xs, length xs < n ∧
            logged en en' (map EvDefault xs ++ map EvDestroy xs)
  | Abort _ => False
  end.
Proof.
  intros Hk. unfold uninitialized_value_construct_n.
  pose proof (value_loop_live pre k post n en Hk) as Hl.
  destruct (value_loop _ _ _ en) as [[] [[cur c] en1]|[[cur c] en1]|];
    [done| |done].
  destruct Hl as (xs & Hlen & -> & -> & Hl).
  replace (length pre + length xs - length pre) with (length xs) by lia.
  destruct (destroy_n_live pre xs
              (replicate (k - length xs) None ++ post) en1) as (en2 & -> & Hd).
  split.
  - rewrite (app_assoc (replicate _ _)), <- replicate_add.
    do 3 f_equal. lia.
  - exists xs. split; first done. by eapply logged_trans.
Qed.

Lemma uninitialized_value_construct_n_fresh n en :
  match uninitialized_value_construct_n (replicate n None) 0 n en with
  | Ok _ (dst', en') =>
      ∃ xs, length xs = n ∧ Forall is_default xs ∧ dst' = map Some xs ∧
            logged en en' (map EvDefault xs)
  | Throw (dst', en') =>
      dst' = replicate n None ∧
      ∃ xs, length xs < n ∧
            logged en en' (map EvDefault xs ++ map EvDestroy xs)
  | Abort _ => False
  end.
Proof.
  pose proof (uninitialized_value_construct_n_live [] n [] n en (le_n n)) as Hl.
  simpl in Hl. rewrite app_nil_r in Hl.
  destruct (uninitialized_value_construct_n _ _ _ en)
    as [[] [c en1]|[c en1]|]; last done.
  - destruct Hl as (xs & Hlen & Hall & -> & Hl).
    exists xs. rewrite Nat.sub_diag. simpl. by rewrite app_nil_r.
  - by rewrite ?app_nil_r in Hl.
Qed.

Lemma value_loop_no_throw (dst : Cells) d n en :
  (∀ e, is_Some (default_ctor e).1) →
  is_throw (value_loop dst d n en) = false.
Proof.
  intros Hdef. revert dst d en.
  induction n as [|n IH]; intros dst d en; simpl; first done.
  unfold do_default.
  destruct (dst !! d) as [[?|]|]; try done.
  pose proof (Hdef (elem_ en)) as [x Hx].
  destruct (default_ctor (elem_ en)) as [o e]. simpl in Hx. subst o.
  apply IH.
Qed.

Lemma uninitialized_value_construct_n_no_throw (dst : Cells) d n en :
  (∀ e, is_Some (default_ctor e).1) →
  is_throw (uninitialized_value_construct_n dst d n en) = false.
Proof.
  intros Hdef. unfold uninitialized_value_construct_n.
  pose proof (value_loop_no_throw dst d n en Hdef) as Hl.
  destruct (value_loop dst d n en) as [[] [[? ?] ?]|[[? ?] ?]|]; done.
Qed.

(** *** Construction of the new element *)

Lemma logged_construct a en x en' :
  do_construct a en = Ok x en' → logged en en' (construct_log a x).
Proof.
  unfold do_construct. intros Hc. destruct a as [a|y|y]; simpl.
  - unfold logged. cases; done.
  - destruct (do_copy y en) as [ok en1] eqn:Hy.
    apply logged_copy in Hy. destruct ok; by simplify_eq.
  - destruct (do_move y en) as [[] en1|en1|] eqn:Hy; try done.
    apply logged_move in Hy. by simplify_eq.
Qed.

Lemma do_construct_built a en x en' :
  do_construct a en = Ok x en' → built a x.
Proof.
  unfold do_construct, built. intros Hc. destruct a as [a|y|y].
  - destruct (construct a (elem_ en)) as [[z|] e] eqn:Hz; [|done].
    exists (elem_ en). rewrite Hz. by simplify_eq.
  - destruct (do_copy y en) as [[] en1]; by simplify_eq.
  - destruct (do_move y en) as [[] en1|en1|]; by simplify_eq.
Qed.

Lemma insert_replicate_at {X} (x y : X) n i :
  i < n →
  <[i := y]> (replicate n x) = replicate i x ++ y :: replicate (n - S i) x.
Proof.
  intros Hi.
  replace n with (i + S (n - S i)) at 1 by lia.
  rewrite replicate_add. simpl.
  rewrite <- (length_replicate i x) at 1. apply insert_mid.
Qed.

Lemma construct_at_fresh n i a en :
  i < n →
  construct_at (replicate n None) i a en =
    match do_construct a en with
    | Ok x en' =>
        Ok () (replicate i None ++ Some x :: replicate (n - S i) None, en')
    | Throw en' => Throw (replicate n None, en')
    | Abort r => Abort r
    end.
Proof.
  intros Hi. unfold construct_at.
  rewrite lookup_replicate_2 by done.
  destruct (do_construct a en); try done.
  by rewrite insert_replicate_at.
Qed.

Lemma grown_capacity_gt n : n < grown_capacity n.
Proof. unfold grown_capacity. case_match; bool_facts; lia. Qed.

(** [relocate_n_live] with the regions and offsets given by equations. *)
Lemma relocate_n_at (spre : Cells) xs spost (pre : Cells) k post en
    (src dst : Cells) s n d :
  src = spre ++ map Some xs ++ spost → s = length spre → n = length xs →
  dst = pre ++ replicate k None ++ post → d = length pre →
  length xs ≤ k →
  match relocate_n src s n dst d en with
  | Ok _ (src', dst', en') =>
      src' = spre ++ map Some (left_behind xs) ++ spost ∧
      dst' = pre ++ map Some xs ++ replicate (k - length xs) None ++ post ∧
      logged en en' (relocation_log xs)
  | Throw (src', dst', en') =>
      dst' = pre ++ replicate k None ++ post ∧
      nothrow_move = false ∧
      ∃ j, j < length xs ∧
           src' = spre ++ map Some (left_behind (take j xs) ++ drop j xs)
                       ++ spost ∧
           logged en en' (relocation_log (take j xs) ++
                          map EvDestroy (take j xs))
  | Abort r => r = Terminated ∧ nothrow_move = true
  end.
Proof. intros -> -> -> -> -> Hk. by apply relocate_n_live. Qed.

Lemma left_behind_app xs ys :
  left_behind (xs ++ ys) = left_behind xs ++ left_behind ys.
Proof. unfold left_behind. case_match; by rewrite ?map_app. Qed.

Lemma relocation_log_app xs ys :
  relocation_log (xs ++ ys) = relocation_log xs ++ relocation_log ys.
Proof. unfold relocation_log. by rewrite map_app. Qed.

Lemma relocation_leaves_length xs j :
  j < length xs →
  length (left_behind (take j xs) ++ drop j xs) = length xs.
Proof.
  intros Hj.
  rewrite length_app, left_behind_length, length_take, length_drop. lia.
Qed.

(** *** Emplace with growth, on known live slots *)

Lemma grow_prefix_live xs (pad : Cells) x (rest : Cells) offset en :
  offset ≤ length xs →
  match grow_prefix (map Some xs ++ pad) offset
                    (replicate offset None ++ Some x :: rest) en with
  | Ok _ (oc, nc, en') =>
      oc = map Some (left_behind (take offset xs)) ++
           map Some (drop offset xs) ++ pad ∧
      nc = map Some (take offset xs) ++ Some x :: rest ∧
      logged en en' (relocation_log (take offset xs))
  | Throw (oc, nc, en') =>
      nothrow_move = false ∧
      ∃ ws, oc = map Some ws ++ pad ∧ length ws = length xs
  | Abort r => r = Terminated ∧ nothrow_move = true
  end.
Proof.
  intros Hoff. unfold grow_prefix.
  destruct (0 <? offset) eqn:Hpos; bool_facts.
  - pose proof (relocate_n_at [] (take offset xs)
      (map Some (drop offset xs) ++ pad) [] offset (Some x :: rest) en
      (map Some xs ++ pad) (replicate offset None ++ Some x :: rest)
      0 offset 0) as Hl.
    simpl in Hl. rewrite length_take, Nat.min_l in Hl by lia.
    rewrite Nat.sub_diag in Hl. simpl in Hl.
    rewrite app_assoc, <- map_app, take_drop in Hl.
    specialize (Hl eq_refl eq_refl eq_refl eq_refl eq_refl (le_n _)).
    destruct (relocate_n _ _ _ _ _ en) as [[] [[sc c] e3]|[[sc c] e3]|ab];
      [|  | done].
    + done.
    + destruct Hl as (-> & Hnm & j & Hj & -> & _). unfold destroy_at.
      rewrite list_lookup_middle by (by rewrite length_replicate).
      split; first done.
      exists ((left_behind (take j (take offset xs)) ++
               drop j (take offset xs)) ++ drop offset xs).
      split; first by rewrite (map_app _ _ (drop offset xs)), <- app_assoc.
      rewrite !length_app, left_behind_length, !length_take, !length_drop,
        length_take.
      lia.
  - assert (offset = 0) as -> by lia. simpl. rewrite drop_0.
    split_and!; [| done | apply logged_refl].
    unfold left_behind. by destruct relocate_by_move.
Qed.

Lemma grow_suffix_live (spre : Cells) ys (pad : Cells) zs k offset size en :
  length spre = offset → length zs = offset + 1 →
  size = offset + length ys → length ys ≤ k →
  match grow_suffix (spre ++ map Some ys ++ pad) offset size
                    (map Some zs ++ replicate k None) en with
  | Ok _ (oc, nc, en') =>
      oc = spre ++ map Some (left_behind ys) ++ pad ∧
      nc = map Some zs ++ map Some ys ++ replicate (k - length ys) None ∧
      logged en en' (relocation_log ys)
  | Throw (oc, nc, en') =>
      nothrow_move = false ∧
      ∃ ws, oc = spre ++ map Some ws ++ pad ∧ length ws = length ys
  | Abort r => r = Terminated ∧ nothrow_move = true
  end.
Proof.
  intros Hspre Hzs Hsize Hk. unfold grow_suffix.
  destruct (offset <? size) eqn:Hpos; bool_facts.
  - pose proof (relocate_n_at spre ys pad (map Some zs) k [] en
      (spre ++ map Some ys ++ pad) (map Some zs ++ replicate k None)
      offset (size - offset) (offset + 1)) as Hl.
    rewrite !app_nil_r in Hl.
    specialize (Hl eq_refl ltac:(done) ltac:(lia) eq_refl
                  ltac:(by rewrite length_map) Hk).
    destruct (relocate_n _ _ _ _ _ en) as [[] [[sc c] e3]|[[sc c] e3]|ab];
      [|  | done].
    + destruct Hl as (-> & -> & Hl). by rewrite ?app_nil_r.
    + destruct Hl as (-> & Hnm & j & Hj & -> & _).
      destruct (destroy_n_live_0 zs (replicate k None) e3) as (e4 & Hd & _).
      rewrite Hzs in Hd. rewrite Hd.
      split; first done. eexists. split; first done.
      by apply relocation_leaves_length.
  - assert (ys = []) as -> by (destruct ys; [done | simpl in *; lia]).
    simpl. rewrite Nat.sub_0_r.
    split_and!; [| done | apply logged_refl].
    unfold left_behind. by destruct relocate_by_move.
Qed.

Lemma Emplace_grow_ok_built offset a xs v en r v' en' :
  holds xs v → size_ v = Capacity v → offset ≤ length xs →
  Emplace_grow offset a v en = Ok r (v', en') →
  ∃ x, built a x ∧ r = offset ∧
       holds (take offset xs ++ x :: drop offset xs) v' ∧
       Capacity v' = grown_capacity (length xs) ∧
       log_ en' = log_ en ++
         [EvAlloc (S (next_ en)) (grown_capacity (length xs))] ++
         construct_log a x ++ relocation_log xs ++
         map EvDestroy (left_behind xs) ++ dealloc_log v.
Proof.
  intros (Hsz & Hc & Hle) Hfull Hoff Hf. unfold Capacity in Hfull.
  unfold Emplace_grow in Hf. rewrite Hsz, Hc in Hf.
  pose proof (grown_capacity_gt (length xs)) as Hg.
  set (g := grown_capacity (length xs)) in *.
  set (pad := replicate (capacity_ (data_ v) - length xs) None) in *.
  destruct (RawMemory_new g en) as [m en1|en1|] eqn:Hnew; try done.
  apply RawMemory_new_ok in Hnew as (-> & He1 & Hlog1).
  assert ((g =? 0) = false) as Hg0 by (apply Nat.eqb_neq; lia).
  rewrite Hg0 in *. simpl in Hf.
  rewrite construct_at_fresh in Hf by lia.
  destruct (do_construct a en1) as [x en2|en2|] eqn:Hcon; try done.
  pose proof (do_construct_built _ _ _ _ Hcon) as Hbuilt.
  apply logged_construct in Hcon as (Hlog2 & _).
  pose proof (grow_prefix_live xs pad x (replicate (g - S offset) None)
                offset en2 Hoff) as Hp.
  destruct (grow_prefix _ _ _ en2) as [[] [[oc1 nc1] en3]|[[oc1 nc1] en3]|];
    try done.
  destruct Hp as (-> & -> & Hlog3 & _).
  pose proof (grow_suffix_live (map Some (left_behind (take offset xs)))
                (drop offset xs) pad (take offset xs ++ [x])
                (g - S offset) offset (length xs) en3) as Hs.
  rewrite map_app, <- app_assoc in Hs. simpl in Hs.
  rewrite !length_map, left_behind_length, !length_app, !length_take,
    !length_drop in Hs.
  specialize (Hs ltac:(lia) ltac:(simpl; lia) ltac:(lia) ltac:(lia)).
  destruct (grow_suffix _ _ _ _ en3) as [[] [[oc2 nc2] en4]|[[oc2 nc2] en4]|];
    try done.
  destruct Hs as (-> & -> & Hlog4 & _).
  rewrite app_assoc, <- map_app, <- left_behind_app, take_drop in Hf.
  destruct (destroy_n_live_0 (left_behind xs) pad en4) as (en5 & Hd & Hlog5 & _).
  rewrite left_behind_length in Hd. rewrite Hd in Hf. simplify_eq.
  exists x. split_and!; [done | done | | done |].
  - unfold holds. simpl.
    rewrite length_app, length_take. simpl. rewrite length_drop.
    split_and!; try lia.
    rewrite map_app. simpl. rewrite <- !app_assoc. simpl.
    do 4 f_equal. lia.
  - destruct (RawMemory_delete_log
      (set_cells (replicate (length xs) None ++ pad) (data_ v)) en5)
      as [_ ->].
    rewrite Hlog5, Hlog4, Hlog3, Hlog2, Hlog1. unfold dealloc_log. simpl.
    rewrite <- !app_assoc.
    rewrite (app_assoc (relocation_log (take _ _))), <- relocation_log_app,
      take_drop.
    done.
Qed.

Lemma Emplace_grow_ok offset a xs v en r v' en' :
  holds xs v → size_ v = Capacity v → offset ≤ length xs →
  Emplace_grow offset a v en = Ok r (v', en') →
  ∃ x, r = offset ∧
       holds (take offset xs ++ x :: drop offset xs) v' ∧
       Capacity v' = grown_capacity (length xs) ∧
       log_ en' = log_ en ++
         [EvAlloc (S (next_ en)) (grown_capacity (length xs))] ++
         construct_log a x ++ relocation_log xs ++
         map EvDestroy (left_behind xs) ++ dealloc_log v.
Proof.
  intros Hv Hfull Hoff Hf.
  destruct (Emplace_grow_ok_built offset a xs v en r v' en' Hv Hfull Hoff Hf)
    as (x & _ & Hx).
  by exists x.
Qed.

(** *** EmplaceBack on known live slots *)

Lemma construct_at_end xs k a en :
  construct_at (map Some xs ++ replicate (S k) None) (length xs) a en =
    match do_construct a en with
    | Ok x en' => Ok () (map Some (xs ++ [x]) ++ replicate k None, en')
    | Throw en' => Throw (map Some xs ++ replicate (S k) None, en')
    | Abort r => Abort r
    end.
Proof.
  unfold construct_at. simpl.
  rewrite list_lookup_middle by (by rewrite length_map).
  destruct (do_construct a en); try done.
  rewrite <- (length_map Some xs), insert_mid, map_app, <- app_assoc. done.
Qed.

Lemma EmplaceBack_ok_built a xs v en r v' en' :
  holds xs v → EmplaceBack a v en = Ok r (v', en') →
  ∃ x, built a x ∧ r = length xs ∧ holds (xs ++ [x]) v' ∧
       (size_ v = Capacity v →
          Capacity v' = grown_capacity (length xs) ∧
          log_ en' = log_ en ++
            [EvAlloc (S (next_ en)) (grown_capacity (length xs))] ++
            construct_log a x ++ relocation_log xs ++
            map EvDestroy (left_behind xs) ++ dealloc_log v) ∧
       (size_ v ≠ Capacity v →
          buffer_ (data_ v') = buffer_ (data_ v) ∧
          Capacity v' = Capacity v ∧
          log_ en' = log_ en ++ construct_log a x).
Proof.
  intros (Hsz & Hc & Hle) Hf. unfold Capacity in *.
  unfold EmplaceBack, Capacity in Hf. rewrite Hsz, Hc in Hf.
  destruct (length xs =? capacity_ (data_ v)) eqn:Hfull; bool_facts.
  - pose proof (grown_capacity_gt (length xs)) as Hg.
    set (g := grown_capacity (length xs)) in *.
    set (pad := replicate (capacity_ (data_ v) - length xs) None) in *.
    destruct (RawMemory_new g en) as [m en1|en1|] eqn:Hnew; try done.
    apply RawMemory_new_ok in Hnew as (-> & He1 & Hlog1).
    assert ((g =? 0) = false) as Hg0 by (apply Nat.eqb_neq; lia).
    rewrite Hg0 in *. simpl in Hf.
    rewrite construct_at_fresh in Hf by lia.
    destruct (do_construct a en1) as [x en2|en2|] eqn:Hcon; try done.
    pose proof (do_construct_built _ _ _ _ Hcon) as Hbuilt.
    apply logged_construct in Hcon as (Hlog2 & _).
    pose proof (relocate_n_at [] xs pad [] (length xs)
      (Some x :: replicate (g - S (length xs)) None) en2
      (map Some xs ++ pad)
      (replicate (length xs) None ++ Some x ::
         replicate (g - S (length xs)) None)
      0 (length xs) 0 eq_refl eq_refl eq_refl eq_refl eq_refl (le_n _)) as Hl.
    destruct (relocate_n _ _ _ _ _ en2) as [[] [[oc nc] en3]|[[oc nc] en3]|];
      [| by cases | done].
    destruct Hl as (-> & -> & Hlog3 & _). simpl in Hf.
    destruct (destroy_n_live_0 (left_behind xs) pad en3)
      as (en4 & Hd & Hlog4 & _).
    rewrite left_behind_length in Hd. rewrite Hd in Hf. simplify_eq.
    exists x. split_and!; [done | done | | | intros ?; congruence].
    + unfold holds. simpl. rewrite length_app, Nat.sub_diag. simpl.
      split_and!; try lia.
      rewrite map_app, <- app_assoc. simpl. do 3 f_equal. lia.
    + intros _. split; first done.
      destruct (RawMemory_delete_log
        (set_cells (replicate (length xs) None ++ pad) (data_ v)) en4)
        as [_ ->].
      rewrite Hlog4, Hlog3, Hlog2, Hlog1. unfold dealloc_log. simpl.
      by rewrite <- !app_assoc.
  - replace (capacity_ (data_ v) - length xs)
      with (S (capacity_ (data_ v) - S (length xs))) in Hf by lia.
    rewrite construct_at_end in Hf.
    destruct (do_construct a en) as [x en1|en1|] eqn:Hcon; try done.
    pose proof (do_construct_built _ _ _ _ Hcon) as Hbuilt.
    apply logged_construct in Hcon as (Hlog1 & _). simplify_eq.
    exists x. split_and!; [done | done | | intros ?; congruence | by intros _].
    unfold holds. simpl. rewrite length_app. simpl.
    split_and!; try lia. do 2 f_equal. lia.
Qed.

Lemma EmplaceBack_ok a xs v en r v' en' :
  holds xs v → EmplaceBack a v en = Ok r (v', en') →
  ∃ x, r = length xs ∧ holds (xs ++ [x]) v' ∧
       (size_ v = Capacity v →
          Capacity v' = grown_capacity (length xs) ∧
          log_ en' = log_ en ++
            [EvAlloc (S (next_ en)) (grown_capacity (length xs))] ++
            construct_log a x ++ relocation_log xs ++
            map EvDestroy (left_behind xs) ++ dealloc_log v) ∧
       (size_ v ≠ Capacity v →
          buffer_ (data_ v') = buffer_ (data_ v) ∧
          Capacity v' = Capacity v ∧
          log_ en' = log_ en ++ construct_log a x).
Proof.
  intros Hv Hf.
  destruct (EmplaceBack_ok_built a xs v en r v' en' Hv Hf) as (x & _ & Hx).
  by exists x.
Qed.

(** *** Copy assignment on known live slots *)

Lemma logged_copy_assign y x en ok en' :
  do_copy_assign y x en = (ok, en') →
  logged en en' (if ok then [EvCopyAssign x] else []).
Proof.
  unfold do_copy_assign, logged. intros Hc.
  cases; simpl; by rewrite ?app_nil_r.
Qed.

Lemma std_copy_live (spre : Cells) ys spost (pre : Cells) xs post en :
  length xs = length ys →
  match std_copy (spre ++ map Some ys ++ spost) (length spre) (length ys)
                 (pre ++ map Some xs ++ post) (length pre) en with
  | Ok _ (c, en') =>
      c = pre ++ map Some ys ++ post ∧
      logged en en' (map EvCopyAssign ys)
  | Throw (c, en') =>
      ∃ j, j < length ys ∧
           c = pre ++ map Some (take j ys ++ drop j xs) ++ post ∧
           logged en en' (map EvCopyAssign (take j ys))
  | Abort _ => False
  end.
Proof.
  revert spre pre xs en.
  induction ys as [|y ys IH]; intros spre pre xs en Hlen; simpl.
  - destruct xs; last done. split; [done | apply logged_refl].
  - destruct xs as [|x xs]; first done. simpl in *.
    rewrite !lookup_mid.
    destruct (do_copy_assign x y en) as [ok en1] eqn:Hc.
    apply logged_copy_assign in Hc. destruct ok.
    + rewrite insert_mid.
      specialize (IH (spre ++ [Some y]) (pre ++ [Some y]) xs en1).
      rewrite !length_app, !Nat.add_1_r, <- !app_assoc in IH. simpl in IH.
      specialize (IH ltac:(lia)).
      destruct (std_copy _ _ _ _ _ en1) as [[] [c en2]|[c en2]|]; last done.
      * destruct IH as [-> Hl]. split; first done.
        exact (logged_trans en en1 en2 [EvCopyAssign y] _ Hc Hl).
      * destruct IH as (j & Hj & -> & Hl).
        exists (S j).
        split_and!; [lia | by rewrite <- app_assoc |].
        exact (logged_trans en en1 en2 [EvCopyAssign y] _ Hc Hl).
    + exists 0. split_and!; [lia | done | done].
Qed.

(** [std_copy_live] with the regions and offsets given by equations. *)
Lemma std_copy_at (spre : Cells) ys spost (pre : Cells) xs post en
    (src dst : Cells) s n d :
  src = spre ++ map Some ys ++ spost → s = length spre → n = length ys →
  dst = pre ++ map Some xs ++ post → d = length pre →
  length xs = length ys →
  match std_copy src s n dst d en with
  | Ok _ (c, en') =>
      c = pre ++ map Some ys ++ post ∧
      logged en en' (map EvCopyAssign ys)
  | Throw (c, en') =>
      ∃ j, j < length ys ∧
           c = pre ++ map Some (take j ys ++ drop j xs) ++ post ∧
           logged en en' (map EvCopyAssign (take j ys))
  | Abort _ => False
  end.
Proof. intros -> -> -> -> -> Hk. by apply std_copy_live. Qed.

(** [uninitialized_copy_n_live] with the regions given by equations. *)
Lemma uninitialized_copy_n_at (spre : Cells) xs spost (pre : Cells) k
    post en (src dst : Cells) s n d :
  src = spre ++ map Some xs ++ spost → s = length spre → n = length xs →
  dst = pre ++ replicate k None ++ post → d = length pre →
  length xs ≤ k →
  match uninitialized_copy_n src s n dst d en with
  | Ok _ (dst', en') =>
      dst' = pre ++ map Some xs ++ replicate (k - length xs) None ++ post ∧
      logged en en' (map EvCopy xs)
  | Throw (dst', en') =>
      dst' = pre ++ replicate k None ++ post ∧
      ∃ j, j < length xs ∧
           logged en en' (map EvCopy (take j xs) ++ map EvDestroy (take j xs))
  | Abort _ => False
  end.
Proof. intros -> -> -> -> -> Hk. by apply uninitialized_copy_n_live. Qed.

Lemma holds_intro (zs : list T) (v : vec) (c : Cells) n :
  c = map Some zs ++ replicate (capacity_ (data_ v) - length zs) None →
  n = length zs → length zs ≤ capacity_ (data_ v) →
  holds zs (with_size n (with_cells c v)).
Proof. intros -> -> Hle. done. Qed.

(** [AssignFrom] when the source is longer: the common prefix is assigned,
    the rest is copy-constructed. *)
Lemma AssignFrom_longer ys other xs this en :
  holds ys other → holds xs this → length ys ≤ Capacity this →
  length xs < length ys →
  match AssignFrom other this en with
  | Ok _ (v', en') =>
      holds ys v' ∧
      buffer_ (data_ v') = buffer_ (data_ this) ∧
      Capacity v' = Capacity this ∧
      logged en en' (map EvCopyAssign (take (length xs) ys) ++
                     map EvCopy (drop (length xs) ys))
  | Throw (v', en') =>
      buffer_ (data_ v') = buffer_ (data_ this) ∧
      Capacity v' = Capacity this ∧
      free_ en' = free_ en ∧ next_ en' = next_ en ∧
      ∃ j, j ≤ length xs ∧ j ≤ length ys ∧
           holds (take j ys ++ drop j xs) v'
  | Abort _ => False
  end.
Proof.
  intros (Hsy & Hcy & Hly) (Hsx & Hcx & Hlx) Hfit Hlt. unfold Capacity in *.
  unfold AssignFrom. rewrite Hsy, Hsx.
  set (spad := replicate (capacity_ (data_ other) - length ys) None) in *.
  set (pad := replicate (capacity_ (data_ this) - length xs) None) in *.
  replace (length ys `min` length xs) with (length xs) by lia.
  assert ((length xs <? length ys) = true) as -> by (by apply Nat.ltb_lt).
  assert (cells_ (data_ other) =
          map Some (take (length xs) ys) ++
          map Some (drop (length xs) ys) ++ spad) as Hsrc
    by (by rewrite Hcy, app_assoc, <- map_app, take_drop).
  assert (length (take (length xs) ys) = length xs) as Htk
    by (rewrite length_take; lia).
  pose proof (std_copy_at [] (take (length xs) ys)
    (map Some (drop (length xs) ys) ++ spad) [] xs pad en
    (cells_ (data_ other)) (cells_ (data_ this)) 0 (length xs) 0
    Hsrc eq_refl (eq_sym Htk) Hcx eq_refl (eq_sym Htk)) as Hcopy.
  destruct (std_copy _ _ _ _ _ en) as [[] [c1 en1]|[c1 en1]|]; last done.
  - destruct Hcopy as [-> Hlog1]. simpl.
    pose proof (uninitialized_copy_n_at (map Some (take (length xs) ys))
      (drop (length xs) ys) spad (map Some (take (length xs) ys))
      (capacity_ (data_ this) - length xs) [] en1
      (cells_ (data_ other)) (map Some (take (length xs) ys) ++ pad)
      (length xs) (length ys - length xs) (length xs)
      Hsrc ltac:(by rewrite length_map) ltac:(by rewrite length_drop)
      ltac:(by rewrite app_nil_r) ltac:(by rewrite length_map)
      ltac:(rewrite length_drop; lia)) as Hrest.
    destruct (uninitialized_copy_n _ _ _ _ _ en1)
      as [[] [c2 en2]|[c2 en2]|]; last done.
    + destruct Hrest as [-> Hlog2].
      split_and!; [| done | done | by eapply logged_trans].
      apply holds_intro; [| done | lia].
      rewrite app_nil_r, app_assoc, <- map_app, take_drop.
      do 2 f_equal. rewrite length_drop. lia.
    + destruct Hrest as (-> & j & Hj & Hlog2).
      destruct (logged_trans _ _ _ _ _ Hlog1 Hlog2) as (_ & ? & ?).
      split_and!; [done | done | done | done |].
      exists (length xs). split_and!; [lia | lia |].
      rewrite (drop_ge xs) by lia. rewrite !app_nil_r.
      unfold holds. simpl. rewrite Htk. done.
  - destruct Hcopy as (j & Hj & -> & Hlog1).
    destruct Hlog1 as (_ & ? & ?). rewrite Htk in Hj.
    split_and!; [done | done | done | done |].
    exists j. split_and!; [lia | lia |].
    rewrite take_take, Nat.min_l by lia.
    unfold holds. simpl.
    assert (length (take j ys ++ drop j xs) = length xs) as ->
      by (rewrite length_app, length_take, length_drop; lia).
    done.
Qed.

Lemma drop_take_drop {X} (l : list X) j n :
  j ≤ n → n ≤ length l → drop j (take n l) ++ drop n l = drop j l.
Proof.
  intros Hj Hn. rewrite <- (take_drop n l) at 3.
  rewrite drop_app_le; first done. rewrite length_take. lia.
Qed.

(** [AssignFrom] when the source is not longer: the source is assigned over
    the prefix and the surplus is destroyed. *)
Lemma AssignFrom_not_longer ys other xs this en :
  holds ys other → holds xs this → length ys ≤ length xs →
  match AssignFrom other this en with
  | Ok _ (v', en') =>
      holds ys v' ∧
      buffer_ (data_ v') = buffer_ (data_ this) ∧
      Capacity v' = Capacity this ∧
      logged en en' (map EvCopyAssign ys ++
                     map EvDestroy (drop (length ys) xs))
  | Throw (v', en') =>
      buffer_ (data_ v') = buffer_ (data_ this) ∧
      Capacity v' = Capacity this ∧
      free_ en' = free_ en ∧ next_ en' = next_ en ∧
      ∃ j, j ≤ length xs ∧ j ≤ length ys ∧
           holds (take j ys ++ drop j xs) v'
  | Abort _ => False
  end.
Proof.
  intros (Hsy & Hcy & Hly) (Hsx & Hcx & Hlx) Hle. unfold Capacity in *.
  unfold AssignFrom. rewrite Hsy, Hsx.
  set (spad := replicate (capacity_ (data_ other) - length ys) None) in *.
  set (pad := replicate (capacity_ (data_ this) - length xs) None) in *.
  replace (length ys `min` length xs) with (length ys) by lia.
  assert ((length xs <? length ys) = false) as -> by (apply Nat.ltb_ge; lia).
  assert (cells_ (data_ this) =
          map Some (take (length ys) xs) ++
          map Some (drop (length ys) xs) ++ pad) as Hdst
    by (by rewrite Hcx, app_assoc, <- map_app, take_drop).
  assert (length (take (length ys) xs) = length ys) as Htk
    by (rewrite length_take; lia).
  pose proof (std_copy_at [] ys spad [] (take (length ys) xs)
    (map Some (drop (length ys) xs) ++ pad) en
    (cells_ (data_ other)) (cells_ (data_ this)) 0 (length ys) 0
    Hcy eq_refl eq_refl Hdst eq_refl Htk) as Hcopy.
  destruct (std_copy _ _ _ _ _ en) as [[] [c1 en1]|[c1 en1]|]; last done.
  - destruct Hcopy as [-> Hlog1]. simpl.
    destruct (length ys <? length xs) eqn:Hgt; bool_facts.
    + destruct (destroy_n_live (map Some ys) (drop (length ys) xs) pad en1)
        as (en2 & Hd & Hlog2).
      rewrite length_map, length_drop in Hd. rewrite Hd.
      split_and!; [| done | done | by eapply logged_trans].
      apply holds_intro; [| done | lia].
      unfold pad. rewrite <- replicate_add. do 2 f_equal. lia.
    + rewrite (drop_ge xs) by lia. simpl.
      split_and!; [| done | done | by rewrite app_nil_r].
      apply holds_intro; [| done | lia].
      do 3 f_equal. lia.
  - destruct Hcopy as (j & Hj & -> & Hlog1).
    destruct Hlog1 as (_ & ? & ?).
    split_and!; [done | done | done | done |].
    exists j. split_and!; [lia | lia |].
    unfold holds. simpl.
    assert (length (take j ys ++ drop j xs) = length xs) as ->
      by (rewrite length_app, length_take, length_drop; lia).
    split_and!; [done | | done].
    rewrite map_app, <- !app_assoc, (app_assoc (map Some (drop j _))),
      <- map_app, drop_take_drop by lia.
    by rewrite map_app, <- app_assoc.
Qed.

(** *** The copy constructor and the destructor *)

Lemma Vector_copy_live ys other en :
  holds ys other →
  match Vector_copy other en with
  | Ok v en' =>
      holds ys v ∧ Capacity v = length ys ∧
      log_ en' = log_ en ++
        (if length ys =? 0 then []
         else [EvAlloc (S (next_ en)) (length ys)]) ++ map EvCopy ys
  | Throw en' =>
      (en' = en ∧ free_ en < length ys) ∨ free_ en' = free_ en
  | Abort _ => False
  end.
Proof.
  intros (Hsy & Hcy & Hly). unfold Vector_copy, RawMemory_new, Allocate.
  rewrite Hsy.
  destruct (length ys =? 0) eqn:Hn0; bool_facts.
  { destruct ys; last done. simpl.
    split_and!; [done | done | by rewrite app_nil_r]. }
  destruct (length ys <=? free_ en) eqn:Hfree; bool_facts;
    last by (left; split; [done | lia]).
  assert ((0 <? length ys) = true) as -> by (apply Nat.ltb_lt; lia).
  simpl.
  match goal with |- context [uninitialized_copy_n ?src 0 _ ?dst 0 ?e] =>
    pose proof (uninitialized_copy_n_at [] ys
      (replicate (capacity_ (data_ other) - length ys) None) []
      (length ys) [] e src dst 0 (length ys) 0 Hcy eq_refl eq_refl
      ltac:(by rewrite app_nil_r) eq_refl (le_n _)) as Hl;
    destruct (uninitialized_copy_n src 0 (length ys) dst 0 e)
      as [[] [c en1]|[c en1]|]; last done
  end.
  - destruct Hl as (-> & Hlog & _).
    unfold Capacity. simpl. split_and!; [| done |].
    + unfold holds. simpl. by rewrite Nat.sub_diag.
    + rewrite Hlog. simpl. by rewrite <- app_assoc.
  - destruct Hl as (-> & j & Hj & Hlog & Hfree' & _). right.
    unfold RawMemory_delete. simpl in *. lia.
Qed.

Lemma Vector_delete_live xs v en :
  holds xs v →
  ∃ en', Vector_delete v en = Ok () en' ∧
         log_ en' = log_ en ++ map EvDestroy xs ++ dealloc_log v.
Proof.
  intros (Hsx & Hcx & Hlx). unfold Vector_delete. rewrite Hsx, Hcx.
  destruct (destroy_n_live_0 xs
    (replicate (capacity_ (data_ v) - length xs) None) en)
    as (en1 & -> & Hlog & _).
  eexists. split; first done.
  match goal with |- log_ (RawMemory_delete ?m ?e) = _ =>
    destruct (RawMemory_delete_log m e) as [_ ->] end.
  rewrite Hlog. unfold dealloc_log. simpl. by rewrite <- app_assoc.
Qed.

(** *** Shifts inside a region *)

Lemma lookup_mid2 {X} (pre : list X) a b rest :
  (pre ++ a :: b :: rest) !! S (length pre) = Some b.
Proof.
  rewrite (cons_middle a), app_assoc.
  apply list_lookup_middle. rewrite length_app. simpl. lia.
Qed.

Lemma insert_mid2 {X} (pre : list X) a b z rest :
  <[S (length pre) := z]> (pre ++ a :: b :: rest) = pre ++ a :: z :: rest.
Proof.
  rewrite (cons_middle a), app_assoc.
  replace (S (length pre)) with (length (pre ++ [a]))
    by (rewrite length_app; simpl; lia).
  rewrite insert_mid. by rewrite <- app_assoc.
Qed.

Lemma logged_move_assign y x en ok en' :
  do_move_assign y x en = (ok, en') →
  logged en en' (if ok then [EvMoveAssign x] else []).
Proof.
  unfold do_move_assign, logged. intros Hc.
  cases; simpl; by rewrite ?app_nil_r.
Qed.

Lemma shift_residue_cons y x xs :
  shift_residue (moved_from x) xs = shift_residue y (x :: xs).
Proof.
  unfold shift_residue. destruct xs as [|x' xs]; first done. simpl.
  destruct (last (x' :: xs)) eqn:Hl; [done | by apply last_None in Hl].
Qed.

Lemma std_move_live (pre : Cells) y xs post en :
  match std_move (pre ++ Some y :: map Some xs ++ post) (S (length pre))
                 (length xs) (length pre) en with
  | Ok _ (c, en') =>
      c = pre ++ map Some xs ++ Some (shift_residue y xs) :: post ∧
      logged en en' (map EvMoveAssign xs)
  | Throw (c, en') =>
      ∃ us, c = pre ++ map Some us ++ post ∧ length us = S (length xs)
  | Abort _ => False
  end.
Proof.
  revert pre y en. induction xs as [|x xs IH]; intros pre y en; simpl.
  - split; [done | apply logged_refl].
  - unfold move_assign_at. rewrite lookup_mid2, lookup_mid.
    destruct (do_move_assign y x en) as [ok en1] eqn:Hc.
    apply logged_move_assign in Hc. destruct ok.
    + rewrite insert_mid2, insert_mid.
      specialize (IH (pre ++ [Some x]) (moved_from x) en1).
      rewrite !length_app, !Nat.add_1_r, <- !app_assoc in IH. simpl in IH.
      destruct (std_move _ _ _ _ en1) as [[] [c en2]|[c en2]|]; last done.
      * destruct IH as [-> Hl]. rewrite shift_residue_cons with (y := y).
        split; first done.
        exact (logged_trans en en1 en2 [EvMoveAssign x] _ Hc Hl).
      * destruct IH as (us & -> & Hus). exists (x :: us).
        split; last (simpl; lia).
        by rewrite <- app_assoc.
    + by exists (y :: x :: xs).
Qed.

(** [std_move_live] with the region and offsets given by equations. *)
Lemma std_move_at (pre : Cells) y xs post en (c : Cells) f n d :
  c = pre ++ Some y :: map Some xs ++ post →
  f = S (length pre) → n = length xs → d = length pre →
  match std_move c f n d en with
  | Ok _ (c', en') =>
      c' = pre ++ map Some xs ++ Some (shift_residue y xs) :: post ∧
      logged en en' (map EvMoveAssign xs)
  | Throw (c', en') =>
      ∃ us, c' = pre ++ map Some us ++ post ∧ length us = S (length xs)
  | Abort _ => False
  end.
Proof. intros -> -> -> ->. apply std_move_live. Qed.

Lemma std_move_backward_live (pre : Cells) ws y post en :
  match std_move_backward (pre ++ map Some ws ++ Some y :: post)
          (length pre + length ws) (length ws)
          (S (length pre + length ws)) en with
  | Ok _ (c, en') =>
      c = pre ++ Some (shift_back_residue y ws) :: map Some ws ++ post ∧
      logged en en' (map EvMoveAssign (rev ws))
  | Throw (c, en') =>
      ∃ us, c = pre ++ map Some us ++ post ∧ length us = S (length ws)
  | Abort _ => False
  end.
Proof.
  revert y post en. induction ws as [|w ws IH] using rev_ind;
    intros y post en.
  - simpl. split; [done | apply logged_refl].
  - rewrite length_app. simpl.
    replace (length ws + 1) with (S (length ws)) by lia.
    replace (length pre + S (length ws)) with (S (length pre + length ws))
      by lia.
    simpl. unfold move_assign_at.
    rewrite map_app, <- app_assoc. simpl.
    rewrite (app_assoc pre (map Some ws)).
    replace (length pre + length ws) with (length (pre ++ map Some ws))
      by (rewrite length_app, length_map; lia).
    rewrite lookup_mid2, lookup_mid.
    destruct (do_move_assign y w en) as [ok en1] eqn:Hc.
    apply logged_move_assign in Hc. destruct ok.
    + rewrite insert_mid, insert_mid2.
      specialize (IH (moved_from w) (Some w :: post) en1).
      rewrite <- app_assoc.
      rewrite length_app, length_map.
      destruct (std_move_backward _ _ _ _ en1) as [[] [c en2]|[c en2]|];
        last done.
      * destruct IH as [-> Hl]. split.
        -- rewrite <- app_assoc. simpl. by destruct ws.
        -- rewrite rev_app_distr. simpl.
           exact (logged_trans en en1 en2 [EvMoveAssign w] _ Hc Hl).
      * destruct IH as (us & -> & Hus). exists (us ++ [w]).
        split; last (rewrite length_app; simpl; lia).
        by rewrite map_app, <- app_assoc.
    + exists (ws ++ [w; y]).
      split; last (rewrite length_app; simpl; lia).
      by rewrite map_app, <- !app_assoc.
Qed.

(** [std_move_backward_live] with the region and offsets given by
    equations. *)
Lemma std_move_backward_at (pre : Cells) ws y post en (c : Cells) l n dl :
  c = pre ++ map Some ws ++ Some y :: post →
  l = length pre + length ws → n = length ws → dl = S l →
  match std_move_backward c l n dl en with
  | Ok _ (c', en') =>
      c' = pre ++ Some (shift_back_residue y ws) :: map Some ws ++ post ∧
      logged en en' (map EvMoveAssign (rev ws))
  | Throw (c', en') =>
      ∃ us, c' = pre ++ map Some us ++ post ∧ length us = S (length ws)
  | Abort _ => False
  end.
Proof. intros -> -> -> ->. apply std_move_backward_live. Qed.

Lemma do_construct_abort a en r :
  do_construct a en = Abort r → r = Terminated.
Proof.
  unfold do_construct. intros Hc. destruct a as [a|y|y]; cases; try done.
  match goal with H : do_move _ _ = Abort _ |- _ =>
    by apply do_move_abort in H as [-> _] end.
Qed.

Lemma lookup_live_mid (pre : Cells) us post i :
  length pre ≤ i → i < length pre + length us →
  ∃ u, (pre ++ map Some us ++ post) !! i = Some (Some u).
Proof.
  intros Hlo Hhi.
  destruct (lookup_lt_is_Some_2 us (i - length pre) ltac:(lia)) as [u Hu].
  exists u. rewrite lookup_app_r by lia.
  rewrite lookup_app_l by (rewrite length_map; lia).
  by rewrite list_lookup_fmap, Hu.
Qed.

(** *** Emplace with room, before [end()], on known live slots *)

Lemma destroy_last_live (pre : Cells) us k n i en :
  length us = S n → i = length pre + n →
  ∃ us' en',
    length us' = n ∧
    destroy_at (pre ++ map Some us ++ replicate k None) i en
      = Some (pre ++ map Some us' ++ replicate (S k) None, en').
Proof.
  intros Hus ->.
  destruct us as [|u0 us0] using rev_ind; first done. clear IHus0.
  rewrite length_app in Hus. simpl in Hus.
  exists us0, (do_destroy u0 en). split; first lia.
  unfold destroy_at.
  rewrite map_app, <- app_assoc, app_assoc. simpl.
  replace (length pre + n) with (length (pre ++ map Some us0))
    by (rewrite length_app, length_map; lia).
  rewrite lookup_mid, insert_mid. by rewrite <- app_assoc.
Qed.

Lemma Emplace_shift_live_built offset a ini z v en :
  holds (ini ++ [z]) v → S (length ini) < Capacity v → offset ≤ length ini →
  match Emplace_shift offset a v en with
  | Ok r (v', en') =>
      ∃ x, built a x ∧ r = offset ∧
           holds (take offset ini ++ x :: drop offset ini ++ [moved_from z])
                 v' ∧
           buffer_ (data_ v') = buffer_ (data_ v) ∧
           Capacity v' = Capacity v
  | Throw (v', en') => valid v'
  | Abort r => r = Terminated
  end.
Proof.
  intros Hv Hroom Hoff. pose proof Hv as (Hsz & Hc & Hle).
  unfold Capacity in *.
  rewrite length_app in *. simpl in *.
  replace (length ini + 1) with (S (length ini)) in * by lia.
  unfold Emplace_shift.
  destruct (do_construct a en) as [temp en1|en1|r] eqn:Hcon;
    [|by eexists|by apply do_construct_abort in Hcon].
  pose proof (do_construct_built _ _ _ _ Hcon) as Hbuilt.
  rewrite Hsz. simpl. rewrite Nat.sub_0_r.
  set (k := capacity_ (data_ v) - S (S (length ini))).
  assert (cells_ (data_ v) =
          map Some ini ++ Some z :: None :: replicate k None) as Hcells.
  { rewrite Hc, map_app, <- app_assoc. simpl. do 2 f_equal.
    replace (capacity_ (data_ v) - S (length ini)) with (S k)
      by (unfold k; lia). done. }
  rewrite Hcells.
  assert ((map Some ini ++ Some z :: None :: replicate k None) !! length ini
          = Some (Some z)) as ->
    by (rewrite <- (length_map Some ini); apply lookup_mid).
  assert ((map Some ini ++ Some z :: None :: replicate k None)
            !! S (length ini) = Some None) as ->
    by (rewrite <- (length_map Some ini); apply lookup_mid2).
  assert (<[S (length ini) := Some z]>
            (<[length ini := Some (moved_from z)]>
               (map Some ini ++ Some z :: None :: replicate k None)) =
          map Some ini ++ Some (moved_from z) :: Some z :: replicate k None)
    as ->
    by (rewrite <- (length_map Some ini); by rewrite insert_mid, insert_mid2).
  destruct (do_move z en1) as [[] en2|en2|r] eqn:Hmv;
    [|by eexists|by apply do_move_abort in Hmv as [-> _]].
  assert (length (take offset ini) = offset) as Htk
    by (rewrite length_take; lia).
  (* the state a raise leaves, once the new last slot is destroyed *)
  assert (∀ us e,
    length us = S (S (length ini - offset)) →
    match
      match destroy_at (map Some (take offset ini) ++ map Some us ++
                        replicate k None) (S (length ini)) e with
      | Some (c4, en5) =>
          Throw (with_size (S (length ini)) (with_cells c4 v),
                 do_destroy temp en5)
      | None => @Abort nat _ UndefinedBehaviour
      end
    with
    | Ok _ _ => False
    | Throw (v', _) => valid v'
    | Abort _ => False
    end) as Hback.
  { intros us e Hus.
    destruct (destroy_last_live (map Some (take offset ini)) us k
                (S (length ini - offset)) (S (length ini)) e Hus)
      as (us' & e' & Hus' & ->).
    { rewrite length_map. lia. }
    exists (take offset ini ++ us'). unfold holds. simpl.
    rewrite length_app, Htk, Hus'.
    split_and!; [lia | | lia].
    rewrite map_app, <- app_assoc. do 2 f_equal.
    replace (capacity_ (data_ v) - (offset + S (length ini - offset)))
      with (S k) by (unfold k; lia).
    done. }
  pose proof (std_move_backward_at (map Some (take offset ini))
    (drop offset ini ++ [moved_from z]) z (replicate k None) en2
    (map Some ini ++ Some (moved_from z) :: Some z :: replicate k None)
    (S (length ini)) (S (length ini) - offset)
    (S (S (length ini)))) as Hb.
  rewrite !length_map, !length_app, length_drop, Htk in Hb. simpl in Hb.
  specialize (Hb
    ltac:(by rewrite map_app, <- !app_assoc, (app_assoc (map Some (take _ _))),
             <- map_app, take_drop)
    ltac:(lia) ltac:(lia) eq_refl).
  destruct (std_move_backward _ _ _ _ en2) as [[] [c2 en3]|[c2 en3]|];
    [| |done].
  - destruct Hb as [-> Hlog].
    assert (∀ w rest, (map Some (take offset ini) ++ w :: rest) !! offset
                      = Some w) as Hlk
      by (intros; apply list_lookup_middle; by rewrite length_map).
    assert (∀ w w' rest,
              <[offset := w']> (map Some (take offset ini) ++ w :: rest)
              = map Some (take offset ini) ++ w' :: rest) as Hins.
    { intros. rewrite <- Htk at 1.
      rewrite <- (length_map Some (take offset ini)). apply insert_mid. }
    rewrite Hlk.
    destruct (do_move_assign _ temp en3) as [ok en4] eqn:Hma.
    destruct ok.
    + rewrite Hins.
      exists temp. split_and!; [done | done | | done | done].
      unfold holds. simpl.
      rewrite !length_app. simpl. rewrite !length_app, length_drop, Htk.
      simpl. split_and!; try lia.
      rewrite !map_app. simpl. rewrite !map_app. simpl.
      repeat (rewrite <- app_assoc; simpl).
      do 4 f_equal. unfold k. f_equal. lia.
    + specialize (Hback
        (shift_back_residue z (drop offset ini ++ [moved_from z]) ::
           drop offset ini ++ [moved_from z]) en4).
      simpl in Hback. rewrite length_app, length_drop in Hback.
      simpl in Hback. specialize (Hback ltac:(lia)).
      by destruct (destroy_at _ _ en4) as [[]|].
  - destruct Hb as (us & -> & Hus).
    specialize (Hback us en3 ltac:(lia)).
    by destruct (destroy_at _ _ en3) as [[]|].
Qed.

Lemma Emplace_shift_live offset a ini z v en :
  holds (ini ++ [z]) v → S (length ini) < Capacity v → offset ≤ length ini →
  match Emplace_shift offset a v en with
  | Ok r (v', en') =>
      ∃ x, r = offset ∧
           holds (take offset ini ++ x :: drop offset ini ++ [moved_from z])
                 v' ∧
           buffer_ (data_ v') = buffer_ (data_ v) ∧
           Capacity v' = Capacity v
  | Throw (v', en') => valid v'
  | Abort r => r = Terminated
  end.
Proof.
  intros Hv Hroom Hoff.
  pose proof (Emplace_shift_live_built offset a ini z v en Hv Hroom Hoff)
    as Hs.
  destruct (Emplace_shift offset a v en) as [r [v' en']|[v' en']|];
    [|done|done].
  destruct Hs as (x & _ & Hx). by exists x.
Qed.

(** *** Erase on known live slots *)

Lemma Erase_live offset xs v en :
  holds xs v → offset < length xs →
  match Erase offset v en with
  | Ok r (v', en') =>
      r = offset ∧
      holds (take offset xs ++ drop (S offset) xs) v' ∧
      buffer_ (data_ v') = buffer_ (data_ v) ∧
      Capacity v' = Capacity v ∧
      ∃ x, xs !! offset = Some x ∧
           logged en en'
             (map EvMoveAssign (drop (S offset) xs) ++
              [EvDestroy (shift_residue x (drop (S offset) xs))])
  | Throw (v', en') => valid v'
  | Abort _ => False
  end.
Proof.
  intros (Hsz & Hc & Hle) Hoff. unfold Erase. rewrite Hsz.
  assert ((length xs <=? offset) = false) as -> by (apply Nat.leb_gt; lia).
  destruct (lookup_lt_is_Some_2 xs offset Hoff) as [x Hx].
  set (pad := replicate (capacity_ (data_ v) - length xs) None) in *.
  assert (length (take offset xs) = offset) as Htk
    by (rewrite length_take; lia).
  pose proof (std_move_at (map Some (take offset xs)) x
    (drop (S offset) xs) pad en (cells_ (data_ v)) (offset + 1)
    (length xs - (offset + 1)) offset) as Hm.
  rewrite length_map, length_drop, Htk in Hm.
  specialize (Hm
    ltac:(by rewrite Hc, <- (take_drop_middle xs offset x Hx) at 1;
          rewrite map_app, <- app_assoc)
    ltac:(lia) ltac:(lia) eq_refl).
  destruct (std_move _ _ _ _ en) as [[] [c en1]|[c en1]|]; [| |done].
  - destruct Hm as [-> Hlog1].
    unfold PopBack, with_cells, destroy_at. simpl. rewrite Hsz.
    assert ((length xs =? 0) = false) as -> by (apply Nat.eqb_neq; lia).
    rewrite app_assoc.
    assert (length xs - 1 =
            length (map Some (take offset xs) ++
                    map Some (drop (S offset) xs))) as ->
      by (rewrite length_app, !length_map, length_drop, Htk; lia).
    rewrite lookup_mid, insert_mid. simpl.
    split_and!; [done | | done | done |].
    + unfold holds. simpl.
      rewrite !length_app, !length_map, length_drop, Htk.
      split_and!; [done | | lia].
      rewrite map_app, <- !app_assoc. do 2 f_equal.
      unfold pad.
      replace (capacity_ (data_ v) - (offset + (length xs - S offset)))
        with (S (capacity_ (data_ v) - length xs)) by lia.
      done.
    + exists x. split; first done.
      eapply logged_trans; [exact Hlog1 | apply logged_destroy].
  - destruct Hm as (us & -> & Hus).
    exists (take offset xs ++ us). unfold holds. simpl.
    rewrite length_app, Htk, Hus.
    split_and!; [lia | | lia].
    rewrite map_app, <- app_assoc. do 3 f_equal. lia.
Qed.

Lemma index_holds zs v i : holds zs v → index i v = zs !! i.
Proof.
  intros (Hsz & Hc & Hle). unfold index. rewrite Hsz, Hc.
  destruct (i <? length zs) eqn:Hi; bool_facts.
  - rewrite lookup_app_l by (by rewrite length_map).
    rewrite list_lookup_fmap. by destruct (zs !! i).
  - symmetry. by apply lookup_ge_None.
Qed.

Lemma elements_holds zs v : holds zs v → elements v = map Some zs.
Proof.
  intros (Hsz & Hc & Hle). unfold elements. rewrite Hsz, Hc.
  by rewrite <- (length_map Some zs), take_app_length.
Qed.

(** *** Insert followed by Erase *)

Lemma take_drop_inserted {X} (l : list X) o x tl :
  o ≤ length l →
  take o (take o l ++ x :: tl) ++ drop (S o) (take o l ++ x :: tl)
  = take o l ++ tl.
Proof.
  intros Ho.
  assert (length (take o l) = o) as Hl by (rewrite length_take; lia).
  rewrite take_app_length' by done.
  rewrite (cons_middle x), app_assoc.
  rewrite drop_app_length'; first done.
  rewrite length_app. simpl. lia.
Qed.

(** With room and before [end()], what [Erase] gives back after [Emplace]
    is the old sequence with its last element moved-from. *)
Lemma Emplace_shift_then_Erase offset a ini z v en :
  holds (ini ++ [z]) v → S (length ini) < Capacity v → offset ≤ length ini →
  match Emplace offset a v en with
  | Ok r (v1, en1) =>
      match Erase r v1 en1 with
      | Ok _ (v2, _) => holds (ini ++ [moved_from z]) v2
      | Throw _ => True
      | Abort _ => False
      end
  | _ => True
  end.
Proof.
  intros Hv Hroom Hoff. pose proof Hv as (Hsz & _ & _).
  rewrite length_app in Hsz. simpl in Hsz.
  unfold Emplace, Capacity in *. rewrite Hsz.
  assert ((length ini + 1 <? offset) = false) as -> by (apply Nat.ltb_ge; lia).
  assert ((length ini + 1 =? capacity_ (data_ v)) = false) as ->
    by (apply Nat.eqb_neq; lia).
  assert ((offset =? length ini + 1) = false) as ->
    by (apply Nat.eqb_neq; lia).
  pose proof (Emplace_shift_live offset a ini z v en Hv Hroom Hoff) as Hs.
  destruct (Emplace_shift offset a v en) as [r [v1 en1]|?|]; [|done|done].
  destruct Hs as (x & -> & Hv1 & _).
  pose proof (Erase_live offset _ v1 en1 Hv1) as He.
  rewrite length_app, length_take in He. simpl in He.
  specialize (He ltac:(lia)).
  destruct (Erase offset v1 en1) as [r [v2 en2]|?|]; [|done|done].
  destruct He as (_ & Hv2 & _).
  by rewrite take_drop_inserted, app_assoc, take_drop in Hv2.
Qed.

(** On a full vector, [Erase] after [Emplace] gives the old sequence back. *)
Lemma Emplace_grow_then_Erase offset a xs v en :
  holds xs v → Size v = Capacity v → offset ≤ length xs →
  match Emplace offset a v en with
  | Ok r (v1, en1) =>
      match Erase r v1 en1 with
      | Ok _ (v2, _) => holds xs v2
      | Throw _ => True
      | Abort _ => False
      end
  | _ => True
  end.
Proof.
  intros Hv Hfull Hoff. pose proof Hv as (Hsz & _ & _).
  unfold Emplace, Size, Capacity in *. rewrite Hfull, Nat.eqb_refl.
  assert ((capacity_ (data_ v) <? offset) = false) as ->
    by (apply Nat.ltb_ge; lia).
  destruct (Emplace_grow offset a v en) as [r [v1 en1]|?|] eqn:Hg;
    [|done|done].
  destruct (Emplace_grow_ok offset a xs v en r v1 en1 Hv Hfull Hoff Hg)
    as (x & -> & Hv1 & _).
  pose proof (Erase_live offset _ v1 en1 Hv1) as He.
  rewrite length_app, length_take in He. simpl in He.
  specialize (He ltac:(lia)).
  destruct (Erase offset v1 en1) as [r [v2 en2]|?|]; [|done|done].
  destruct He as (_ & Hv2 & _).
  by rewrite take_drop_inserted, take_drop in Hv2.
Qed.

(** With room and at [end()], [Erase] after [Emplace] gives the old sequence
    back. *)
Lemma Emplace_back_then_Erase a xs v en :
  holds xs v → Size v < Capacity v →
  match Emplace (length xs) a v en with
  | Ok r (v1, en1) =>
      match Erase r v1 en1 with
      | Ok _ (v2, _) => holds xs v2
      | Throw _ => True
      | Abort _ => False
      end
  | _ => True
  end.
Proof.
  intros Hv Hroom. pose proof Hv as (Hsz & _ & _).
  unfold Emplace, Size, Capacity in *. rewrite Hsz in *.
  rewrite Nat.ltb_irrefl, Nat.eqb_refl.
  assert ((length xs =? capacity_ (data_ v)) = false) as ->
    by (apply Nat.eqb_neq; lia).
  destruct (EmplaceBack a v en) as [r [v1 en1]|?|] eqn:Hb; [|done|done].
  destruct (EmplaceBack_ok a xs v en r v1 en1 Hv Hb) as (x & _ & Hv1 & _).
  pose proof (Erase_live (length xs) _ v1 en1 Hv1) as He.
  rewrite length_app in He. simpl in He.
  specialize (He ltac:(lia)).
  destruct (Erase (length xs) v1 en1) as [r2 [v2 en2]|?|]; [|done|done].
  destruct He as (_ & Hv2 & _).
  rewrite take_app_length, drop_ge, app_nil_r in Hv2; first done.
  rewrite length_app. simpl. lia.
Qed.

(** *** Validity: the full invariant after every outcome *)

Lemma holds_valid xs v : holds xs v → valid v.
Proof. intros Hv. by exists xs. Qed.

Lemma valid_with_cells (v : vec) ws :
  length ws = size_ v → length ws ≤ capacity_ (data_ v) →
  valid (with_cells
           (map Some ws ++ replicate (capacity_ (data_ v) - length ws) None)
           v).
Proof. intros Hsz Hle. exists ws. split_and!; done. Qed.

Lemma Reserve_valid n xs v en :
  holds xs v →
  match Reserve n v en with
  | Ok _ (v', _) | Throw (v', _) => valid v'
  | Abort r => r = Terminated
  end.
Proof.
  intros Hv. pose proof Hv as (Hsz & Hc & Hle).
  destruct (decide (n ≤ capacity_ (data_ v))) as [Hfit|Hbig].
  { unfold Reserve. apply Nat.leb_le in Hfit. rewrite Hfit.
    by eapply holds_valid. }
  destruct (Reserve n v en) as [[] [v' en']|[v' en']|r] eqn:HR.
  - destruct (Reserve_ok n xs v en v' en' Hv ltac:(unfold Capacity; lia) HR)
      as (Hv' & _).
    by eapply holds_valid.
  - unfold Reserve in HR.
    destruct (n <=? capacity_ (data_ v)) eqn:Hn; bool_facts; first lia.
    destruct (RawMemory_new n en) as [m en1|en1|] eqn:Hnew; try done;
      last by (simplify_eq; eapply holds_valid).
    apply RawMemory_new_ok in Hnew as (-> & _). simpl in HR.
    rewrite Hsz, Hc in HR.
    destruct (0 <? length xs) eqn:Hpos;
      last by (destruct (destroy_n _ _ _ _) as [[]|]).
    pose proof (relocate_n_live_0 xs
      (replicate (capacity_ (data_ v) - length xs) None) n en1
      ltac:(lia)) as Hl.
    destruct (relocate_n _ _ _ _ _ en1) as [[] [[sc c] e2]|[[sc c] e2]|];
      [by destruct (destroy_n _ _ _ _) as [[]|] | | done].
    destruct Hl as (_ & _ & j & Hj & -> & _). simplify_eq.
    assert (length (left_behind (take j xs) ++ drop j xs) = length xs) as Hlen
      by (rewrite length_app, left_behind_length, length_take, length_drop;
          lia).
    rewrite <- Hlen at 1. apply valid_with_cells; lia.
  - unfold Reserve in HR.
    destruct (n <=? capacity_ (data_ v)) eqn:Hn; bool_facts; first lia.
    destruct (RawMemory_new n en) as [m en1|en1|] eqn:Hnew; try done.
    { apply RawMemory_new_ok in Hnew as (-> & _). simpl in HR.
      rewrite Hsz, Hc in HR.
      destruct (0 <? length xs) eqn:Hpos.
      - pose proof (relocate_n_live_0 xs
          (replicate (capacity_ (data_ v) - length xs) None) n en1
          ltac:(lia)) as Hl.
        destruct (relocate_n _ _ _ _ _ en1) as [[] [[sc c] e2]|[[sc c] e2]|];
          [| done | by destruct Hl; simplify_eq].
        destruct Hl as (-> & _).
        destruct (destroy_n_live_0 (left_behind xs)
          (replicate (capacity_ (data_ v) - length xs) None) e2)
          as (e3 & Hd & _).
        rewrite left_behind_length in Hd. by rewrite Hd in HR.
      - bool_facts. destruct xs; simpl in *; [done | lia]. }
    unfold RawMemory_new, Allocate in Hnew. cases; done.
Qed.

Lemma RawMemory_new_abort n en r : RawMemory_new n en ≠ Abort r.
Proof. unfold RawMemory_new, Allocate. cases; done. Qed.

Lemma EmplaceBack_valid a xs v en :
  holds xs v →
  match EmplaceBack a v en with
  | Ok _ (v', _) | Throw (v', _) => valid v'
  | Abort r => r = Terminated
  end.
Proof.
  intros Hv. pose proof Hv as (Hsz & Hc & Hle).
  destruct (EmplaceBack a v en) as [r [v' en']|[v' en']|r] eqn:HR.
  { destruct (EmplaceBack_ok a xs v en r v' en' Hv HR) as (x & _ & Hv' & _).
    by eapply holds_valid. }
  - (* a failure propagates *)
    unfold EmplaceBack, Capacity in HR. rewrite Hsz, Hc in HR.
    destruct (length xs =? capacity_ (data_ v)) eqn:Hfull; bool_facts.
    + pose proof (grown_capacity_gt (length xs)) as Hg.
      destruct (RawMemory_new _ en) as [m en1|en1|] eqn:Hnew; [| |done];
        last by (simplify_eq; eapply holds_valid).
      apply RawMemory_new_ok in Hnew as (-> & _). simpl in HR.
      rewrite construct_at_fresh in HR by lia.
      destruct (do_construct a en1) as [x en2|en2|r1] eqn:Hcon; [| |done];
        last by (simplify_eq; eapply holds_valid).
      match type of HR with context [relocate_n ?src 0 _ ?dst 0 ?e] =>
        pose proof (relocate_n_at [] xs
          (replicate (capacity_ (data_ v) - length xs) None) [] (length xs)
          (Some x :: replicate (grown_capacity (length xs) - S (length xs))
                       None) e src dst 0 (length xs) 0
          eq_refl eq_refl eq_refl eq_refl eq_refl (le_n _)) as Hl;
        destruct (relocate_n src 0 (length xs) dst 0 e)
          as [[] [[sc c] e3]|[[sc c] e3]|]; [| |done]
      end.
      * destruct Hl as (-> & _).
        destruct (destroy_n_live_0 (left_behind xs)
          (replicate (capacity_ (data_ v) - length xs) None) e3)
          as (e4 & Hd & _).
        rewrite left_behind_length in Hd. simpl in HR. by rewrite Hd in HR.
      * destruct Hl as (-> & _ & j & Hj & -> & _). simpl in HR.
        unfold destroy_at in HR.
        rewrite list_lookup_middle in HR by (by rewrite length_replicate).
        simplify_eq. simpl.
        rewrite <- (relocation_leaves_length xs j Hj) at 1.
        apply valid_with_cells; rewrite relocation_leaves_length; lia.
    + replace (capacity_ (data_ v) - length xs)
        with (S (capacity_ (data_ v) - S (length xs))) in HR by lia.
      rewrite construct_at_end in HR.
      destruct (do_construct a en) as [x en1|en1|r1] eqn:Hcon; simplify_eq.
      assert (map Some xs ++
                None :: replicate (capacity_ (data_ v) - S (length xs)) None
              = cells_ (data_ v)) as ->.
      { rewrite Hc. f_equal.
        replace (capacity_ (data_ v) - length xs)
          with (S (capacity_ (data_ v) - S (length xs))) by lia. done. }
      rewrite with_cells_same. by eapply holds_valid.
  - (* the program stops *)
    unfold EmplaceBack, Capacity in HR. rewrite Hsz, Hc in HR.
    destruct (length xs =? capacity_ (data_ v)) eqn:Hfull; bool_facts.
    + pose proof (grown_capacity_gt (length xs)) as Hg.
      destruct (RawMemory_new _ en) as [m en1|en1|] eqn:Hnew; [|done|];
        last by apply RawMemory_new_abort in Hnew.
      apply RawMemory_new_ok in Hnew as (-> & _). simpl in HR.
      rewrite construct_at_fresh in HR by lia.
      destruct (do_construct a en1) as [x en2|en2|r1] eqn:Hcon; [|done|];
        last by (simplify_eq; apply do_construct_abort in Hcon).
      match type of HR with context [relocate_n ?src 0 _ ?dst 0 ?e] =>
        pose proof (relocate_n_at [] xs
          (replicate (capacity_ (data_ v) - length xs) None) [] (length xs)
          (Some x :: replicate (grown_capacity (length xs) - S (length xs))
                       None) e src dst 0 (length xs) 0
          eq_refl eq_refl eq_refl eq_refl eq_refl (le_n _)) as Hl;
        destruct (relocate_n src 0 (length xs) dst 0 e)
          as [[] [[sc c] e3]|[[sc c] e3]|]
      end.
      * destruct Hl as (-> & _).
        destruct (destroy_n_live_0 (left_behind xs)
          (replicate (capacity_ (data_ v) - length xs) None) e3)
          as (e4 & Hd & _).
        rewrite left_behind_length in Hd. simpl in HR. by rewrite Hd in HR.
      * destruct Hl as (-> & _). simpl in HR. unfold destroy_at in HR.
        rewrite list_lookup_middle in HR by (by rewrite length_replicate).
        done.
      * destruct Hl as [-> _]. by simplify_eq.
    + replace (capacity_ (data_ v) - length xs)
        with (S (capacity_ (data_ v) - S (length xs))) in HR by lia.
      rewrite construct_at_end in HR.
      destruct (do_construct a en) as [x en1|en1|r1] eqn:Hcon; simplify_eq.
      by apply do_construct_abort in Hcon.
Qed.

Lemma Emplace_grow_fail offset a xs v en :
  holds xs v → size_ v = Capacity v → offset ≤ length xs →
  match Emplace_grow offset a v en with
  | Ok _ _ => True
  | Throw (v', _) => valid v'
  | Abort r => r = Terminated
  end.
Proof.
  intros Hv Hfull Hoff. pose proof Hv as (Hsz & Hc & Hle).
  unfold Capacity in Hfull.
  unfold Emplace_grow. rewrite Hsz, Hc.
  pose proof (grown_capacity_gt (length xs)) as Hg.
  set (g := grown_capacity (length xs)) in *.
  set (pad := replicate (capacity_ (data_ v) - length xs) None) in *.
  destruct (RawMemory_new g en) as [m en1|en1|] eqn:Hnew;
    [|by eapply holds_valid|by apply RawMemory_new_abort in Hnew].
  apply RawMemory_new_ok in Hnew as (-> & _). simpl.
  rewrite construct_at_fresh by lia.
  destruct (do_construct a en1) as [x en2|en2|] eqn:Hcon;
    [|by eapply holds_valid|by apply do_construct_abort in Hcon].
  pose proof (grow_prefix_live xs pad x (replicate (g - S offset) None)
                offset en2 Hoff) as Hp.
  destruct (grow_prefix _ _ _ en2) as [[] [[oc1 nc1] en3]|[[oc1 nc1] en3]|].
  - destruct Hp as (-> & -> & _).
    pose proof (grow_suffix_live (map Some (left_behind (take offset xs)))
                  (drop offset xs) pad (take offset xs ++ [x])
                  (g - S offset) offset (length xs) en3) as Hs.
    rewrite map_app, <- app_assoc in Hs. simpl in Hs.
    rewrite !length_map, left_behind_length, !length_app, !length_take,
      !length_drop in Hs.
    specialize (Hs ltac:(lia) ltac:(simpl; lia) ltac:(lia) ltac:(lia)).
    destruct (grow_suffix _ _ _ _ en3)
      as [[] [[oc2 nc2] en4]|[[oc2 nc2] en4]|].
    + destruct Hs as (-> & _).
      rewrite app_assoc, <- map_app, <- left_behind_app, take_drop.
      destruct (destroy_n_live_0 (left_behind xs) pad en4) as (en5 & Hd & _).
      rewrite left_behind_length in Hd. by rewrite Hd.
    + destruct Hs as (_ & ws & -> & Hws).
      rewrite app_assoc, <- map_app.
      assert (length (left_behind (take offset xs) ++ ws) = length xs) as Hlen
        by (rewrite length_app, left_behind_length, length_take, Hws; lia).
      unfold pad. rewrite <- Hlen at 1.
      apply valid_with_cells; lia.
    + by destruct Hs.
  - destruct Hp as (_ & ws & -> & Hws).
    unfold pad. rewrite <- Hws at 1. apply valid_with_cells; lia.
  - by destruct Hp.
Qed.

Lemma Emplace_grow_valid offset a xs v en :
  holds xs v → size_ v = Capacity v → offset ≤ length xs →
  match Emplace_grow offset a v en with
  | Ok _ (v', _) | Throw (v', _) => valid v'
  | Abort r => r = Terminated
  end.
Proof.
  intros Hv Hfull Hoff.
  pose proof (Emplace_grow_fail offset a xs v en Hv Hfull Hoff) as Hf.
  destruct (Emplace_grow offset a v en) as [r [v' en']|[v' en']|r] eqn:HR;
    [|done|done].
  destruct (Emplace_grow_ok offset a xs v en r v' en' Hv Hfull Hoff HR)
    as (x & _ & Hv' & _).
  by eapply holds_valid.
Qed.

Lemma lookup_after_live xs (y : option T) rest :
  (map Some xs ++ y :: rest) !! length xs = Some y.
Proof. apply list_lookup_middle. by rewrite length_map. Qed.

Lemma insert_after_live xs (y w : option T) rest :
  <[length xs := w]> (map Some xs ++ y :: rest) = map Some xs ++ w :: rest.
Proof. rewrite <- (length_map Some xs). apply insert_mid. Qed.

Lemma snoc_inv {X} (l : list X) : 0 < length l → ∃ ini z, l = ini ++ [z].
Proof.
  intros Hl. destruct l as [|z ini] using rev_ind; first (simpl in Hl; lia).
  by exists ini, z.
Qed.

Lemma Emplace_valid offset a xs v en :
  holds xs v → offset ≤ length xs →
  match Emplace offset a v en with
  | Ok _ (v', _) | Throw (v', _) => valid v'
  | Abort r => r = Terminated
  end.
Proof.
  intros Hv Hoff. pose proof Hv as (Hsz & Hc & Hle).
  unfold Emplace. rewrite Hsz.
  assert ((length xs <? offset) = false) as -> by (apply Nat.ltb_ge; lia).
  destruct (length xs =? Capacity v) eqn:Hfull; bool_facts.
  { apply (Emplace_grow_valid offset a xs v en Hv); [congruence | done]. }
  destruct (offset =? length xs) eqn:Hend; bool_facts.
  { pose proof (EmplaceBack_valid a xs v en Hv) as Hb.
    by destruct (EmplaceBack a v en) as [? []|[]|]. }
  destruct (snoc_inv xs ltac:(lia)) as (ini & z & ->).
  rewrite length_app in *. simpl in *. unfold Capacity in *.
  pose proof (Emplace_shift_live offset a ini z v en Hv
                ltac:(unfold Capacity; lia) ltac:(lia)) as Hs.
  destruct (Emplace_shift offset a v en) as [r [v' en']|[v' en']|];
    [|done|done].
  destruct Hs as (x & _ & Hv' & _). by eapply holds_valid.
Qed.

Lemma PopBack_valid xs v en :
  holds xs v → 0 < length xs →
  match PopBack v en with
  | Ok _ (v', _) => holds (take (length xs - 1) xs) v'
  | _ => False
  end.
Proof.
  intros (Hsz & Hc & Hle) Hpos. unfold PopBack. rewrite Hsz, Hc.
  assert ((length xs =? 0) = false) as -> by (apply Nat.eqb_neq; lia).
  destruct (snoc_inv xs Hpos) as (ini & z & ->).
  rewrite length_app in *. simpl in *.
  replace (length ini + 1 - 1) with (length ini) by lia.
  rewrite take_app_length.
  unfold destroy_at. rewrite map_app, <- app_assoc. simpl.
  rewrite lookup_after_live, insert_after_live.
  unfold holds. simpl. split_and!; [lia | | lia].
  f_equal.
  replace (capacity_ (data_ v) - length ini)
    with (S (capacity_ (data_ v) - (length ini + 1))) by lia.
  done.
Qed.

Lemma Resize_valid n xs v en :
  holds xs v →
  match Resize n v en with
  | Ok _ (v', _) | Throw (v', _) => valid v'
  | Abort r => r = Terminated
  end.
Proof.
  intros Hv. pose proof Hv as (Hsz & Hc & Hle). unfold Resize.
  rewrite Hsz.
  destruct (n <? length xs) eqn:Hlt; bool_facts.
  { rewrite Hc.
    assert (map Some xs ++
              replicate (capacity_ (data_ v) - length xs) None =
            map Some (take n xs) ++ map Some (drop n xs) ++
              replicate (capacity_ (data_ v) - length xs) None) as ->
      by (by rewrite app_assoc, <- map_app, take_drop).
    destruct (destroy_n_live (map Some (take n xs)) (drop n xs)
      (replicate (capacity_ (data_ v) - length xs) None) en)
      as (en1 & Hd & _).
    rewrite length_map, length_take, length_drop, Nat.min_l in Hd by lia.
    rewrite Hd. exists (take n xs). unfold holds. simpl.
    rewrite length_take, Nat.min_l by lia.
    split_and!; [done | | lia].
    rewrite <- replicate_add. do 2 f_equal. lia. }
  destruct (length xs <? n) eqn:Hgt; bool_facts;
    last by eapply holds_valid.
  pose proof (Reserve_valid n xs v en Hv) as Hval.
  destruct (Reserve n v en) as [[] [v1 en1]|[v1 en1]|] eqn:HR;
    [|done|done].
  assert (holds xs v1 ∧ n ≤ capacity_ (data_ v1)) as [Hv1 Hcap1].
  { destruct (decide (n ≤ capacity_ (data_ v))) as [Hfit|Hbig].
    - unfold Reserve in HR. apply Nat.leb_le in Hfit. rewrite Hfit in HR.
      apply Nat.leb_le in Hfit. by simplify_eq.
    - destruct (Reserve_ok n xs v en v1 en1 Hv ltac:(unfold Capacity; lia) HR)
        as (? & Hcap & _).
      unfold Capacity in Hcap. split; [done | lia]. }
  destruct Hv1 as (Hsz1 & Hc1 & Hle1). rewrite Hsz1, Hc1.
  pose proof (uninitialized_value_construct_n_live (map Some xs)
    (capacity_ (data_ v1) - length xs) [] (n - length xs) en1
    ltac:(lia)) as Hl.
  rewrite app_nil_r, length_map in Hl.
  destruct (uninitialized_value_construct_n _ _ _ en1)
    as [[] [c en2]|[c en2]|]; [| |done].
  - destruct Hl as (ds & Hlen & _ & -> & _).
    exists (xs ++ ds). unfold holds. simpl. rewrite length_app, Hlen.
    split_and!; [lia | | lia].
    rewrite map_app, ?app_nil_r, <- app_assoc. do 3 f_equal. lia.
  - destruct Hl as (-> & _). rewrite ?app_nil_r.
    apply valid_with_cells; [done | lia].
Qed.

Lemma step_valid op xs v en :
  holds xs v → op_pre op v →
  match step op v en with
  | Ok _ (v', _) | Throw (v', _) => valid v'
  | Abort r => r = Terminated
  end.
Proof.
  intros Hv Hpre. pose proof Hv as (Hsz & _).
  destruct op; simpl in *; unfold Size in *; rewrite ?Hsz in Hpre.
  - by apply (Resize_valid _ xs).
  - unfold PushBack_copy.
    pose proof (EmplaceBack_valid (CopyOf value) xs v en Hv) as Hb.
    by destruct (EmplaceBack _ v en) as [? []|[]|].
  - unfold PushBack_move.
    pose proof (EmplaceBack_valid (MoveOf value) xs v en Hv) as Hb.
    by destruct (EmplaceBack _ v en) as [? []|[]|].
  - pose proof (EmplaceBack_valid a xs v en Hv) as Hb.
    by destruct (EmplaceBack _ v en) as [? []|[]|].
  - pose proof (Emplace_valid offset a xs v en Hv Hpre) as Hb.
    by destruct (Emplace _ _ v en) as [? []|[]|].
  - pose proof (Emplace_valid offset (CopyOf value) xs v en Hv Hpre) as Hb.
    unfold Insert_copy. by destruct (Emplace _ _ v en) as [? []|[]|].
  - pose proof (Emplace_valid offset (MoveOf value) xs v en Hv Hpre) as Hb.
    unfold Insert_move. by destruct (Emplace _ _ v en) as [? []|[]|].
  - pose proof (Erase_live offset xs v en Hv Hpre) as Hb.
    destruct (Erase _ v en) as [? []|[]|]; [|done|done].
    destruct Hb as (_ & Hv' & _). by eapply holds_valid.
  - pose proof (PopBack_valid xs v en Hv Hpre) as Hb.
    destruct (PopBack v en) as [? []|[]|]; [|done|done].
    by eapply holds_valid.
  - by apply (Reserve_valid _ xs).
Qed.

Lemma holds_invariant xs v : holds xs v → invariant v.
Proof.
  intros Hv. pose proof (holds_length xs v Hv) as Hlen.
  destruct Hv as (Hsz & _ & Hle).
  split; [done | unfold Size, Capacity; lia].
Qed.

Lemma Vector_sized_valid n en :
  match Vector_sized n en with
  | Ok v _ => valid v
  | Throw _ => True
  | Abort _ => False
  end.
Proof.
  unfold Vector_sized.
  destruct (RawMemory_new n en) as [m en1|en1|] eqn:Hnew;
    [|done|by apply RawMemory_new_abort in Hnew].
  apply RawMemory_new_ok in Hnew as (-> & _). simpl.
  destruct (0 <? n) eqn:Hpos; bool_facts.
  - pose proof (uninitialized_value_construct_n_fresh n en1) as Hl.
    destruct (uninitialized_value_construct_n _ _ _ en1)
      as [[] [c en2]|[c en2]|]; [|done|done].
    destruct Hl as (xs & Hlen & _ & -> & _).
    exists xs. unfold holds. simpl. rewrite Hlen, Nat.sub_diag. simpl.
    by rewrite app_nil_r.
  - assert (n = 0) as -> by lia. by exists [].
Qed.

Lemma copy_assign_distinct_valid ys xs rhs this en :
  holds ys rhs → holds xs this →
  match copy_assign_distinct rhs this en with
  | Ok _ (v', _) | Throw (v', _) => valid v'
  | Abort _ => False
  end.
Proof.
  intros Hy Hx. pose proof Hy as (Hsy & _). pose proof Hx as (Hsx & _ & Hlx).
  unfold copy_assign_distinct, Capacity.
  destruct (capacity_ (data_ this) <? size_ rhs) eqn:Hbig; bool_facts.
  - pose proof (Vector_copy_live ys rhs en Hy) as Hc.
    destruct (Vector_copy rhs en) as [c en1|en1|];
      [|by eapply holds_valid|done].
    destruct Hc as (Hhc & _). unfold Swap.
    destruct (Vector_delete_live xs this en1 Hx) as (en2 & -> & _).
    by eapply holds_valid.
  - destruct (decide (length xs < length ys)) as [Hlt|Hge].
    + pose proof (AssignFrom_longer ys rhs xs this en Hy Hx
                    ltac:(unfold Capacity; lia) Hlt) as Ha.
      destruct (AssignFrom rhs this en) as [[] [v' en']|[v' en']|];
        [| |done].
      * destruct Ha as (? & _). by eapply holds_valid.
      * destruct Ha as (_ & _ & _ & _ & j & _ & _ & ?). by eapply holds_valid.
    + pose proof (AssignFrom_not_longer ys rhs xs this en Hy Hx
                    ltac:(lia)) as Ha.
      destruct (AssignFrom rhs this en) as [[] [v' en']|[v' en']|];
        [| |done].
      * destruct Ha as (? & _). by eapply holds_valid.
      * destruct Ha as (_ & _ & _ & _ & j & _ & _ & ?). by eapply holds_valid.
Qed.

(** *** Counting: what each algorithm does to the number of objects *)

Lemma net_app evs evs' : net (evs ++ evs') = (net evs + net evs')%Z.
Proof.
  unfold net. induction evs as [|ev evs IH]; simpl; first done.
  rewrite IH. lia.
Qed.

Lemma objects_emit ev en :
  objects (emit ev en) = (objects en + event_net ev)%Z.
Proof. unfold objects, emit. simpl. rewrite net_app. simpl. lia. Qed.

Lemma delta_refl en : delta 0 en en.
Proof. unfold delta. split_and!; [lia | done | done]. Qed.

Lemma delta_trans k k' en en1 en2 :
  delta k en en1 → delta k' en1 en2 → delta (k + k') en en2.
Proof. unfold delta. intros (? & ? & ?) (? & ? & ?). split_and!; lia. Qed.

Lemma delta_destroy x en : delta (-1) en (do_destroy x en).
Proof.
  unfold delta, do_destroy. rewrite objects_emit. simpl. done.
Qed.

Lemma delta_copy x en ok en' :
  do_copy x en = (ok, en') → delta (if ok then 1 else 0) en en'.
Proof.
  unfold do_copy, delta. intros Hc. cases; rewrite ?objects_emit; simpl;
    unfold objects; simpl; split_and!; lia.
Qed.

Lemma delta_move x en :
  match do_move x en with
  | Ok _ en' => delta 1 en en'
  | Throw en' => delta 0 en en'
  | Abort _ => True
  end.
Proof.
  unfold do_move, delta. cases; rewrite ?objects_emit; simpl;
    unfold objects; simpl; try done; split_and!; lia.
Qed.

Lemma delta_default en r en' :
  do_default en = (r, en') →
  delta (match r with Some _ => 1 | None => 0 end) en en'.
Proof.
  unfold do_default, delta. intros Hc. cases; rewrite ?objects_emit; simpl;
    unfold objects; simpl; split_and!; lia.
Qed.

Lemma delta_copy_assign y x en ok en' :
  do_copy_assign y x en = (ok, en') → delta 0 en en'.
Proof.
  unfold do_copy_assign, delta. intros Hc. cases; rewrite ?objects_emit;
    simpl; unfold objects; simpl; split_and!; lia.
Qed.

Lemma delta_move_assign y x en ok en' :
  do_move_assign y x en = (ok, en') → delta 0 en en'.
Proof.
  unfold do_move_assign, delta. intros Hc. cases; rewrite ?objects_emit;
    simpl; unfold objects; simpl; split_and!; lia.
Qed.

Lemma delta_construct a en :
  match do_construct a en with
  | Ok _ en' => delta 1 en en'
  | Throw en' => delta 0 en en'
  | Abort _ => True
  end.
Proof.
  unfold do_construct. destruct a as [a|x|x].
  - unfold delta. cases; rewrite ?objects_emit; simpl; unfold objects; simpl;
      split_and!; lia.
  - destruct (do_copy x en) as [ok en1] eqn:Hc. apply delta_copy in Hc.
    by destruct ok.
  - pose proof (delta_move x en) as Hm. by destruct (do_move x en).
Qed.

(** *** Counting: the live slots of a region *)

Lemma live_app (c c' : Cells) : live (c ++ c') = live c + live c'.
Proof. unfold live. by rewrite sum_list_with_app. Qed.

Lemma live_replicate n : live (replicate n None) = 0.
Proof. unfold live. induction n as [|n IH]; simpl; [done | exact IH]. Qed.

Lemma live_map_Some (xs : list T) : live (map Some xs) = length xs.
Proof. unfold live. induction xs as [|x xs IH]; simpl; [done | by rewrite IH]. Qed.

Lemma live_insert (c : Cells) i o o' :
  c !! i = Some o → live (<[i := o']> c) + weight o = live c + weight o'.
Proof.
  intros Hi. pose proof (lookup_lt_Some _ _ _ Hi) as Hlt.
  rewrite insert_take_drop by done.
  rewrite <- (take_drop_middle c i o Hi) at 3.
  rewrite !live_app. unfold live. simpl. lia.
Qed.

Lemma live_holds xs v : holds xs v → counted v.
Proof.
  intros (Hsz & Hc & _). unfold counted.
  by rewrite Hc, live_app, live_map_Some, live_replicate, Hsz, Nat.add_0_r.
Qed.

Lemma live_le_length (c : Cells) : live c ≤ length c.
Proof.
  unfold live. induction c as [|[x|] c IH]; simpl; lia.
Qed.

(** *** Counting: the algorithms *)

Lemma destroy_n_count (c : Cells) f n en c' en' :
  destroy_n c f n en = Some (c', en') →
  delta (- Z.of_nat n) en en' ∧ live c' + n = live c.
Proof.
  revert c f en. induction n as [|n IH]; intros c f en; simpl.
  - intros [= <- <-]. split; [apply delta_refl | lia].
  - destruct (c !! f) as [[x|]|] eqn:Hf; try done.
    intros Hd. apply IH in Hd as [Hd Hl].
    pose proof (live_insert c f (Some x) None Hf) as Hi. simpl in Hi.
    split; last lia.
    replace (- Z.of_nat (S n))%Z with (-1 + - Z.of_nat n)%Z by lia.
    eapply delta_trans; [apply delta_destroy | done].
Qed.

Lemma destroy_at_count (c : Cells) i en c' en' :
  destroy_at c i en = Some (c', en') →
  delta (-1) en en' ∧ live c' + 1 = live c.
Proof.
  unfold destroy_at. destruct (c !! i) as [[x|]|] eqn:Hf; try done.
  intros [= <- <-].
  pose proof (live_insert c i (Some x) None Hf) as Hi. simpl in Hi.
  split; [apply delta_destroy | lia].
Qed.

Lemma copy_loop_count (src : Cells) s n dst d en :
  match copy_loop src s n dst d en with
  | Ok _ (cur, dst', en') =>
      delta (Z.of_nat n) en en' ∧ live dst' = live dst + n
  | Throw (cur, dst', en') =>
      ∃ k, cur = d + k ∧ delta (Z.of_nat k) en en' ∧
           live dst' = live dst + k
  | Abort _ => True
  end.
Proof.
  revert s dst d en. induction n as [|n IH]; intros s dst d en; simpl.
  - split; [apply delta_refl | lia].
  - destruct (src !! s) as [[x|]|]; try done.
    destruct (dst !! d) as [[y|]|] eqn:Hd; try done.
    destruct (do_copy x en) as [ok en1] eqn:Hc. apply delta_copy in Hc.
    destruct ok.
    + pose proof (live_insert dst d None (Some x) Hd) as Hi. simpl in Hi.
      specialize (IH (S s) (<[d := Some x]> dst) (S d) en1).
      destruct (copy_loop _ _ _ _ _ en1) as [[] [[cur c] en2]|[[cur c] en2]|];
        last done.
      * destruct IH as [Hk Hl]. split; last lia.
        replace (Z.of_nat (S n)) with (1 + Z.of_nat n)%Z by lia.
        by eapply delta_trans.
      * destruct IH as (k & -> & Hk & Hl). exists (S k).
        split_and!; [lia | | lia].
        replace (Z.of_nat (S k)) with (1 + Z.of_nat k)%Z by lia.
        by eapply delta_trans.
    + exists 0. split_and!; [lia | done | lia].
Qed.

Lemma uninitialized_copy_n_count (src : Cells) s n dst d en :
  match uninitialized_copy_n src s n dst d en with
  | Ok _ (dst', en') =>
      delta (Z.of_nat n) en en' ∧ live dst' = live dst + n
  | Throw (dst', en') => delta 0 en en' ∧ live dst' = live dst
  | Abort _ => True
  end.
Proof.
  unfold uninitialized_copy_n.
  pose proof (copy_loop_count src s n dst d en) as Hl.
  destruct (copy_loop src s n dst d en) as [[] [[cur c] en1]|[[cur c] en1]|];
    [done| |done].
  destruct Hl as (k & -> & Hk & Hl).
  replace (d + k - d) with k by lia.
  destruct (destroy_n c d k en1) as [[c' en2]|] eqn:Hd; last done.
  apply destroy_n_count in Hd as [Hd Hl'].
  split; last lia.
  replace 0%Z with (Z.of_nat k + - Z.of_nat k)%Z by lia.
  by eapply delta_trans.
Qed.

Lemma move_loop_count (src : Cells) s n dst d en :
  match move_loop src s n dst d en with
  | Ok _ (cur, src', dst', en') =>
      delta (Z.of_nat n) en en' ∧ live dst' = live dst + n ∧
      live src' = live src
  | Throw (cur, src', dst', en') =>
      ∃ k, cur = d + k ∧ delta (Z.of_nat k) en en' ∧
           live dst' = live dst + k ∧ live src' = live src
  | Abort _ => True
  end.
Proof.
  revert src s dst d en.
  induction n as [|n IH]; intros src s dst d en; simpl.
  - split_and!; [apply delta_refl | lia | done].
  - destruct (src !! s) as [[x|]|] eqn:Hs; try done.
    destruct (dst !! d) as [[y|]|] eqn:Hd; try done.
    pose proof (delta_move x en) as Hc.
    destruct (do_move x en) as [[] en1|en1|]; last done.
    + pose proof (live_insert dst d None (Some x) Hd) as Hi. simpl in Hi.
      pose proof (live_insert src s (Some x) (Some (moved_from x)) Hs) as Hj.
      simpl in Hj.
      specialize (IH (<[s := Some (moved_from x)]> src) (S s)
                     (<[d := Some x]> dst) (S d) en1).
      destruct (move_loop _ _ _ _ _ en1)
        as [[] [[[cur sc] c] en2]|[[[cur sc] c] en2]|]; last done.
      * destruct IH as (Hk & Hl & Hl'). split_and!; [| lia | lia].
        replace (Z.of_nat (S n)) with (1 + Z.of_nat n)%Z by lia.
        by eapply delta_trans.
      * destruct IH as (k & -> & Hk & Hl & Hl'). exists (S k).
        split_and!; [lia | | lia | lia].
        replace (Z.of_nat (S k)) with (1 + Z.of_nat k)%Z by lia.
        by eapply delta_trans.
    + exists 0. split_and!; [lia | done | lia | done].
Qed.

Lemma uninitialized_move_n_count (src : Cells) s n dst d en :
  match uninitialized_move_n src s n dst d en with
  | Ok _ (src', dst', en') =>
      delta (Z.of_nat n) en en' ∧ live dst' = live dst + n ∧
      live src' = live src
  | Throw (src', dst', en') =>
      delta 0 en en' ∧ live dst' = live dst ∧ live src' = live src
  | Abort _ => True
  end.
Proof.
  unfold uninitialized_move_n.
  pose proof (move_loop_count src s n dst d en) as Hl.
  destruct (move_loop src s n dst d en)
    as [[] [[[cur sc] c] en1]|[[[cur sc] c] en1]|]; [done| |done].
  destruct Hl as (k & -> & Hk & Hl & Hl').
  replace (d + k - d) with k by lia.
  destruct (destroy_n c d k en1) as [[c' en2]|] eqn:Hd; last done.
  apply destroy_n_count in Hd as [Hd Hl''].
  split_and!; [| lia | done].
  replace 0%Z with (Z.of_nat k + - Z.of_nat k)%Z by lia.
  by eapply delta_trans.
Qed.

Lemma relocate_n_count (src : Cells) s n dst d en :
  match relocate_n src s n dst d en with
  | Ok _ (src', dst', en') =>
      delta (Z.of_nat n) en en' ∧ live dst' = live dst + n ∧
      live src' = live src
  | Throw (src', dst', en') =>
      delta 0 en en' ∧ live dst' = live dst ∧ live src' = live src
  | Abort _ => True
  end.
Proof.
  unfold relocate_n. destruct relocate_by_move.
  - apply uninitialized_move_n_count.
  - pose proof (uninitialized_copy_n_count src s n dst d en) as Hl.
    destruct (uninitialized_copy_n src s n dst d en) as [[] []|[]|];
      [| |done]; by destruct Hl.
Qed.

Lemma value_loop_count (dst : Cells) d n en :
  match value_loop dst d n en with
  | Ok _ (cur, dst', en') =>
      delta (Z.of_nat n) en en' ∧ live dst' = live dst + n
  | Throw (cur, dst', en') =>
      ∃ k, cur = d + k ∧ delta (Z.of_nat k) en en' ∧
           live dst' = live dst + k
  | Abort _ => True
  end.
Proof.
  revert dst d en. induction n as [|n IH]; intros dst d en; simpl.
  - split; [apply delta_refl | lia].
  - destruct (dst !! d) as [[y|]|] eqn:Hd; try done.
    destruct (do_default en) as [[x|] en1] eqn:Hc; apply delta_default in Hc.
    + pose proof (live_insert dst d None (Some x) Hd) as Hi. simpl in Hi.
      specialize (IH (<[d := Some x]> dst) (S d) en1).
      destruct (value_loop _ _ _ en1) as [[] [[cur c] en2]|[[cur c] en2]|];
        last done.
      * destruct IH as [Hk Hl]. split; last lia.
        replace (Z.of_nat (S n)) with (1 + Z.of_nat n)%Z by lia.
        by eapply delta_trans.
      * destruct IH as (k & -> & Hk & Hl). exists (S k).
        split_and!; [lia | | lia].
        replace (Z.of_nat (S k)) with (1 + Z.of_nat k)%Z by lia.
        by eapply delta_trans.
    + exists 0. split_and!; [lia | done | lia].
Qed.

Lemma uninitialized_value_construct_n_count (dst : Cells) d n en :
  match uninitialized_value_construct_n dst d n en with
  | Ok _ (dst', en') =>
      delta (Z.of_nat n) en en' ∧ live dst' = live dst + n
  | Throw (dst', en') => delta 0 en en' ∧ live dst' = live dst
  | Abort _ => True
  end.
Proof.
  unfold uninitialized_value_construct_n.
  pose proof (value_loop_count dst d n en) as Hl.
  destruct (value_loop dst d n en) as [[] [[cur c] en1]|[[cur c] en1]|];
    [done| |done].
  destruct Hl as (k & -> & Hk & Hl).
  replace (d + k - d) with k by lia.
  destruct (destroy_n c d k en1) as [[c' en2]|] eqn:Hd; last done.
  apply destroy_n_count in Hd as [Hd Hl'].
  split; last lia.
  replace 0%Z with (Z.of_nat k + - Z.of_nat k)%Z by lia.
  by eapply delta_trans.
Qed.

Lemma construct_at_count (c : Cells) i a en :
  match construct_at c i a en with
  | Ok _ (c', en') => delta 1 en en' ∧ live c' = live c + 1
  | Throw (c', en') => delta 0 en en' ∧ c' = c
  | Abort _ => True
  end.
Proof.
  unfold construct_at. destruct (c !! i) as [[y|]|] eqn:Hi; try done.
  pose proof (delta_construct a en) as Hc.
  destruct (do_construct a en) as [x en1|en1|]; [|done|done].
  pose proof (live_insert c i None (Some x) Hi) as Hl. simpl in Hl.
  split; [done | lia].
Qed.

Lemma std_copy_count (src : Cells) s n dst d en :
  match std_copy src s n dst d en with
  | Ok _ (dst', en') | Throw (dst', en') =>
      delta 0 en en' ∧ live dst' = live dst
  | Abort _ => True
  end.
Proof.
  revert s dst d en. induction n as [|n IH]; intros s dst d en; simpl.
  - split; [apply delta_refl | done].
  - destruct (src !! s) as [[x|]|]; try done.
    destruct (dst !! d) as [[y|]|] eqn:Hd; try done.
    destruct (do_copy_assign y x en) as [ok en1] eqn:Hc.
    apply delta_copy_assign in Hc. destruct ok; last done.
    pose proof (live_insert dst d (Some y) (Some x) Hd) as Hi. simpl in Hi.
    specialize (IH (S s) (<[d := Some x]> dst) (S d) en1).
    destruct (std_copy _ _ _ _ _ en1) as [[] [c en2]|[c en2]|]; last done.
    all: destruct IH as [Hk Hl]; split; [| lia].
    all: replace 0%Z with (0 + 0)%Z by lia; by eapply delta_trans.
Qed.

Lemma move_assign_at_count (c : Cells) f d en :
  match move_assign_at c f d en with
  | Ok _ (c', en') | Throw (c', en') => delta 0 en en' ∧ live c' = live c
  | Abort _ => True
  end.
Proof.
  unfold move_assign_at.
  destruct (c !! f) as [[x|]|] eqn:Hf; try done.
  destruct (c !! d) as [[y|]|] eqn:Hd; try done.
  destruct (do_move_assign y x en) as [ok en1] eqn:Hc.
  apply delta_move_assign in Hc. destruct ok; last done.
  split; first done.
  pose proof (live_insert c f (Some x) (Some (moved_from x)) Hf) as Hi.
  simpl in Hi.
  destruct (decide (f = d)) as [->|Hne].
  - rewrite list_insert_insert_eq.
    pose proof (live_insert c d (Some x) (Some x) Hf) as Hj. simpl in Hj.
    lia.
  - pose proof (live_insert (<[f := Some (moved_from x)]> c) d (Some y)
                  (Some x)) as Hj.
    rewrite list_lookup_insert_ne in Hj by done.
    specialize (Hj Hd). simpl in Hj. lia.
Qed.

Lemma std_move_count (c : Cells) f n d en :
  match std_move c f n d en with
  | Ok _ (c', en') | Throw (c', en') => delta 0 en en' ∧ live c' = live c
  | Abort _ => True
  end.
Proof.
  revert c f d en. induction n as [|n IH]; intros c f d en; simpl.
  - split; [apply delta_refl | done].
  - pose proof (move_assign_at_count c f d en) as Hm.
    destruct (move_assign_at c f d en) as [[] [c1 en1]|[c1 en1]|];
      [|done|done].
    specialize (IH c1 (S f) (S d) en1). destruct Hm as [Hk Hl].
    destruct (std_move c1 (S f) n (S d) en1) as [[] [c2 en2]|[c2 en2]|];
      last done.
    all: destruct IH as [Hk' Hl']; split; [| lia].
    all: replace 0%Z with (0 + 0)%Z by lia; by eapply delta_trans.
Qed.

Lemma std_move_backward_count (c : Cells) l n dl en :
  match std_move_backward c l n dl en with
  | Ok _ (c', en') | Throw (c', en') => delta 0 en en' ∧ live c' = live c
  | Abort _ => True
  end.
Proof.
  revert c l dl en. induction n as [|n IH]; intros c l dl en; simpl.
  - split; [apply delta_refl | done].
  - destruct l as [|l], dl as [|dl]; try done.
    pose proof (move_assign_at_count c l dl en) as Hm.
    destruct (move_assign_at c l dl en) as [[] [c1 en1]|[c1 en1]|];
      [|done|done].
    specialize (IH c1 l dl en1). destruct Hm as [Hk Hl].
    destruct (std_move_backward c1 l n dl en1) as [[] [c2 en2]|[c2 en2]|];
      last done.
    all: destruct IH as [Hk' Hl']; split; [| lia].
    all: replace 0%Z with (0 + 0)%Z by lia; by eapply delta_trans.
Qed.

Lemma grow_prefix_count (oc : Cells) offset nc en :
  match grow_prefix oc offset nc en with
  | Ok _ (oc', nc', en') =>
      delta (Z.of_nat offset) en en' ∧ live nc' = live nc + offset ∧
      live oc' = live oc
  | Throw (oc', nc', en') =>
      delta (-1) en en' ∧ live nc' + 1 = live nc ∧ live oc' = live oc
  | Abort _ => True
  end.
Proof.
  unfold grow_prefix. destruct (0 <? offset) eqn:Hpos; bool_facts.
  - pose proof (relocate_n_count oc 0 offset nc 0 en) as Hr.
    destruct (relocate_n oc 0 offset nc 0 en)
      as [[] [[sc c] e1]|[[sc c] e1]|]; [done| |done].
    destruct Hr as (Hk & Hl & Hl').
    destruct (destroy_at c offset e1) as [[c' e2]|] eqn:Hd; last done.
    apply destroy_at_count in Hd as [Hd Hl''].
    split_and!; [| lia | done].
    replace (-1)%Z with (0 + -1)%Z by lia. by eapply delta_trans.
  - assert (offset = 0) as -> by lia.
    split_and!; [apply delta_refl | lia | done].
Qed.

Lemma grow_suffix_count (oc : Cells) offset size nc en :
  match grow_suffix oc offset size nc en with
  | Ok _ (oc', nc', en') =>
      delta (Z.of_nat (size - offset)) en en' ∧
      live nc' = live nc + (size - offset) ∧ live oc' = live oc
  | Throw (oc', nc', en') =>
      delta (- Z.of_nat (offset + 1)) en en' ∧
      live nc' + (offset + 1) = live nc ∧ live oc' = live oc
  | Abort _ => True
  end.
Proof.
  unfold grow_suffix. destruct (offset <? size) eqn:Hpos; bool_facts.
  - pose proof (relocate_n_count oc offset (size - offset) nc (offset + 1) en)
      as Hr.
    destruct (relocate_n oc offset (size - offset) nc (offset + 1) en)
      as [[] [[sc c] e1]|[[sc c] e1]|]; [done| |done].
    destruct Hr as (Hk & Hl & Hl').
    destruct (destroy_n c 0 (offset + 1) e1) as [[c' e2]|] eqn:Hd; last done.
    apply destroy_n_count in Hd as [Hd Hl''].
    split_and!; [| lia | done].
    replace (- Z.of_nat (offset + 1))%Z
      with (0 + - Z.of_nat (offset + 1))%Z by lia.
    by eapply delta_trans.
  - replace (size - offset) with 0 by lia.
    split_and!; [apply delta_refl | lia | done].
Qed.

(** The allocator moves storage, not objects. *)
Lemma RawMemory_new_count n en :
  match RawMemory_new n en with
  | Ok m en' =>
      objects en' = objects en ∧ free_ en' + n = free_ en ∧
      capacity_ m = n ∧ cells_ m = replicate n None ∧
      (buffer_ m = 0 → n = 0)
  | Throw en' => en' = en
  | Abort _ => False
  end.
Proof.
  unfold RawMemory_new, Allocate.
  destruct (n =? 0) eqn:Hn; bool_facts.
  - subst n. simpl. split_and!; try done; lia.
  - destruct (n <=? free_ en) eqn:Hfree; bool_facts; last done.
    simpl. unfold objects. simpl. rewrite net_app. simpl.
    split_and!; try done; lia.
Qed.

Lemma RawMemory_delete_count m en :
  objects (RawMemory_delete m en) = objects en ∧
  free_ (RawMemory_delete m en) =
    free_ en + (if buffer_ m =? 0 then 0 else capacity_ m).
Proof.
  unfold RawMemory_delete. destruct (buffer_ m =? 0); simpl.
  - split; [done | lia].
  - unfold objects. simpl. rewrite net_app. simpl. split; [lia | done].
Qed.

(** *** Accounting: objects and storage across each operation *)

Ltac count_call :=
  match goal with
  | |- context [RawMemory_new ?n ?e] =>
      let H := fresh "Hnew" in
      pose proof (RawMemory_new_count n e) as H;
      destruct (RawMemory_new n e) as [[? ? ?] ?|?|]
  | |- context [construct_at ?c ?i ?a ?e] =>
      let H := fresh "Hcon" in
      pose proof (construct_at_count c i a e) as H;
      destruct (construct_at c i a e) as [[] [? ?]|[? ?]|]
  | |- context [relocate_n ?a ?b ?c ?d ?f ?e] =>
      let H := fresh "Hrel" in
      pose proof (relocate_n_count a b c d f e) as H;
      destruct (relocate_n a b c d f e) as [[] [[? ?] ?]|[[? ?] ?]|]
  | |- context [grow_prefix ?a ?b ?c ?e] =>
      let H := fresh "Hpre" in
      pose proof (grow_prefix_count a b c e) as H;
      destruct (grow_prefix a b c e) as [[] [[? ?] ?]|[[? ?] ?]|]
  | |- context [grow_suffix ?a ?b ?c ?d ?e] =>
      let H := fresh "Hsuf" in
      pose proof (grow_suffix_count a b c d e) as H;
      destruct (grow_suffix a b c d e) as [[] [[? ?] ?]|[[? ?] ?]|]
  | |- context [uninitialized_copy_n ?a ?b ?c ?d ?f ?e] =>
      let H := fresh "Hcp" in
      pose proof (uninitialized_copy_n_count a b c d f e) as H;
      destruct (uninitialized_copy_n a b c d f e) as [[] [? ?]|[? ?]|]
  | |- context [uninitialized_value_construct_n ?a ?b ?c ?e] =>
      let H := fresh "Hval" in
      pose proof (uninitialized_value_construct_n_count a b c e) as H;
      destruct (uninitialized_value_construct_n a b c e) as [[] [? ?]|[? ?]|]
  | |- context [std_copy ?a ?b ?c ?d ?f ?e] =>
      let H := fresh "Hsc" in
      pose proof (std_copy_count a b c d f e) as H;
      destruct (std_copy a b c d f e) as [[] [? ?]|[? ?]|]
  | |- context [std_move_backward ?a ?b ?c ?d ?e] =>
      let H := fresh "Hmb" in
      pose proof (std_move_backward_count a b c d e) as H;
      destruct (std_move_backward a b c d e) as [[] [? ?]|[? ?]|]
  | |- context [std_move ?a ?b ?c ?d ?e] =>
      let H := fresh "Hmv" in
      pose proof (std_move_count a b c d e) as H;
      destruct (std_move a b c d e) as [[] [? ?]|[? ?]|]
  | |- context [destroy_n ?a ?b ?c ?e] =>
      let H := fresh "Hdn" in
      destruct (destroy_n a b c e) as [[? ?]|] eqn:H;
      [apply destroy_n_count in H|]
  | |- context [destroy_at ?a ?b ?e] =>
      let H := fresh "Hda" in
      destruct (destroy_at a b e) as [[? ?]|] eqn:H;
      [apply destroy_at_count in H|]
  end; simpl in *; try done.

Ltac count_finish :=
  unfold accounted, counted, null_is_empty, delta, with_cells, with_size,
    set_cells in *;
  simpl in *; destruct_and?; subst; simpl in *;
  repeat match goal with
  | |- context [RawMemory_delete ?m ?e] =>
      let Ho := fresh in let Hf := fresh in
      destruct (RawMemory_delete_count m e) as [Ho Hf];
      simpl in Ho, Hf;
      generalize dependent (RawMemory_delete m e); intros
  end;
  repeat match goal with
  | H : context [if ?b =? 0 then _ else _] |- _ =>
      destruct (b =? 0) eqn:?; bool_facts
  end;
  rewrite ?live_replicate in *;
  split_and?; try lia.

Lemma EmplaceBack_accounted a v en :
  counted v → null_is_empty v →
  match EmplaceBack a v en with
  | Ok _ (v', en') | Throw (v', en') => accounted v en v' en'
  | Abort _ => True
  end.
Proof.
  intros Hc Hn. unfold EmplaceBack, Capacity.
  destruct (size_ v =? capacity_ (data_ v)) eqn:Hfull; bool_facts.
  - repeat count_call; count_finish.
  - repeat count_call; count_finish.
Qed.

Lemma Emplace_grow_accounted offset a v en :
  counted v → null_is_empty v → offset ≤ size_ v →
  match Emplace_grow offset a v en with
  | Ok _ (v', en') | Throw (v', en') => accounted v en v' en'
  | Abort _ => True
  end.
Proof.
  intros Hc Hn Hoff. unfold Emplace_grow.
  repeat count_call; count_finish.
Qed.

Lemma Emplace_shift_accounted offset a v en :
  counted v → null_is_empty v →
  match Emplace_shift offset a v en with
  | Ok _ (v', en') | Throw (v', en') => accounted v en v' en'
  | Abort _ => True
  end.
Proof.
  intros Hc Hn. unfold Emplace_shift.
  pose proof (delta_construct a en) as Hcon.
  destruct (do_construct a en) as [temp en1|en1|]; [| count_finish | done].
  destruct (size_ v) as [|k] eqn:Hsz; [done|].
  destruct (cells_ (data_ v) !! (S k - 1)) as [[x|]|] eqn:Hlast; try done.
  destruct (cells_ (data_ v) !! S k) as [[|]|] eqn:Hend; try done.
  pose proof (delta_move x en1) as Hmv.
  destruct (do_move x en1) as [[] en2|en2|]; [| | done].
  - pose proof (live_insert _ _ _ (Some (moved_from x)) Hlast) as Hl1.
    assert (<[S k - 1 := Some (moved_from x)]> (cells_ (data_ v)) !! S k
            = Some None) as Hend'
      by (rewrite list_lookup_insert_ne by lia; done).
    pose proof (live_insert _ _ _ (Some x) Hend') as Hl2.
    simpl in Hl1, Hl2.
    count_call.
    + destruct (l !! offset) as [[y|]|] eqn:Hy; try done.
      destruct (do_move_assign y temp e) as [ok en4] eqn:Hma.
      apply delta_move_assign in Hma.
      pose proof (live_insert _ _ _ (Some temp) Hy) as Hl3. simpl in Hl3.
      destruct ok.
      * pose proof (delta_destroy (moved_from temp) en4).
        count_finish.
      * count_call. pose proof (delta_destroy temp e0). count_finish.
    + count_call. pose proof (delta_destroy temp e0). count_finish.
  - pose proof (delta_destroy temp en2). count_finish.
Qed.

Lemma Emplace_accounted offset a v en :
  counted v → null_is_empty v →
  match Emplace offset a v en with
  | Ok _ (v', en') | Throw (v', en') => accounted v en v' en'
  | Abort _ => True
  end.
Proof.
  intros Hc Hn. unfold Emplace.
  destruct (size_ v <? offset) eqn:Hoff; [done|]. bool_facts.
  destruct (size_ v =? Capacity v);
    [apply Emplace_grow_accounted; [done | done | lia]|].
  destruct (offset =? size_ v); [|by apply Emplace_shift_accounted].
  pose proof (EmplaceBack_accounted a v en Hc Hn) as Hb.
  by destruct (EmplaceBack a v en) as [? [? ?]|[? ?]|].
Qed.

Lemma PopBack_accounted v en :
  counted v → null_is_empty v →
  match PopBack v en with
  | Ok _ (v', en') | Throw (v', en') => accounted v en v' en'
  | Abort _ => True
  end.
Proof.
  intros Hc Hn. unfold PopBack.
  destruct (size_ v =? 0) eqn:Hz; [done|]. bool_facts.
  count_call. count_finish.
Qed.

Lemma Erase_accounted offset v en :
  counted v → null_is_empty v →
  match Erase offset v en with
  | Ok _ (v', en') | Throw (v', en') => accounted v en v' en'
  | Abort _ => True
  end.
Proof.
  intros Hc Hn. unfold Erase, PopBack.
  destruct (size_ v <=? offset) eqn:Hz; [done|]. bool_facts.
  count_call; [|count_finish]. simpl.
  destruct (size_ v =? 0) eqn:Hz'; [done|]. bool_facts.
  count_call. count_finish.
Qed.

Lemma Reserve_accounted n v en :
  counted v → null_is_empty v →
  match Reserve n v en with
  | Ok _ (v', en') | Throw (v', en') => accounted v en v' en'
  | Abort _ => True
  end.
Proof.
  intros Hc Hn. unfold Reserve.
  destruct (n <=? capacity_ (data_ v)) eqn:Hle; [count_finish|]. bool_facts.
  count_call; [|count_finish].
  destruct (0 <? size_ v) eqn:Hpos; bool_facts.
  - repeat count_call; count_finish.
  - repeat count_call; count_finish.
Qed.

Lemma accounted_trans v en v1 en1 v2 en2 :
  accounted v en v1 en1 → accounted v1 en1 v2 en2 → accounted v en v2 en2.
Proof.
  unfold accounted. intros (_ & _ & ? & ?) (? & ? & ? & ?).
  split_and!; [done | done | lia | lia].
Qed.

Lemma Resize_accounted n v en :
  counted v → null_is_empty v →
  match Resize n v en with
  | Ok _ (v', en') | Throw (v', en') => accounted v en v' en'
  | Abort _ => True
  end.
Proof.
  intros Hc Hn. unfold Resize.
  destruct (n <? size_ v) eqn:Hlt; bool_facts.
  { count_call. count_finish. }
  destruct (size_ v <? n) eqn:Hgt; bool_facts; [|count_finish].
  pose proof (Reserve_accounted n v en Hc Hn) as Hr.
  destruct (Reserve n v en) as [[] [v1 en1]|[v1 en1]|] eqn:Hrun;
    [| done | done].
  assert (size_ v1 = size_ v) as Hsz
    by (eapply Reserve_size; [exact Hrun | by left]).
  count_call.
  - eapply accounted_trans; [exact Hr|]. destruct Hr as (Hc1 & Hn1 & _).
    count_finish.
  - eapply accounted_trans; [exact Hr|]. destruct Hr as (Hc1 & Hn1 & _).
    count_finish.
Qed.

Lemma accounted_refl v en : counted v → null_is_empty v → accounted v en v en.
Proof. intros Hc Hn. unfold accounted. split_and!; done. Qed.

Lemma step_accounted_gen op v en :
  counted v → null_is_empty v →
  match step op v en with
  | Ok _ (v', en') | Throw (v', en') => accounted v en v' en'
  | Abort _ => True
  end.
Proof.
  intros Hc Hn. destruct op; simpl; unfold PushBack_copy, PushBack_move,
    Insert_copy, Insert_move, forget.
  - by apply Resize_accounted.
  - pose proof (EmplaceBack_accounted (CopyOf value) v en Hc Hn) as H.
    by destruct (EmplaceBack _ v en) as [? [? ?]|[? ?]|].
  - pose proof (EmplaceBack_accounted (MoveOf value) v en Hc Hn) as H.
    by destruct (EmplaceBack _ v en) as [? [? ?]|[? ?]|].
  - pose proof (EmplaceBack_accounted a v en Hc Hn) as H.
    by destruct (EmplaceBack _ v en) as [? [? ?]|[? ?]|].
  - pose proof (Emplace_accounted offset a v en Hc Hn) as H.
    by destruct (Emplace _ _ v en) as [? [? ?]|[? ?]|].
  - pose proof (Emplace_accounted offset (CopyOf value) v en Hc Hn) as H.
    by destruct (Emplace _ _ v en) as [? [? ?]|[? ?]|].
  - pose proof (Emplace_accounted offset (MoveOf value) v en Hc Hn) as H.
    by destruct (Emplace _ _ v en) as [? [? ?]|[? ?]|].
  - pose proof (Erase_accounted offset v en Hc Hn) as H.
    by destruct (Erase _ v en) as [? [? ?]|[? ?]|].
  - by apply PopBack_accounted.
  - by apply Reserve_accounted.
Qed.

Lemma run_accounted prog v en :
  counted v → null_is_empty v →
  match run prog v en with
  | Ok _ (v', en') | Throw (v', en') => accounted v en v' en'
  | Abort _ => True
  end.
Proof.
  revert v en. induction prog as [|op prog IH]; intros v en Hc Hn; simpl.
  { by apply accounted_refl. }
  pose proof (step_accounted_gen op v en Hc Hn) as Hs.
  destruct (step op v en) as [[] [v1 en1]|[v1 en1]|]; [|done|done].
  pose proof Hs as (Hc1 & Hn1 & _).
  specialize (IH v1 en1 Hc1 Hn1).
  destruct (run prog v1 en1) as [[] [v2 en2]|[v2 en2]|]; [| |done];
    by eapply accounted_trans.
Qed.

Lemma Vector_sized_accounted n en :
  match Vector_sized n en with
  | Ok v en' => accounted Vector_default en v en'
  | Throw en' => objects en' = objects en ∧ free_ en' = free_ en
  | Abort _ => True
  end.
Proof.
  unfold Vector_sized.
  count_call; [|count_finish].
  destruct (0 <? n) eqn:Hpos; bool_facts.
  - count_call; count_finish.
  - count_finish.
Qed.

Lemma Vector_copy_accounted other en :
  match Vector_copy other en with
  | Ok v en' =>
      accounted Vector_default en v en' ∧ size_ v = size_ other ∧
      Capacity v = size_ other
  | Throw en' => objects en' = objects en ∧ free_ en' = free_ en
  | Abort _ => True
  end.
Proof.
  unfold Vector_copy, Capacity.
  count_call; [|count_finish].
  destruct (0 <? size_ other) eqn:Hpos; bool_facts.
  - count_call; count_finish.
  - count_finish.
Qed.

Lemma Vector_delete_accounted v en :
  counted v → null_is_empty v →
  match Vector_delete v en with
  | Ok _ en' | Throw en' =>
      objects en' = (objects en - Z.of_nat (size_ v))%Z ∧
      free_ en' = free_ en + Capacity v
  | Abort _ => True
  end.
Proof.
  intros Hc Hn. unfold Vector_delete, Capacity.
  count_call. count_finish.
Qed.

Lemma copy_assign_distinct_accounted rhs this en :
  counted this → null_is_empty this →
  match copy_assign_distinct rhs this en with
  | Ok _ (v', en') | Throw (v', en') => accounted this en v' en'
  | Abort _ => True
  end.
Proof.
  intros Hc Hn. unfold copy_assign_distinct, AssignFrom.
  destruct (Capacity this <? size_ rhs) eqn:Hbig; bool_facts.
  - pose proof (Vector_copy_accounted rhs en) as Hcp.
    destruct (Vector_copy rhs en) as [c en1|en1|]; [| |done].
    + unfold Swap.
      pose proof (Vector_delete_accounted this en1 Hc Hn) as Hd.
      destruct (Vector_delete this en1) as [[] en2|en2|]; [| |done];
        unfold Capacity in *; count_finish.
    + count_finish.
  - count_call; [|count_finish].
    destruct (size_ this <? size_ rhs) eqn:Hlt; bool_facts.
    { count_call; count_finish. }
    destruct (size_ rhs <? size_ this) eqn:Hgt; bool_facts.
    { count_call; count_finish. }
    count_finish.
Qed.

(** *** The region across each operation *)

Ltac frame_finish :=
  unfold kept_in_place, Capacity, grown_capacity in *; count_finish;
  repeat case_match; bool_facts; try lia.

Lemma EmplaceBack_frame a v en :
  match EmplaceBack a v en with
  | Ok _ (v', en') | Throw (v', en') =>
      Capacity v ≤ Capacity v' ∧
      (size_ v ≠ Capacity v → kept_in_place v en v' en')
  | Abort _ => True
  end.
Proof.
  unfold EmplaceBack.
  destruct (size_ v =? Capacity v) eqn:Hfull; bool_facts.
  - repeat count_call; frame_finish.
  - repeat count_call; frame_finish.
Qed.

Lemma Emplace_frame offset a v en :
  match Emplace offset a v en with
  | Ok _ (v', en') | Throw (v', en') =>
      Capacity v ≤ Capacity v' ∧
      (size_ v ≠ Capacity v → kept_in_place v en v' en')
  | Abort _ => True
  end.
Proof.
  unfold Emplace.
  destruct (size_ v <? offset) eqn:Hoff; [done|]. bool_facts.
  destruct (size_ v =? Capacity v) eqn:Hfull; bool_facts.
  { unfold Emplace_grow. repeat count_call; frame_finish. }
  destruct (offset =? size_ v).
  { pose proof (EmplaceBack_frame a v en) as Hb.
    by destruct (EmplaceBack a v en) as [? [? ?]|[? ?]|]. }
  unfold Emplace_shift.
  pose proof (delta_construct a en) as Hcon.
  destruct (do_construct a en) as [temp en1|en1|]; [| frame_finish | done].
  destruct (size_ v) as [|k] eqn:Hsz; [done|].
  destruct (cells_ (data_ v) !! (S k - 1)) as [[x|]|]; try done.
  destruct (cells_ (data_ v) !! S k) as [[|]|]; try done.
  pose proof (delta_move x en1) as Hmv.
  destruct (do_move x en1) as [[] en2|en2|]; [| | done].
  - count_call.
    + destruct (l !! offset) as [[y|]|]; try done.
      destruct (do_move_assign y temp e) as [ok en4] eqn:Hma.
      apply delta_move_assign in Hma.
      destruct ok.
      * pose proof (delta_destroy (moved_from temp) en4). frame_finish.
      * count_call. pose proof (delta_destroy temp e0). frame_finish.
    + count_call. pose proof (delta_destroy temp e0). frame_finish.
  - pose proof (delta_destroy temp en2). frame_finish.
Qed.

Lemma PopBack_frame v en :
  match PopBack v en with
  | Ok _ (v', en') | Throw (v', en') => kept_in_place v en v' en'
  | Abort _ => True
  end.
Proof.
  unfold PopBack. destruct (size_ v =? 0); [done|].
  count_call. frame_finish.
Qed.

Lemma Erase_frame offset v en :
  match Erase offset v en with
  | Ok _ (v', en') | Throw (v', en') => kept_in_place v en v' en'
  | Abort _ => True
  end.
Proof.
  unfold Erase, PopBack. destruct (size_ v <=? offset); [done|].
  count_call; [|frame_finish]. destruct (size_ v =? 0); [done|].
  count_call. frame_finish.
Qed.

Lemma Reserve_kept n v en :
  match Reserve n v en with
  | Ok _ (v', en') | Throw (v', en') =>
      Capacity v ≤ Capacity v' ∧
      (n ≤ Capacity v → kept_in_place v en v' en')
  | Abort _ => True
  end.
Proof.
  unfold Reserve.
  destruct (n <=? capacity_ (data_ v)) eqn:Hle; bool_facts; [frame_finish|].
  count_call; [|frame_finish].
  destruct (0 <? size_ v); repeat count_call; frame_finish.
Qed.

Lemma Resize_frame n v en :
  match Resize n v en with
  | Ok _ (v', en') | Throw (v', en') =>
      Capacity v ≤ Capacity v' ∧
      (n ≤ Capacity v → kept_in_place v en v' en')
  | Abort _ => True
  end.
Proof.
  unfold Resize.
  destruct (n <? size_ v) eqn:Hlt; bool_facts.
  { count_call. frame_finish. }
  destruct (size_ v <? n) eqn:Hgt; bool_facts; [|frame_finish].
  pose proof (Reserve_kept n v en) as Hr.
  destruct (Reserve n v en) as [[] [v1 en1]|[v1 en1]|]; [| done | done].
  count_call; frame_finish.
Qed.

Lemma step_frame op v en :
  match step op v en with
  | Ok _ (v', en') | Throw (v', en') =>
      Capacity v ≤ Capacity v' ∧
      (has_room op v = true → kept_in_place v en v' en')
  | Abort _ => True
  end.
Proof.
  destruct op; simpl; unfold PushBack_copy, PushBack_move, Insert_copy,
    Insert_move, forget.
  - pose proof (Resize_frame new_size v en) as H.
    destruct (Resize _ v en) as [? [? ?]|[? ?]|]; [| |done];
      (split; [apply H | intros; apply H; by bool_facts]).
  - pose proof (EmplaceBack_frame (CopyOf value) v en) as H.
    destruct (EmplaceBack _ v en) as [? [? ?]|[? ?]|]; [| |done];
      (split; [apply H | intros Hr; apply H;
               apply negb_true_iff in Hr; by bool_facts]).
  - pose proof (EmplaceBack_frame (MoveOf value) v en) as H.
    destruct (EmplaceBack _ v en) as [? [? ?]|[? ?]|]; [| |done];
      (split; [apply H | intros Hr; apply H;
               apply negb_true_iff in Hr; by bool_facts]).
  - pose proof (EmplaceBack_frame a v en) as H.
    destruct (EmplaceBack _ v en) as [? [? ?]|[? ?]|]; [| |done];
      (split; [apply H | intros Hr; apply H;
               apply negb_true_iff in Hr; by bool_facts]).
  - pose proof (Emplace_frame offset a v en) as H.
    destruct (Emplace _ _ v en) as [? [? ?]|[? ?]|]; [| |done];
      (split; [apply H | intros Hr; apply H;
               apply negb_true_iff in Hr; by bool_facts]).
  - pose proof (Emplace_frame offset (CopyOf value) v en) as H.
    destruct (Emplace _ _ v en) as [? [? ?]|[? ?]|]; [| |done];
      (split; [apply H | intros Hr; apply H;
               apply negb_true_iff in Hr; by bool_facts]).
  - pose proof (Emplace_frame offset (MoveOf value) v en) as H.
    destruct (Emplace _ _ v en) as [? [? ?]|[? ?]|]; [| |done];
      (split; [apply H | intros Hr; apply H;
               apply negb_true_iff in Hr; by bool_facts]).
  - pose proof (Erase_frame offset v en) as H.
    destruct (Erase _ v en) as [? [? ?]|[? ?]|]; [| |done];
      (split; [destruct H as (_ & -> & _); done | done]).
  - pose proof (PopBack_frame v en) as H.
    destruct (PopBack v en) as [? [? ?]|[? ?]|]; [| |done];
      (split; [destruct H as (_ & -> & _); done | done]).
  - pose proof (Reserve_kept new_capacity v en) as H.
    destruct (Reserve _ v en) as [? [? ?]|[? ?]|]; [| |done];
      (split; [apply H | intros; apply H; by bool_facts]).
Qed.

(** *** A run of [PushBack]s *)

Lemma PushBack_doubled (push : T → Op) y xs v en v' en' :
  push = OpPushBack_copy ∨ push = OpPushBack_move →
  holds xs v → doubled (length xs) (Capacity v) →
  step (push y) v en = Ok () (v', en') →
  holds (xs ++ [y]) v' ∧ doubled (length (xs ++ [y])) (Capacity v').
Proof.
  intros Hpush Hv Hd Hrun.
  assert (∃ a r, (∀ x, built a x → x = y) ∧
                 EmplaceBack a v en = Ok r (v', en')) as (a & r & Hy & Hb).
  { destruct Hpush as [-> | ->]; simpl in Hrun;
      unfold PushBack_copy, PushBack_move in Hrun.
    - exists (CopyOf y).
      destruct (EmplaceBack (CopyOf y) v en) as [r [v1 en1]|[v1 en1]|];
        try done.
      exists r. by simplify_eq.
    - exists (MoveOf y).
      destruct (EmplaceBack (MoveOf y) v en) as [r [v1 en1]|[v1 en1]|];
        try done.
      exists r. by simplify_eq. }
  destruct (EmplaceBack_ok_built a xs v en r v' en' Hv Hb)
    as (x & Hx & _ & Hv' & Hfull & Hroom).
  apply Hy in Hx as ->.
  split; [done|].
  destruct Hv as (Hsz & _ & Hle). rewrite length_app. simpl.
  unfold doubled, grown_capacity, Capacity in *. right.
  destruct (decide (size_ v = capacity_ (data_ v))) as [Heq|Hne].
  - destruct (Hfull Heq) as [-> _].
    destruct Hd as [[Hz _]|(k & Hk & Hlo & Hhi)].
    + rewrite Hz. simpl. exists 0. simpl. lia.
    + assert ((length xs =? 0) = false) as -> by (apply Nat.eqb_neq; lia).
      exists (S k). rewrite Nat.pow_succ_r'. lia.
  - destruct (Hroom Hne) as (_ & -> & _).
    destruct Hd as [[Hz Hcz]|(k & Hk & Hlo & Hhi)]; [lia|].
    exists k. lia.
Qed.

Lemma run_PushBack_doubled (push : T → Op) ys xs v en v' en' :
  push = OpPushBack_copy ∨ push = OpPushBack_move →
  holds xs v → doubled (length xs) (Capacity v) →
  run (map push ys) v en = Ok () (v', en') →
  holds (xs ++ ys) v' ∧ doubled (length (xs ++ ys)) (Capacity v').
Proof.
  intros Hpush. revert xs v en.
  induction ys as [|y ys IH]; intros xs v en Hv Hd Hrun; simpl in Hrun.
  { simplify_eq. by rewrite app_nil_r. }
  destruct (step (push y) v en) as [[] [v1 en1]|[v1 en1]|] eqn:Hs;
    try done.
  destruct (PushBack_doubled push y xs v en v1 en1 Hpush Hv Hd Hs)
    as [Hv1 Hd1].
  specialize (IH (xs ++ [y]) v1 en1 Hv1 Hd1 Hrun).
  by rewrite <- app_assoc in IH.
Qed.

Lemma capacity_never_shrinks_step op v en :
  match step op v en with
  | Ok _ (v', _) | Throw (v', _) => Capacity v ≤ Capacity v'
  | Abort _ => True
  end.
Proof.
  pose proof (step_frame op v en) as Hs.
  destruct (step op v en) as [[] [v' en']|[v' en']|];
    [exact (proj1 Hs)|exact (proj1 Hs)|done].
Qed.

(** ** The claims *)

(** C8 (amended). Every public operation keeps the structural invariant
    [0 <= size_ <= Capacity()], as long as the counts the caller supplies
    to [Vector(n)], [Reserve(n)] and [Resize(n)] are such that [size_t]
    can express their byte size [n * sizeof(T)]: the constructors
    establish the invariant, and from a vector that satisfies it every
    mutating operation, assignment and swap leaves one that satisfies it,
    both when it returns and when it lets a failure propagate.  The same
    holds of the full invariant (slots [[0, size_)] live, slots
    [[size_, Capacity())] raw), from which the structural one follows;
    under it and the operation's precondition no operation runs into
    undefined behaviour. *)
Theorem invariant_preserved :
  invariant Vector_default ∧
  (∀ n en v en', representable n →
     Vector_sized_size_t n en = Ok v en' → Size v ≤ Capacity v) ∧
  (∀ other en v en', Vector_copy other en = Ok v en' → Size v ≤ Capacity v) ∧
  (∀ other, invariant other →
     invariant (Vector_move other).1 ∧ invariant (Vector_move other).2) ∧
  (∀ a b, invariant a → invariant b →
     invariant (Swap a b).1 ∧ invariant (Swap a b).2) ∧
  (∀ op v en v', op_representable op → invariant v →
     final (step_size_t op v en) = Some v' →
     invariant v' ∧ Size v' ≤ Capacity v') ∧
  (∀ this rhs st en st', Forall invariant st →
     final_store (CopyAssign this rhs st en) = Some st' →
     Forall (λ v, Size v ≤ Capacity v) st') ∧
  (∀ this rhs st en st', Forall invariant st →
     final_store (MoveAssign this rhs st en) = Some st' →
     Forall (λ v, Size v ≤ Capacity v) st') ∧
  (∀ v, valid v → invariant v) ∧
  (∀ op xs v en, op_representable op → holds xs v → op_pre op v →
     match step_size_t op v en with
     | Ok _ (v', _) | Throw (v', _) => valid v'
     | Abort r => r = Terminated
     end) ∧
  (∀ n en, representable n →
     match Vector_sized_size_t n en with
     | Ok v _ => valid v
     | Throw _ => True
     | Abort _ => False
     end) ∧
  (∀ ys xs rhs this en, holds ys rhs → holds xs this →
     match copy_assign_distinct rhs this en with
     | Ok _ (v', _) | Throw (v', _) => valid v'
     | Abort _ => False
     end).
Proof.
  split_and!.
  - apply Vector_default_invariant.
  - intros n en v en' Hn Hv. rewrite Vector_sized_exact in Hv by done.
    by apply Vector_sized_invariant in Hv as [_ ?].
  - intros o en v en' Hv. by apply Vector_copy_invariant in Hv as [_ ?].
  - intros other Ho. split; [done | apply Vector_default_invariant].
  - intros a b Ha Hb. done.
  - intros op v en v' Hop Hv Hf.
    rewrite step_exact in Hf by (done || apply Hv).
    pose proof (step_invariant op v en v' Hv Hf) as Hi.
    split; [done | apply Hi].
  - intros this rhs st en st' Hst Hf.
    eapply Forall_impl;
      [by eapply CopyAssign_invariant | by intros ? [_ ?]].
  - intros this rhs st en st' Hst Hf.
    eapply Forall_impl;
      [by eapply MoveAssign_invariant | by intros ? [_ ?]].
  - intros v [xs Hv]. by eapply holds_invariant.
  - intros op xs v en Hop Hv Hpre.
    rewrite step_exact by (done || apply (holds_invariant xs v Hv)).
    by apply (step_valid op xs).
  - intros n en Hn. rewrite Vector_sized_exact by done.
    apply Vector_sized_valid.
  - intros ys xs rhs this en Hy Hx. by apply (copy_assign_distinct_valid ys xs).
Qed.

(** C9. Assigning a vector to itself, by copy or by move, returns at once:
    the store of vectors and the environment (element state, allocator,
    log of element operations and allocations) are what they were. *)
Theorem self_assignment_is_noop (this : nat) (st : list vec) (en : env) :
  is_Some (st !! this) →
  CopyAssign this this st en = Ok () (st, en) ∧
  MoveAssign this this st en = Ok () (st, en).
Proof.
  intros [v Hv]. unfold CopyAssign, MoveAssign.
  rewrite Hv, Nat.eqb_refl. done.
Qed.

(** C2. When [EmplaceBack] or [Emplace] succeed on a full vector
    ([size_ == Capacity()]) the new capacity is 1 for an empty vector and
    twice the size otherwise; when they succeed on a vector with room the
    capacity is unchanged.  And they do succeed, on a vector holding [xs],
    whenever no operation of the element type raises and, for a full
    vector, the allocator has the grown capacity free. *)
Theorem growth_rule (a : Args T A) (offset : nat) (xs : list T) (v : vec)
    (en : env) :
  (∀ r v' en',
     EmplaceBack a v en = Ok r (v', en') ∨
     Emplace offset a v en = Ok r (v', en') →
     (Size v = Capacity v →
        Capacity v' = if Size v =? 0 then 1 else 2 * Size v) ∧
     (Size v ≠ Capacity v → Capacity v' = Capacity v)) ∧
  (never_raises → holds xs v → offset ≤ Size v →
   (Size v = Capacity v → grown_capacity (Size v) ≤ free_ en) →
   is_ok (EmplaceBack a v en) = true ∧
   is_ok (Emplace offset a v en) = true).
Proof.
  split.
  - intros r v' en'.
    assert (∀ r, EmplaceBack a v en = Ok r (v', en') →
      (Size v = Capacity v →
         Capacity v' = if Size v =? 0 then 1 else 2 * Size v) ∧
      (Size v ≠ Capacity v → Capacity v' = Capacity v)) as Hback.
    { intros r0 Hf. unfold EmplaceBack in Hf.
      destruct (size_ v =? Capacity v) eqn:Hfull; bool_facts.
      - split; last done. intros _.
        destruct (RawMemory_new _ en) as [m en1|en1|] eqn:Hnew; try done.
        apply RawMemory_new_spec in Hnew as [Hcap _].
        cases; unfold Capacity, Size, grown_capacity in *; simpl;
          rewrite Hcap; case_match; lia.
      - split; first done. intros _. cases; done. }
    intros [Hf|Hf]; first by eapply Hback.
    unfold Emplace in Hf.
    destruct (size_ v <? offset); first done.
    destruct (size_ v =? Capacity v) eqn:Hfull; bool_facts.
    + split; last done. intros _. unfold Emplace_grow in Hf.
      destruct (RawMemory_new _ en) as [m en1|en1|] eqn:Hnew; try done.
      apply RawMemory_new_spec in Hnew as [Hcap _].
      cases; unfold Capacity, Size, grown_capacity in *; simpl;
        rewrite Hcap; case_match; lia.
    + destruct (offset =? size_ v).
      * destruct (EmplaceBack a v en) as [r0 [v0 en0]|?|] eqn:Hb; try done.
        simplify_eq. by eapply Hback.
      * split; first done. intros _. unfold Emplace_shift in Hf.
        cases; done.
  - intros Hnr Hv Hoff Hmem. unfold Size in *. split.
    + apply unfailing_is_ok; [by apply EmplaceBack_unfailing|].
      pose proof (EmplaceBack_valid a xs v en Hv) as Hval.
      by destruct (EmplaceBack a v en) as [? [? ?]|[? ?]|].
    + apply unfailing_is_ok; [by apply Emplace_unfailing|].
      pose proof (Emplace_valid offset a xs v en Hv) as Hval.
      destruct Hv as (Hsz & _). rewrite Hsz in Hoff. specialize (Hval Hoff).
      by destruct (Emplace offset a v en) as [? [? ?]|[? ?]|].
Qed.

(** C1 (amended). On a full vector ([size_ == Capacity()]):
    for element types relocated by copy or by a move that does not raise,
    whenever [EmplaceBack] or [Emplace] lets a failure propagate the
    vector is exactly what it was (size, capacity, buffer and every slot);
    and for every element type, when the construction of the new element
    raises, both operations let the failure propagate with the vector
    exactly what it was. *)
Theorem growth_failure_leaves_vector_unchanged (a : Args T A)
    (offset : nat) (v : vec) (en : env) :
  Size v = Capacity v →
  (relocation_is_safe = true →
   ∀ v' en',
     EmplaceBack a v en = Throw (v', en') ∨
     Emplace offset a v en = Throw (v', en') →
     v' = v ∧ Size v' = Size v ∧ Capacity v' = Capacity v ∧
     elements v' = elements v) ∧
  (∀ m en1,
     RawMemory_new (grown_capacity (Size v)) en = Ok m en1 →
     is_throw (do_construct a en1) = true →
     offset ≤ Size v →
     (∃ en', EmplaceBack a v en = Throw (v, en')) ∧
     (∃ en', Emplace offset a v en = Throw (v, en'))).
Proof.
  intros Hfull. split.
  - intros Hsafe v' en' Hf.
    assert (v' = v) as ->; last done.
    destruct Hf as [Hf|Hf]; first by eapply EmplaceBack_throw.
    unfold Emplace in Hf. unfold Size in Hfull.
    destruct (size_ v <? offset); first done.
    rewrite Hfull, Nat.eqb_refl in Hf. by eapply Emplace_grow_throw.
  - intros m en1 Hnew Hthrow Hoff.
    pose proof (RawMemory_new_spec _ _ _ _ Hnew) as [Hcap Hcells].
    unfold Size in *.
    assert (size_ v < grown_capacity (size_ v)) as Hlt
      by (unfold grown_capacity; case_match; bool_facts; lia).
    unfold Emplace, Emplace_grow, EmplaceBack, construct_at.
    destruct (size_ v <? offset) eqn:Hbad; bool_facts; first lia.
    rewrite Hfull, Nat.eqb_refl, <- Hfull, Hnew, Hcells.
    rewrite !lookup_replicate_2 by lia.
    destruct (do_construct a en1); try done.
    split; eexists; done.
Qed.

(** C6 (amended). [Reserve(n)] with [n <= Capacity()] returns at once, vector
    and environment untouched (no allocation, same buffer).  With
    [n > Capacity()], for a count [n] whose byte size [n * sizeof(T)]
    [size_t] can express: a successful call leaves a vector of capacity
    exactly [n] with the same size and the same element values; for
    element types relocated by copy or by a move that does not raise, a
    call that lets a failure propagate leaves the vector exactly what it
    was; and the call does succeed whenever no operation of the element
    type raises and the allocator has [n] slots free. *)
Theorem Reserve_frame (n : nat) (v : vec) (en : env) :
  (n ≤ Capacity v → Reserve_size_t n v en = Ok () (v, en)) ∧
  (Capacity v < n → representable n →
     (∀ xs v' en', holds xs v → Reserve_size_t n v en = Ok () (v', en') →
        Capacity v' = n ∧ Size v' = Size v ∧ holds xs v') ∧
     (relocation_is_safe = true →
      ∀ v' en', Reserve_size_t n v en = Throw (v', en') → v' = v) ∧
     (never_raises → n ≤ free_ en → ∀ xs, holds xs v →
      is_ok (Reserve_size_t n v en) = true)).
Proof.
  split.
  - intros Hn. unfold Reserve_size_t, Capacity in *.
    apply Nat.leb_le in Hn. by rewrite Hn.
  - intros Hn Hrep. split_and!.
    + intros xs v' en' Hxs Hf.
      pose proof (holds_invariant xs v Hxs) as [Hreg _].
      rewrite Reserve_exact in Hf by done.
      destruct (Reserve_ok n xs v en v' en' Hxs Hn Hf) as (Hh & Hcap & _).
      split_and!; [done | | done].
      unfold Size. destruct Hxs as [-> _]. by destruct Hh as [-> _].
    + intros Hsafe v' en' Hf.
      pose proof (Reserve_exact_final n v en Hrep) as Hsame.
      rewrite Hf in Hsame.
      destruct (Reserve n v en) as [[] [v2 en2]|[v2 en2]|] eqn:HR;
        try done.
      subst v2. by eapply Reserve_throw.
    + intros Hnr Hmem xs Hxs.
      pose proof (holds_invariant xs v Hxs) as [Hreg _].
      rewrite Reserve_exact by done.
      apply unfailing_is_ok; [by apply Reserve_unfailing|].
      pose proof (Reserve_valid n xs v en Hxs) as Hval.
      by destruct (Reserve n v en) as [? [? ?]|[? ?]|].
Qed.

(** The outcomes of the sized constructor on a request the allocation
    functions take without wrapping. *)
Lemma Vector_sized_outcome (n : nat) (en : env) :
  match Vector_sized n en with
  | Ok v en' =>
      Size v = n ∧ n ≤ Capacity v ∧
      ∃ xs, holds xs v ∧ Forall is_default xs ∧
            log_ en' = log_ en ++
              (if n =? 0 then [] else [EvAlloc (S (next_ en)) n]) ++
              map EvDefault xs
  | Throw en' =>
      (en' = en ∧ free_ en < n) ∨
      (∃ xs, length xs < n ∧ free_ en' = free_ en ∧
             log_ en' = log_ en ++ [EvAlloc (S (next_ en)) n] ++
               map EvDefault xs ++ map EvDestroy xs ++
               [EvDealloc (S (next_ en))])
  | Abort _ => False
  end ∧
  (n ≤ free_ en → (∀ e, is_Some (default_ctor e).1) →
   is_ok (Vector_sized n en) = true).
Proof.
  unfold Vector_sized, RawMemory_new, Allocate.
  destruct (n =? 0) eqn:Hn0; bool_facts.
  { subst n. simpl. split; last done.
    split_and!; [done | unfold Capacity; simpl; lia |].
    exists []. by rewrite app_nil_r. }
  destruct (n <=? free_ en) eqn:Hfree; bool_facts;
    last by (split; [left; split; [done | lia] | lia]).
  assert ((0 <? n) = true) as -> by (apply Nat.ltb_lt; lia).
  simpl.
  match goal with |- context [uninitialized_value_construct_n _ 0 n ?e] =>
    pose proof (uninitialized_value_construct_n_fresh n e) as Hl;
    pose proof (uninitialized_value_construct_n_no_throw
                  (replicate n None) 0 n e) as Hnt;
    destruct (uninitialized_value_construct_n (replicate n None) 0 n e)
      as [[] [c en1]|[c en1]|]; last done
  end.
  - split; last done.
    destruct Hl as (xs & Hlen & Hall & -> & Hlog & _).
    unfold Size, Capacity. simpl. split_and!; [done | lia |].
    exists xs. split_and!; [| done |].
    + unfold holds. simpl. rewrite Hlen, Nat.sub_diag. simpl.
      by rewrite app_nil_r.
    + rewrite Hlog. simpl. by rewrite <- app_assoc.
  - split; last by (intros _ Hdef; specialize (Hnt Hdef)).
    destruct Hl as (-> & xs & Hlen & Hlog & Hfree' & _). right.
    exists xs. unfold RawMemory_delete. simpl.
    split_and!; [done | simpl in *; lia |].
    rewrite Hlog. simpl. by rewrite <- !app_assoc.
Qed.

(** C7 (amended). For a count [size] whose byte size [size * sizeof(T)]
    [size_t] can express, [Vector(size_t size)] never runs into undefined
    behaviour.  When it returns, the vector has [size] elements in a
    region of [size] slots, each element a value-initialised one, and
    nothing else was done than one allocation (none for [size = 0]) and
    [size] value constructions.  When it lets a failure propagate, either
    the allocation failed and nothing happened, or a value construction
    raised: then every element built so far was destroyed, the region was
    released (the allocator has all its slots back) and no vector exists.
    It does return when the allocator has [size] slots free and
    value-initialisation does not raise. *)
Theorem Vector_sized_spec (n : nat) (en : env) :
  representable n →
  match Vector_sized_size_t n en with
  | Ok v en' =>
      Size v = n ∧ n ≤ Capacity v ∧
      ∃ xs, holds xs v ∧ Forall is_default xs ∧
            log_ en' = log_ en ++
              (if n =? 0 then [] else [EvAlloc (S (next_ en)) n]) ++
              map EvDefault xs
  | Throw en' =>
      (en' = en ∧ free_ en < n) ∨
      (∃ xs, length xs < n ∧ free_ en' = free_ en ∧
             log_ en' = log_ en ++ [EvAlloc (S (next_ en)) n] ++
               map EvDefault xs ++ map EvDestroy xs ++
               [EvDealloc (S (next_ en))])
  | Abort _ => False
  end ∧
  (n ≤ free_ en → (∀ e, is_Some (default_ctor e).1) →
   is_ok (Vector_sized_size_t n en) = true).
Proof.
  intros Hn. rewrite Vector_sized_exact by done.
  apply Vector_sized_outcome.
Qed.

(** C3. In the three growth paths ([Reserve], [EmplaceBack] and [Emplace] on
    a full vector) of a vector holding [xs], a successful call has done
    exactly: one allocation, the construction of the new element (not for
    [Reserve]), one relocation per element of [xs] in order, by move
    construction when [T] is nothrow-move-constructible or not
    copy-constructible and by copy construction otherwise, the destruction
    of the originals (moved-from after a move, intact after a copy), and
    the release of the old region.  When relocation is by copy, a call that
    lets a failure propagate leaves the vector exactly what it was.  The
    three calls do succeed whenever no operation of the element type
    raises and the allocator has the new capacity free.  ([Reserve(n)] is
    taken at a count [n] whose byte size [size_t] can express.) *)
Theorem relocation_rule (xs : list T) (v : vec) (en : env) :
  holds xs v →
  let by_move := nothrow_move || negb copy_constructible in
  let relocated := if by_move then map EvMove xs else map EvCopy xs in
  let originals := if by_move then map moved_from xs else xs in
  (∀ n v' en', representable n → Capacity v < n →
     Reserve_size_t n v en = Ok () (v', en') →
     log_ en' = log_ en ++ [EvAlloc (S (next_ en)) n] ++ relocated ++
                map EvDestroy originals ++ dealloc_log v) ∧
  (∀ a r v' en', Size v = Capacity v →
     EmplaceBack a v en = Ok r (v', en') →
     ∃ x, log_ en' = log_ en ++
            [EvAlloc (S (next_ en)) (grown_capacity (Size v))] ++
            construct_log a x ++ relocated ++
            map EvDestroy originals ++ dealloc_log v) ∧
  (∀ offset a r v' en', Size v = Capacity v → offset ≤ Size v →
     Emplace offset a v en = Ok r (v', en') →
     ∃ x, log_ en' = log_ en ++
            [EvAlloc (S (next_ en)) (grown_capacity (Size v))] ++
            construct_log a x ++ relocated ++
            map EvDestroy originals ++ dealloc_log v) ∧
  (by_move = false →
   ∀ n offset a v' en',
     (representable n ∧ Reserve_size_t n v en = Throw (v', en')) ∨
     EmplaceBack a v en = Throw (v', en') ∨
     (Size v = Capacity v ∧ Emplace offset a v en = Throw (v', en')) →
     v' = v) ∧
  (never_raises →
   (∀ n, representable n → n ≤ free_ en →
      is_ok (Reserve_size_t n v en) = true) ∧
   (∀ a offset, offset ≤ Size v →
      (Size v = Capacity v → grown_capacity (Size v) ≤ free_ en) →
      is_ok (EmplaceBack a v en) = true ∧
      is_ok (Emplace offset a v en) = true)).
Proof.
  intros Hv by_move relocated originals.
  assert (relocated = relocation_log xs) as ->
    by (unfold relocated, relocation_log, by_move, relocate_by_move;
        by case_match).
  assert (originals = left_behind xs) as ->
    by (unfold originals, left_behind, by_move, relocate_by_move;
        by case_match).
  pose proof Hv as (Hsz & _).
  pose proof (holds_invariant xs v Hv) as [Hreg _].
  unfold Size. split_and!.
  - intros n v' en' Hrep Hn Hf. rewrite Reserve_exact in Hf by done.
    by destruct (Reserve_ok n xs v en v' en' Hv Hn Hf) as (_ & _ & _ & ?).
  - intros a r v' en' Hfull Hf.
    destruct (EmplaceBack_ok a xs v en r v' en' Hv Hf) as (x & _ & _ & Hg & _).
    exists x. rewrite Hsz. by apply Hg.
  - intros offset a r v' en' Hfull Hoff Hf.
    unfold Emplace in Hf.
    destruct (size_ v <? offset) eqn:Hbad; first done.
    unfold Capacity in *. rewrite Hfull, Nat.eqb_refl in Hf.
    destruct (Emplace_grow_ok offset a xs v en r v' en' Hv Hfull
                ltac:(lia) Hf) as (x & _ & _ & _ & Hlog).
    exists x. by rewrite Hsz.
  - intros Hcopy n offset a v' en' Hf.
    assert (relocation_is_safe = true) as Hsafe.
    { unfold by_move in Hcopy. unfold relocation_is_safe.
      destruct nothrow_move, copy_constructible; done. }
    destruct Hf as [[Hrep Hf]|[Hf|[Hfull Hf]]].
    + rewrite Reserve_exact in Hf by done. by eapply Reserve_throw.
    + by eapply EmplaceBack_throw.
    + unfold Emplace in Hf.
      destruct (size_ v <? offset) eqn:Hbad; first done.
      unfold Size, Capacity in *. rewrite Hfull, Nat.eqb_refl in Hf.
      by eapply Emplace_grow_throw.
  - intros Hnr. split.
    + intros n Hrep Hmem. rewrite Reserve_exact by done.
      apply unfailing_is_ok; [by apply Reserve_unfailing|].
      pose proof (Reserve_valid n xs v en Hv) as Hval.
      by destruct (Reserve n v en) as [? [? ?]|[? ?]|].
    + intros a offset Hoff Hmem. split.
      * apply unfailing_is_ok; [by apply EmplaceBack_unfailing|].
        pose proof (EmplaceBack_valid a xs v en Hv) as Hval.
        by destruct (EmplaceBack a v en) as [? [? ?]|[? ?]|].
      * apply unfailing_is_ok; [by apply Emplace_unfailing|].
        pose proof (Emplace_valid offset a xs v en Hv) as Hval.
        rewrite Hsz in Hoff. specialize (Hval Hoff).
        by destruct (Emplace offset a v en) as [? [? ?]|[? ?]|].
Qed.

(** C4. Copy assignment between two distinct vectors, the destination
    holding [xs] and the source [ys].  When the source does not fit in the
    destination's capacity, a full copy is built and swapped in: on success
    the destination holds [ys] in the new region and the old elements have
    been destroyed and their region released; on failure the destination is
    exactly what it was.  When the source fits, the region is reused (same
    buffer, same capacity, the allocator is not used): on success the
    prefix was overwritten by assignment, the extra elements copy-constructed
    or the surplus destroyed, and the destination holds [ys]; on failure
    the destination is a valid vector of its old size whose first [j]
    elements already are the source's and the others still the old ones.
    On either path the assignment does succeed whenever no operation of
    the element type raises and, for the first path, the allocator has the
    source's size free. *)
Theorem copy_assignment_spec (ys xs : list T) (rhs this : vec) (en : env) :
  holds ys rhs → holds xs this →
  (Capacity this < Size rhs →
     match copy_assign_distinct rhs this en with
     | Ok _ (v', en') =>
         holds ys v' ∧
         log_ en' = log_ en ++ [EvAlloc (S (next_ en)) (length ys)] ++
                    map EvCopy ys ++ map EvDestroy xs ++ dealloc_log this
     | Throw (v', en') => v' = this
     | Abort _ => False
     end) ∧
  (Size rhs ≤ Capacity this →
     match copy_assign_distinct rhs this en with
     | Ok _ (v', en') =>
         holds ys v' ∧
         buffer_ (data_ v') = buffer_ (data_ this) ∧
         Capacity v' = Capacity this ∧
         logged en en' (map EvCopyAssign (take (length xs) ys) ++
                        map EvCopy (drop (length xs) ys) ++
                        map EvDestroy (drop (length ys) xs))
     | Throw (v', en') =>
         buffer_ (data_ v') = buffer_ (data_ this) ∧
         Capacity v' = Capacity this ∧
         free_ en' = free_ en ∧ next_ en' = next_ en ∧
         ∃ j, j ≤ length xs ∧ j ≤ length ys ∧
              holds (take j ys ++ drop j xs) v'
     | Abort _ => False
     end) ∧
  (∀ st i j, i ≠ j → st !! i = Some this → st !! j = Some rhs →
     CopyAssign i j st en =
       match copy_assign_distinct rhs this en with
       | Ok _ (v', en') => Ok () (<[i := v']> st, en')
       | Throw (v', en') => Throw (<[i := v']> st, en')
       | Abort r => Abort r
       end) ∧
  (never_raises → (Capacity this < Size rhs → Size rhs ≤ free_ en) →
   is_ok (copy_assign_distinct rhs this en) = true).
Proof.
  intros Hy Hx. pose proof Hy as (Hsy & _). pose proof Hx as (Hsx & _ & Hlx).
  unfold Size, Capacity in *. split_and!.
  - intros Hbig. unfold copy_assign_distinct, Capacity.
    apply Nat.ltb_lt in Hbig. rewrite Hbig. apply Nat.ltb_lt in Hbig.
    pose proof (Vector_copy_live ys rhs en Hy) as Hc.
    destruct (Vector_copy rhs en) as [c en1|en1|]; [|done|done].
    destruct Hc as (Hhc & _ & Hlog1). unfold Swap.
    destruct (Vector_delete_live xs this en1 Hx) as (en2 & -> & Hlog2).
    split; first done.
    assert ((length ys =? 0) = false) as Hn0 by (apply Nat.eqb_neq; lia).
    rewrite Hn0 in Hlog1. rewrite Hlog2, Hlog1. by rewrite <- !app_assoc.
  - intros Hfit. unfold copy_assign_distinct, Capacity.
    assert ((capacity_ (data_ this) <? size_ rhs) = false) as ->
      by (apply Nat.ltb_ge; lia).
    destruct (decide (length xs < length ys)) as [Hlt|Hge].
    + pose proof (AssignFrom_longer ys rhs xs this en Hy Hx
                    ltac:(unfold Capacity; lia) Hlt) as Ha.
      destruct (AssignFrom rhs this en) as [[] [v' en']|[v' en']|];
        [|done|done].
      destruct Ha as (? & ? & ? & Hlog). split_and!; try done.
      rewrite (drop_ge xs) by lia. by rewrite app_nil_r.
    + pose proof (AssignFrom_not_longer ys rhs xs this en Hy Hx
                    ltac:(lia)) as Ha.
      destruct (AssignFrom rhs this en) as [[] [v' en']|[v' en']|];
        [|done|done].
      destruct Ha as (? & ? & ? & Hlog). split_and!; try done.
      rewrite (take_ge ys), (drop_ge ys) by lia. done.
  - intros st i j Hij Hi Hj. unfold CopyAssign. rewrite Hi, Hj.
    apply Nat.eqb_neq in Hij. rewrite Hij.
    by destruct (copy_assign_distinct rhs this en) as [[] [? ?]|[? ?]|].
  - intros Hnr Hmem.
    apply unfailing_is_ok;
      [by apply copy_assign_distinct_unfailing|].
    pose proof (copy_assign_distinct_valid ys xs rhs this en Hy Hx) as Hval.
    by destruct (copy_assign_distinct rhs this en) as [? [? ?]|[? ?]|].
Qed.

(** C10. On a vector holding [xs], [Erase] at a valid position never runs
    into undefined behaviour, and when it returns it returns the offset it
    was given: the slot now holding the element that followed the erased
    one, or [end()] when the last element was erased.  The vector then
    holds [xs] without its element at that offset. *)
Theorem Erase_returns_same_offset (offset : nat) (xs : list T) (v : vec)
    (en : env) :
  holds xs v → offset < Size v →
  match Erase offset v en with
  | Ok r (v', en') =>
      r = offset ∧
      index r v' = xs !! S offset ∧
      (S offset = Size v → r = Size v') ∧
      holds (take offset xs ++ drop (S offset) xs) v'
  | Throw _ => True
  | Abort _ => False
  end.
Proof.
  intros Hv Hoff. pose proof Hv as (Hsz & _). unfold Size in *.
  rewrite Hsz in Hoff.
  pose proof (Erase_live offset xs v en Hv Hoff) as He.
  destruct (Erase offset v en) as [r [v' en']|?|]; [|done|done].
  destruct He as (-> & Hh & _). split_and!; [done | | | done].
  - rewrite (index_holds _ _ _ Hh).
    rewrite lookup_app_r by (rewrite length_take; lia).
    rewrite length_take, Nat.min_l, Nat.sub_diag, lookup_drop by lia.
    f_equal. lia.
  - intros Hlast. destruct Hh as (-> & _).
    rewrite length_app, length_take, length_drop. lia.
Qed.

(** ** Further properties of the operations *)

(** X1. No mutating operation ([Resize], [PushBack], [EmplaceBack],
    [Emplace], [Insert], [Erase], [PopBack], [Reserve]) loses an object or
    a slot of storage, whether it returns or lets a failure propagate, as
    long as [size_t] can express the byte size of the count passed to
    [Reserve] or [Resize].  From a vector whose region has [Capacity()]
    slots, exactly [size_] of them live, and whose capacity is 0 when it
    has no buffer, the vector left is again such a vector; the number of
    objects constructed minus the number destroyed has changed by exactly
    the change of the size; and the slots the allocator has free plus the
    capacity of the vector are what they were. *)
Theorem step_accounted (op : Op) (v : vec) (en : env) :
  op_representable op → region_ok v → counted v → null_is_empty v →
  match step_size_t op v en with
  | Ok _ (v', en') | Throw (v', en') =>
      region_ok v' ∧ counted v' ∧ null_is_empty v' ∧
      (objects en' - Z.of_nat (Size v') =
       objects en - Z.of_nat (Size v))%Z ∧
      free_ en' + Capacity v' = free_ en + Capacity v
  | Abort _ => True
  end.
Proof.
  intros Hop Hreg Hc Hn. rewrite step_exact by done.
  assert (invariant v) as Hinv.
  { split; [done|]. unfold Size, Capacity, region_ok, counted in *.
    rewrite <- Hc, <- Hreg. apply live_le_length. }
  pose proof (step_accounted_gen op v en Hc Hn) as Hs.
  pose proof (step_invariant op v en) as Hi.
  unfold accounted, Size, Capacity in *.
  destruct (step op v en) as [[] [v' en']|[v' en']|]; [| |done];
    (split; [apply (Hi v' Hinv eq_refl) | exact Hs]).
Qed.

(** X2. A scope that builds a vector with [Vector(size)], runs any sequence
    of mutating operations on it and destroys it, by reaching its end or by
    the unwinding of a failure, leaves nothing behind: as many objects were
    destroyed as were constructed, and the allocator has every slot back. *)
Theorem scope_leaves_nothing_behind (size : nat) (prog : list Op)
    (en : env) :
  match scope size prog en with
  | Ok _ en' | Throw en' => objects en' = objects en ∧ free_ en' = free_ en
  | Abort _ => True
  end.
Proof.
  unfold scope.
  pose proof (Vector_sized_accounted size en) as Hs.
  destruct (Vector_sized size en) as [v en1|en1|]; [|exact Hs|done].
  destruct Hs as (Hc & Hn & Ho & Hf). simpl in Ho, Hf.
  pose proof (run_accounted prog v en1 Hc Hn) as Hr.
  destruct (run prog v en1) as [[] [v' en2]|[v' en2]|]; [| |done].
  - destruct Hr as (Hc' & Hn' & Ho' & Hf').
    pose proof (Vector_delete_accounted v' en2 Hc' Hn') as Hd.
    unfold Capacity in Hd.
    destruct (Vector_delete v' en2) as [[] en3|en3|]; [| |done];
      (split; [lia | lia]).
  - destruct Hr as (Hc' & Hn' & Ho' & Hf').
    pose proof (Vector_delete_accounted v' en2 Hc' Hn') as Hd.
    unfold Capacity in Hd.
    destruct (Vector_delete v' en2) as [[] en3|en3|]; [| |done];
      (split; [lia | lia]).
Qed.

(** X3. Copy assignment between two distinct vectors loses no object and no
    storage either, on success and on failure, on the path that builds a
    copy and swaps it in as on the path that reuses the region: the
    destination is left with exactly [size_] live slots, constructions
    minus destructions changed by the change of its size, and free storage
    plus its capacity is what it was. *)
Theorem copy_assignment_accounted (rhs this : vec) (en : env) :
  counted this → null_is_empty this →
  match copy_assign_distinct rhs this en with
  | Ok _ (v', en') | Throw (v', en') =>
      counted v' ∧ null_is_empty v' ∧
      (objects en' - Z.of_nat (Size v') =
       objects en - Z.of_nat (Size this))%Z ∧
      free_ en' + Capacity v' = free_ en + Capacity this
  | Abort _ => True
  end.
Proof.
  intros Hc Hn.
  pose proof (copy_assign_distinct_accounted rhs this en Hc Hn) as Hs.
  unfold accounted, Size, Capacity in *.
  destruct (copy_assign_distinct rhs this en) as [[] [v' en']|[v' en']|];
    [exact Hs|exact Hs|done].
Qed.

(** X4. The capacity of a vector is lowered only by handing its region
    over: [Swap] (and so move assignment) gives it the capacity of the
    other vector, and a vector that is moved from is left with none.
    [Resize], [PushBack], [EmplaceBack], [Emplace], [Insert], [Erase],
    [PopBack], [Reserve] (for any count) and copy assignment never lower
    it, whether they return or let a failure propagate. *)
Theorem capacity_never_shrinks (op : Op) (v rhs : vec) (en : env) :
  match step_size_t op v en with
  | Ok _ (v', _) | Throw (v', _) => Capacity v ≤ Capacity v'
  | Abort _ => True
  end ∧
  match copy_assign_distinct rhs v en with
  | Ok _ (v', _) | Throw (v', _) => Capacity v ≤ Capacity v'
  | Abort _ => True
  end ∧
  Capacity (Swap v rhs).1 = Capacity rhs ∧
  Capacity (Swap v rhs).2 = Capacity v ∧
  Capacity (Vector_move v).1 = Capacity v ∧
  Capacity (Vector_move v).2 = 0.
Proof.
  assert (∀ n w e,
    match Reserve_size_t n w e with
    | Ok _ (v', _) | Throw (v', _) =>
        capacity_ (data_ w) ≤ capacity_ (data_ v')
    | Abort _ => True
    end) as Hres.
  { intros n w e. unfold Reserve_size_t, RawMemory_new_size_t.
    destruct (n <=? capacity_ (data_ w)) eqn:Hle; [done|]. bool_facts.
    destruct (Allocate_size_t n e) as [b e1|e1|]; simpl; try done.
    destruct (if 0 <? size_ w then _ else _)
      as [[] [[oc nc] e2]|[[oc nc] e2]|]; try done.
    destruct (destroy_n oc 0 (size_ w) e2) as [[oc' e3]|]; [|done].
    simpl. lia. }
  split_and!; try done.
  - destruct op; try apply (capacity_never_shrinks_step _ v en).
    + simpl. unfold Resize_size_t, Capacity.
      destruct (new_size <? size_ v);
        [by destruct (destroy_n _ _ _ en) as [[]|]|].
      destruct (size_ v <? new_size); [|done].
      specialize (Hres new_size v en).
      destruct (Reserve_size_t new_size v en) as [[] [v1 e1]|[v1 e1]|];
        [|done|done].
      by destruct (uninitialized_value_construct_n _ _ _ e1)
        as [[] [c e2]|[c e2]|].
    + apply Hres.
  - unfold copy_assign_distinct, Capacity.
    destruct (capacity_ (data_ v) <? size_ rhs) eqn:Hbig; bool_facts.
    + pose proof (Vector_copy_accounted rhs en) as Hc.
      destruct (Vector_copy rhs en) as [c en1|en1|]; [|done|done].
      destruct Hc as (_ & _ & Hcap). unfold Swap, Vector_delete, Capacity in *.
      destruct (destroy_n _ _ _ en1) as [[oc e2]|]; [|done]. lia.
    + unfold AssignFrom. cases; done.
Qed.

(** X5. An operation that has room does not reallocate: [Reserve(n)] and
    [Resize(n)] with [n <= Capacity()], an insertion ([PushBack],
    [EmplaceBack], [Emplace], [Insert]) with [size_ != Capacity()], and
    every [Erase] and [PopBack] leave the buffer and the capacity what they
    were and do not use the allocator, on success and on failure; pointers
    into the region stay pointers into the region. *)
Theorem no_reallocation_with_room (op : Op) (v : vec) (en : env) :
  has_room op v = true →
  match step op v en with
  | Ok _ (v', en') | Throw (v', en') =>
      buffer_ (data_ v') = buffer_ (data_ v) ∧ Capacity v' = Capacity v ∧
      free_ en' = free_ en ∧ next_ en' = next_ en
  | Abort _ => True
  end.
Proof.
  intros Hroom. pose proof (step_frame op v en) as Hs.
  unfold kept_in_place in Hs.
  destruct (step op v en) as [[] [v' en']|[v' en']|];
    [exact (proj2 Hs Hroom)|exact (proj2 Hs Hroom)|done].
Qed.

(** X6. [PopBack] on an empty vector is undefined behaviour (the assertion
    [size_ > 0]).  On a vector holding [ini ++ [z]] it never fails: it
    destroys [z] and nothing else, leaves the vector holding [ini] in the
    same region with the same capacity, and does not use the allocator. *)
Theorem PopBack_removes_last (v : vec) (en : env) :
  (Size v = 0 → PopBack v en = Abort UndefinedBehaviour) ∧
  (∀ ini z, holds (ini ++ [z]) v →
     ∃ v' en', PopBack v en = Ok () (v', en') ∧ holds ini v' ∧
               buffer_ (data_ v') = buffer_ (data_ v) ∧
               Capacity v' = Capacity v ∧
               logged en en' [EvDestroy z]).
Proof.
  split.
  { unfold Size, PopBack. intros ->. done. }
  intros ini z (Hsz & Hc & Hle). unfold PopBack. rewrite Hsz, Hc.
  rewrite length_app in *. simpl in *.
  assert ((length ini + 1 =? 0) = false) as -> by (apply Nat.eqb_neq; lia).
  replace (length ini + 1 - 1) with (length ini) by lia.
  unfold destroy_at. rewrite map_app, <- app_assoc. simpl.
  rewrite lookup_after_live, insert_after_live.
  eexists _, _. split; [reflexivity|].
  unfold holds, logged, Capacity. simpl. split_and!; try done; try lia.
  f_equal.
  replace (capacity_ (data_ v) - length ini)
    with (S (capacity_ (data_ v) - (length ini + 1))) by lia.
  done.
Qed.

Lemma Resize_unfailing n v en :
  never_raises → (Capacity v < n → n ≤ free_ en) →
  unfailing (Resize n v en).
Proof.
  intros Hnr Hmem. unfold Resize.
  destruct (n <? size_ v); [by destruct (destroy_n _ _ _ en) as [[]|]|].
  destruct (size_ v <? n); [|done].
  pose proof (Reserve_unfailing n v en Hnr Hmem) as Hr.
  destruct (Reserve n v en) as [[] [v1 en1]|[v1 en1]|]; [|done|done].
  pose proof (uninitialized_value_construct_n_unfailing (cells_ (data_ v1))
                (size_ v1) (n - size_ v1) en1 Hnr) as Hu.
  by destruct (uninitialized_value_construct_n _ _ _ en1)
    as [[] [? ?]|[? ?]|].
Qed.

(** The outcomes of [Resize] on requests the allocation functions take
    without wrapping. *)
Lemma Resize_outcome (n : nat) (xs : list T) (v : vec) (en : env) :
  holds xs v →
  match Resize n v en with
  | Ok _ (v', en') =>
      Size v' = n ∧
      (n ≤ length xs →
         holds (take n xs) v' ∧
         buffer_ (data_ v') = buffer_ (data_ v) ∧
         Capacity v' = Capacity v ∧
         logged en en' (map EvDestroy (drop n xs))) ∧
      (length xs < n →
         ∃ ds, length ds = n - length xs ∧ Forall is_default ds ∧
               holds (xs ++ ds) v' ∧ Capacity v' = n `max` Capacity v)
  | Throw (v', en') =>
      length xs < n ∧ Size v' = length xs ∧
      (relocation_is_safe = true → holds xs v')
  | Abort r => r = Terminated
  end.
Proof.
  intros Hv. pose proof Hv as (Hsz & Hc & Hle). unfold Resize.
  rewrite Hsz.
  destruct (n <? length xs) eqn:Hlt; bool_facts.
  { rewrite Hc.
    assert (map Some xs ++
              replicate (capacity_ (data_ v) - length xs) None =
            map Some (take n xs) ++ map Some (drop n xs) ++
              replicate (capacity_ (data_ v) - length xs) None) as ->
      by (by rewrite app_assoc, <- map_app, take_drop).
    destruct (destroy_n_live (map Some (take n xs)) (drop n xs)
      (replicate (capacity_ (data_ v) - length xs) None) en)
      as (en1 & Hd & Hlog).
    rewrite length_map, length_take, length_drop, Nat.min_l in Hd by lia.
    rewrite Hd. unfold Size. simpl.
    split_and!; [done | | intros; lia].
    intros _. unfold holds, Capacity. simpl.
    rewrite length_take, Nat.min_l by lia.
    split_and!; try done; try lia.
    rewrite <- replicate_add. do 2 f_equal. lia. }
  destruct (length xs <? n) eqn:Hgt; bool_facts.
  2: { assert (n = length xs) as -> by lia. unfold Size.
       split_and!; [done | | intros; lia].
       intros _. rewrite firstn_all, drop_all. unfold logged. simpl.
       rewrite app_nil_r. done. }
  pose proof (Reserve_valid n xs v en Hv) as Hval.
  destruct (Reserve n v en) as [[] [v1 en1]|[v1 en1]|] eqn:HR.
  3: done.
  2: { assert (size_ v1 = size_ v) as Hs1
         by (eapply Reserve_size; [exact HR | by right]).
       unfold Size. split_and!; [done | congruence |].
       intros Hsafe. by rewrite (Reserve_throw n v en v1 en1 Hsafe HR). }
  assert (holds xs v1 ∧ capacity_ (data_ v1) = n `max` capacity_ (data_ v))
    as [Hv1 Hcap1].
  { destruct (decide (n ≤ capacity_ (data_ v))) as [Hfit|Hbig].
    - unfold Reserve in HR. apply Nat.leb_le in Hfit. rewrite Hfit in HR.
      apply Nat.leb_le in Hfit. simplify_eq. split; [done | lia].
    - destruct (Reserve_ok n xs v en v1 en1 Hv ltac:(unfold Capacity; lia) HR)
        as (? & Hcap & _).
      unfold Capacity in Hcap. split; [done | lia]. }
  destruct Hv1 as (Hsz1 & Hc1 & Hle1). rewrite Hsz1, Hc1.
  pose proof (uninitialized_value_construct_n_live (map Some xs)
    (capacity_ (data_ v1) - length xs) [] (n - length xs) en1
    ltac:(lia)) as Hl.
  rewrite app_nil_r, length_map in Hl.
  destruct (uninitialized_value_construct_n _ _ _ en1)
    as [[] [c en2]|[c en2]|]; [| |done].
  - destruct Hl as (ds & Hlen & Hdef & -> & _). unfold Size. simpl.
    split_and!; [done | intros; lia |].
    intros _. exists ds. split_and!; [done | done | | done].
    unfold holds. simpl. rewrite length_app, Hlen.
    split_and!; [lia | | lia].
    rewrite map_app, ?app_nil_r, <- app_assoc. do 3 f_equal. lia.
  - destruct Hl as (-> & _). rewrite ?app_nil_r. unfold Size. simpl.
    split_and!; [done | done |].
    intros _. unfold holds. simpl. split_and!; done.
Qed.

(** X7. [Resize(n)] on a vector holding [xs], for a count [n] that fits the
    capacity or whose byte size [size_t] can express.  With [n <= size_]
    it cannot fail: it destroys exactly the elements from position [n] on,
    in order, and keeps the region ([n = size_] does nothing at all).  With
    [n > size_] a successful call appends [n - size_] value-initialised
    elements after [xs], in a region of capacity [max n Capacity()], and
    the call does succeed whenever no operation of the element type
    raises and the allocator has [n] slots free.  A failure can only come
    from growing; it leaves the size what it was and, for element types
    relocated by copy or by a move that does not raise, the elements [xs]
    (the capacity may have grown all the same). *)
Theorem Resize_spec (n : nat) (xs : list T) (v : vec) (en : env) :
  holds xs v → (Capacity v < n → representable n) →
  match Resize_size_t n v en with
  | Ok _ (v', en') =>
      Size v' = n ∧
      (n ≤ length xs →
         holds (take n xs) v' ∧
         buffer_ (data_ v') = buffer_ (data_ v) ∧
         Capacity v' = Capacity v ∧
         logged en en' (map EvDestroy (drop n xs))) ∧
      (length xs < n →
         ∃ ds, length ds = n - length xs ∧ Forall is_default ds ∧
               holds (xs ++ ds) v' ∧ Capacity v' = n `max` Capacity v)
  | Throw (v', en') =>
      length xs < n ∧ Size v' = length xs ∧
      (relocation_is_safe = true → holds xs v')
  | Abort r => r = Terminated
  end ∧
  (never_raises → (Capacity v < n → n ≤ free_ en) →
   is_ok (Resize_size_t n v en) = true).
Proof.
  intros Hv Hrep. pose proof (holds_invariant xs v Hv) as [Hreg _].
  rewrite Resize_exact by done.
  pose proof (Resize_outcome n xs v en Hv) as Hout.
  split; [exact Hout|].
  intros Hnr Hmem.
  apply unfailing_is_ok; [by apply Resize_unfailing|].
  by destruct (Resize n v en) as [? [? ?]|[? ?]|].
Qed.

(** X8. [EmplaceBack] and [PushBack] append.  On a vector holding [xs] a
    successful [EmplaceBack] leaves it holding [xs ++ [x]], [x] being the
    value built from the arguments, and the reference it returns is to
    that new last element; [PushBack(value)], by copy or by move, leaves
    [xs ++ [value]].  A failure on a vector that had room leaves the
    vector exactly what it was, for every element type.  No undefined
    behaviour arises. *)
Theorem EmplaceBack_appends (a : Args T A) (xs : list T) (v : vec)
    (en : env) :
  holds xs v →
  match EmplaceBack a v en with
  | Ok r (v', _) =>
      ∃ x, built a x ∧ holds (xs ++ [x]) v' ∧ index r v' = Some x ∧
           Size v' = S (Size v)
  | Throw (v', _) => Size v ≠ Capacity v → v' = v
  | Abort r => r = Terminated
  end ∧
  (∀ value v' en',
     PushBack_copy value v en = Ok () (v', en') ∨
     PushBack_move value v en = Ok () (v', en') →
     holds (xs ++ [value]) v').
Proof.
  intros Hv.
  assert (∀ b r v' en', EmplaceBack b v en = Ok r (v', en') →
            ∃ x, built b x ∧ holds (xs ++ [x]) v' ∧ index r v' = Some x ∧
                 Size v' = S (Size v)) as Hok.
  { intros b r v' en' Hrun.
    destruct (EmplaceBack_ok_built b xs v en r v' en' Hv Hrun)
      as (x & Hb & -> & Hv' & _).
    exists x. split_and!; [done | done | |].
    - rewrite (index_holds _ _ _ Hv'). apply list_lookup_middle. done.
    - pose proof Hv as (Hs0 & _). destruct Hv' as (Hs & _).
      unfold Size. rewrite Hs, Hs0, length_app. simpl. lia. }
  split.
  - pose proof (EmplaceBack_valid a xs v en Hv) as Hval.
    destruct (EmplaceBack a v en) as [r [v' en']|[v' en']|r] eqn:Hrun;
      [by eapply Hok | | done].
    intros Hroom. unfold EmplaceBack in Hrun.
    apply Nat.eqb_neq in Hroom. unfold Size in Hroom. rewrite Hroom in Hrun.
    pose proof (construct_at_count (cells_ (data_ v)) (size_ v) a en) as Hc.
    destruct (construct_at _ _ a en) as [[] [c en1]|[c en1]|]; try done.
    destruct Hc as [_ ->]. simplify_eq. apply with_cells_same.
  - intros value v' en' [Hrun|Hrun].
    + unfold PushBack_copy in Hrun.
      destruct (EmplaceBack (CopyOf value) v en) as [r [v1 en1]|[v1 en1]|]
        eqn:Hb; try done.
      destruct (Hok _ _ _ _ Hb) as (x & Hx & Hv1 & _).
      simpl in Hx. by simplify_eq.
    + unfold PushBack_move in Hrun.
      destruct (EmplaceBack (MoveOf value) v en) as [r [v1 en1]|[v1 en1]|]
        eqn:Hb; try done.
      destruct (Hok _ _ _ _ Hb) as (x & Hx & Hv1 & _).
      simpl in Hx. by simplify_eq.
Qed.

(** X9. What a successful [Emplace] at [offset] leaves, on a vector holding
    [xs].  It returns [offset], and the element there is the value [x]
    built from the arguments.  On a full vector, or at the end, the vector
    then holds [xs] with [x] inserted at [offset].  On a vector with room
    and [offset] before the end, the elements from [offset] on are one
    place later, but the last one, [z], is left as its moved-from value
    ([std::move_backward] runs over the slot just moved from); so the
    vector holds [xs] with [x] inserted exactly when moving from [z]
    leaves [z] what it was.  No undefined behaviour arises, and the call
    does succeed whenever no operation of the element type raises and,
    for a full vector, the allocator has the grown capacity free. *)
Theorem Emplace_result (offset : nat) (a : Args T A) (xs : list T)
    (v : vec) (en : env) :
  holds xs v → offset ≤ Size v →
  (never_raises →
   (Size v = Capacity v → grown_capacity (Size v) ≤ free_ en) →
   is_ok (Emplace offset a v en) = true) ∧
  match Emplace offset a v en with
  | Ok r (v', _) =>
      r = offset ∧
      ∃ x, built a x ∧ index r v' = Some x ∧
           (Size v = Capacity v ∨ offset = Size v →
              holds (take offset xs ++ x :: drop offset xs) v') ∧
           (Size v ≠ Capacity v → offset < Size v →
              ∃ ini z, xs = ini ++ [z] ∧
                holds (take offset ini ++ x :: drop offset ini ++
                       [moved_from z]) v' ∧
                (moved_from z = z →
                   holds (take offset xs ++ x :: drop offset xs) v'))
  | Throw _ => True
  | Abort r => r = Terminated
  end.
Proof.
  intros Hv Hoff. pose proof Hv as (Hsz & Hc & Hle).
  pose proof (Emplace_valid offset a xs v en Hv) as Hval.
  unfold Size, Capacity in *. rewrite Hsz in Hoff.
  specialize (Hval Hoff).
  split.
  { intros Hnr Hmem.
    apply unfailing_is_ok; [apply Emplace_unfailing; [done|]|].
    - exact Hmem.
    - by destruct (Emplace offset a v en) as [? [? ?]|[? ?]|]. }
  assert (length (take offset xs) = offset) as Htk
    by (rewrite length_take; lia).
  unfold Emplace, Capacity in *. rewrite Hsz in *.
  assert ((length xs <? offset) = false) as Hin by (apply Nat.ltb_ge; lia).
  rewrite Hin in *.
  destruct (length xs =? capacity_ (data_ v)) eqn:Hfull; bool_facts.
  { destruct (Emplace_grow offset a v en) as [r [v' en']|[v' en']|r] eqn:Hrun;
      [|done|done].
    destruct (Emplace_grow_ok_built offset a xs v en r v' en' Hv
                ltac:(unfold Capacity; congruence) Hoff Hrun)
      as (x & Hb & -> & Hv' & _).
    split; [done|]. exists x. split_and!; [done | | done | intros; lia].
    rewrite (index_holds _ _ _ Hv'). by apply list_lookup_middle. }
  destruct (offset =? length xs) eqn:Hend; bool_facts.
  { destruct (EmplaceBack a v en) as [r [v' en']|[v' en']|r] eqn:Hrun;
      [|done|done].
    destruct (EmplaceBack_ok_built a xs v en r v' en' Hv Hrun)
      as (x & Hb & _ & Hv' & _).
    subst offset. rewrite firstn_all, drop_all.
    split; [done|]. exists x. split_and!; [done | | done | intros; lia].
    rewrite (index_holds _ _ _ Hv'). by apply list_lookup_middle. }
  destruct (snoc_inv xs ltac:(lia)) as (ini & z & ->).
  rewrite length_app in *. simpl in *.
  pose proof (Emplace_shift_live_built offset a ini z v en Hv
                ltac:(unfold Capacity; lia) ltac:(lia)) as Hs.
  destruct (Emplace_shift offset a v en) as [r [v' en']|[v' en']|];
    [|done|done].
  destruct Hs as (x & Hb & -> & Hv' & _).
  assert (length (take offset ini) = offset) as Htk'
    by (rewrite length_take; lia).
  split; [done|]. exists x. split_and!; [done | | intros [?|?]; lia |].
  - rewrite (index_holds _ _ _ Hv'). by apply list_lookup_middle.
  - intros _ _. exists ini, z. split_and!; [done | done |].
    intros Hz. rewrite Hz in Hv'.
    rewrite take_app_le, drop_app_le by lia. done.
Qed.

(** X10. [Erase] works in place.  On a vector holding [xs], erasing the
    element [x] at [offset] move-assigns each later element one place
    down, in order, and then destroys exactly one object: the last slot,
    which holds the moved-from last element, or [x] itself when [x] was
    last.  Buffer and capacity are what they were and the allocator is not
    used.  When a move assignment raises, the vector is left valid with
    the size it had, in the same region. *)
Theorem Erase_in_place (offset : nat) (x : T) (xs : list T) (v : vec)
    (en : env) :
  holds xs v → xs !! offset = Some x →
  match Erase offset v en with
  | Ok _ (v', en') =>
      buffer_ (data_ v') = buffer_ (data_ v) ∧ Capacity v' = Capacity v ∧
      logged en en'
        (map EvMoveAssign (drop (S offset) xs) ++
         [EvDestroy (shift_residue x (drop (S offset) xs))])
  | Throw (v', en') =>
      valid v' ∧ Size v' = Size v ∧
      buffer_ (data_ v') = buffer_ (data_ v) ∧ Capacity v' = Capacity v ∧
      free_ en' = free_ en ∧ next_ en' = next_ en
  | Abort _ => False
  end.
Proof.
  intros Hv Hx. pose proof (lookup_lt_Some _ _ _ Hx) as Hoff.
  pose proof (Erase_live offset xs v en Hv Hoff) as Hl.
  pose proof (Erase_frame offset v en) as Hf.
  destruct (Erase offset v en) as [r [v' en']|[v' en']|] eqn:Hrun;
    [| |done].
  - destruct Hl as (_ & _ & Hb & Hcap & y & Hy & Hlog).
    rewrite Hx in Hy. by simplify_eq.
  - destruct Hf as (Hb & Hcap & Hfree & Hnext).
    split_and!; try done.
    unfold Erase, PopBack in Hrun. unfold Size. cases; done.
Qed.

(** X11. The copy constructor, from a vector holding [ys].  It never runs
    into undefined behaviour.  When it returns, the new vector holds [ys]
    in a region of exactly [size_] slots, and all that was done is one
    allocation (none for an empty source) and one copy construction per
    element, in order.  When it lets a failure propagate, every copy made
    so far has been destroyed and the region released: as many objects
    exist as before and the allocator has every slot it had. *)
Theorem Vector_copy_spec (ys : list T) (other : vec) (en : env) :
  holds ys other →
  match Vector_copy other en with
  | Ok v en' =>
      holds ys v ∧ Capacity v = length ys ∧
      log_ en' = log_ en ++
        (if length ys =? 0 then []
         else [EvAlloc (S (next_ en)) (length ys)]) ++ map EvCopy ys
  | Throw en' => objects en' = objects en ∧ free_ en' = free_ en
  | Abort _ => False
  end.
Proof.
  intros Hy.
  pose proof (Vector_copy_live ys other en Hy) as Hl.
  pose proof (Vector_copy_accounted other en) as Ha.
  destruct (Vector_copy other en) as [v en'|en'|]; [exact Hl|exact Ha|done].
Qed.

(** X12. The destructor, on a vector holding [xs] (with no capacity when it
    has no buffer).  It cannot fail: it destroys each element once, in
    order, then releases the region, so that the allocator gets back
    exactly [Capacity()] slots; nothing is released for a vector without
    a buffer. *)
Theorem Vector_delete_spec (xs : list T) (v : vec) (en : env) :
  holds xs v → null_is_empty v →
  ∃ en', Vector_delete v en = Ok () en' ∧
         log_ en' = log_ en ++ map EvDestroy xs ++ dealloc_log v ∧
         free_ en' = free_ en + Capacity v ∧
         objects en' = (objects en - Z.of_nat (length xs))%Z.
Proof.
  intros Hv Hn.
  destruct (Vector_delete_live xs v en Hv) as (en' & Hrun & Hlog).
  pose proof (Vector_delete_accounted v en (live_holds xs v Hv) Hn) as Ha.
  rewrite Hrun in Ha. destruct Ha as [Ho Hf].
  destruct Hv as (Hsz & _). rewrite Hsz in Ho.
  exists en'. split_and!; done.
Qed.

(** X13. Pushing the values [ys] one after the other ([PushBack], all by
    copy or all by move) onto a default-constructed vector, when no call
    fails, leaves a vector that holds exactly [ys], in order, and whose
    capacity is the one repeated doubling gives: a power of two that is at
    least the size and less than twice the size. *)
Theorem repeated_PushBack (push : T → Op) (ys : list T) (en : env)
    (v' : vec) (en' : env) :
  push = OpPushBack_copy ∨ push = OpPushBack_move →
  run (map push ys) Vector_default en = Ok () (v', en') →
  holds ys v' ∧
  (ys = [] → Capacity v' = 0) ∧
  (ys ≠ [] → ∃ k, Capacity v' = 2 ^ k ∧
                  length ys ≤ Capacity v' ∧ Capacity v' < 2 * length ys).
Proof.
  intros Hpush Hrun.
  assert (holds [] Vector_default) as H0
    by (unfold holds; simpl; split_and!; done).
  assert (doubled (length (@nil T)) (Capacity Vector_default)) as Hd0
    by (left; done).
  destruct (run_PushBack_doubled push ys [] Vector_default en v' en'
              Hpush H0 Hd0 Hrun) as [Hv Hd].
  simpl in Hv, Hd. split_and!; [done | |].
  - intros ->. destruct Hd as [[_ Hc]|(k & _ & Hlo & Hhi)];
      [done | simpl in Hhi; lia].
  - intros Hne. destruct Hd as [[Hz _]|Hk]; [|done].
    destruct ys; [done | simpl in Hz; lia].
Qed.

(** X14. [RawMemory(capacity)] followed by [~RawMemory()], for any count
    [n].  [operator new] is asked for [n * sizeof(T)] bytes as [size_t]
    computes them, which is room for [granted n] objects: never more than
    [n], and exactly [n] when the byte size is representable.  The request
    succeeds exactly when the allocator has that much free (always for
    [n = 0], where nothing is asked and the buffer is null), and a failed
    request changes nothing.  The object records [n] as its capacity,
    whatever was obtained.  Releasing the region gives the allocator back
    exactly what was taken, and runs no destructor. *)
Theorem RawMemory_new_then_delete (n : nat) (en : env) :
  match RawMemory_new_size_t n en with
  | Ok m en' =>
      (n = 0 ∨ granted n ≤ free_ en) ∧
      capacity_ m = n ∧ cells_ m = replicate (granted n) None ∧
      (buffer_ m = 0 ↔ n = 0) ∧
      free_ en' + granted n = free_ en ∧
      free_ (RawMemory_delete_size_t m en') = free_ en ∧
      objects (RawMemory_delete_size_t m en') = objects en
  | Throw en' => en' = en ∧ n ≠ 0 ∧ free_ en < granted n
  | Abort _ => False
  end ∧
  granted n ≤ n ∧ (representable n → granted n = n).
Proof.
  assert (granted 0 = 0) as Hg0.
  { unfold granted, request_bytes. simpl.
    rewrite Z.mod_0_l by (apply Z.pow_nonzero; lia). done. }
  split; [|split; [|apply granted_exact]].
  - unfold RawMemory_new_size_t, Allocate_size_t.
    destruct (n =? 0) eqn:Hn; bool_facts.
    { subst n. unfold RawMemory_delete_size_t. simpl. rewrite Hg0.
      split_and!; try done; try lia; by left. }
    destruct (granted n <=? free_ en) eqn:Hfree; bool_facts;
      [|split_and!; [done | done | lia]].
    unfold RawMemory_delete_size_t, objects. simpl.
    rewrite length_replicate, !net_app. simpl.
    split_and!; try done; try lia; by right.
  - unfold granted, request_bytes.
    match goal with |- context [(?a mod ?m)%Z] =>
      assert (0 < m)%Z as Hpos by (apply Z.pow_pos_nonneg; lia);
      pose proof (Z.mod_le a m ltac:(lia) Hpos) as Hle;
      pose proof (Z.mod_pos_bound a m Hpos) as [Hlo _]
    end.
    apply Nat2Z.inj_le. rewrite Z2Nat.id by (apply Z.div_pos; lia).
    apply Z.div_le_upper_bound; lia.
Qed.

(** X15. Move construction and move assignment transfer regions and touch
    no element.  [Vector(Vector&&)] gives the new object everything the
    source had and leaves the source a default vector.  Move assignment
    between two distinct vectors exchanges them: the destination gets the
    source's buffer, capacity and size, the source gets the destination's
    (its old elements are not destroyed), every other vector and the
    environment are what they were; doing it again undoes it. *)
Theorem move_exchanges (this rhs : nat) (st : list vec) (en : env)
    (a b : vec) :
  this ≠ rhs → st !! this = Some a → st !! rhs = Some b →
  Vector_move a = (a, Vector_default) ∧
  ∃ st', MoveAssign this rhs st en = Ok () (st', en) ∧
         st' !! this = Some b ∧ st' !! rhs = Some a ∧
         (∀ i, i ≠ this → i ≠ rhs → st' !! i = st !! i) ∧
         MoveAssign this rhs st' en = Ok () (st, en).
Proof.
  intros Hne Ha Hb. split; [done|].
  pose proof (lookup_lt_Some _ _ _ Ha) as Hla.
  pose proof (lookup_lt_Some _ _ _ Hb) as Hlb.
  assert ((this =? rhs) = false) as Hneb by (by apply Nat.eqb_neq).
  exists (<[rhs := a]> (<[this := b]> st)).
  assert ((<[rhs := a]> (<[this := b]> st)) !! this = Some b) as Hthis.
  { rewrite list_lookup_insert_ne by done.
    by apply list_lookup_insert_eq. }
  assert ((<[rhs := a]> (<[this := b]> st)) !! rhs = Some a) as Hrhs.
  { apply list_lookup_insert_eq. by rewrite length_insert. }
  split_and!; [| done | done | |].
  - unfold MoveAssign, Swap. by rewrite Ha, Hb, Hneb.
  - intros i Hi1 Hi2. by rewrite !list_lookup_insert_ne.
  - unfold MoveAssign, Swap. rewrite Hthis, Hrhs, Hneb. do 2 f_equal.
    apply list_eq. intros i.
    destruct (decide (i = rhs)) as [->|Hi2].
    { rewrite list_lookup_insert_eq by (by rewrite !length_insert). done. }
    rewrite list_lookup_insert_ne by done.
    destruct (decide (i = this)) as [->|Hi1].
    { rewrite list_lookup_insert_eq by (by rewrite !length_insert). done. }
    by rewrite !list_lookup_insert_ne.
Qed.

(** X16. Operations whose precondition always holds are safe in any
    sequence, as long as [size_t] can express the byte size of every count
    the caller supplies.  From a valid vector, a sequence of [Resize],
    [PushBack], [EmplaceBack] and [Reserve] calls (and insertions at
    [begin()]) never runs into undefined behaviour: it ends, or stops
    at the first failure, with a valid vector (the only other outcome is
    [std::terminate], when a [noexcept] move constructor raises); and a
    scope that builds the vector with [Vector(size)], runs such a
    sequence and destroys the vector does not run into undefined behaviour
    either. *)
Theorem unconditional_operations_are_safe (size : nat) (prog : list Op)
    (v : vec) (en : env) :
  Forall (λ op, (∀ w, op_pre op w) ∧ op_representable op) prog →
  (valid v →
   match run_size_t prog v en with
   | Ok _ (v', _) | Throw (v', _) => valid v'
   | Abort r => r = Terminated
   end) ∧
  (representable size →
   match scope_size_t size prog en with
   | Ok _ _ | Throw _ => True
   | Abort r => r = Terminated
   end).
Proof.
  intros Hpre.
  assert (∀ w e, valid w →
            match run_size_t prog w e with
            | Ok _ (v', _) | Throw (v', _) => valid v'
            | Abort r => r = Terminated
            end) as Hrun.
  { induction Hpre as [|op prog [Hop Hrep] _ IH]; intros w e Hw; simpl;
      [done|].
    destruct Hw as [xs Hxs].
    rewrite step_exact by (done || apply (holds_invariant xs w Hxs)).
    pose proof (step_valid op xs w e Hxs (Hop w)) as Hs.
    destruct (step op w e) as [[] [w1 e1]|[w1 e1]|]; [|done|done].
    by apply IH. }
  split; [apply Hrun|].
  intros Hsize. unfold scope_size_t. rewrite Vector_sized_exact by done.
  pose proof (Vector_sized_valid size en) as Hs.
  destruct (Vector_sized size en) as [w e1|e1|]; [|done|done].
  specialize (Hrun w e1 Hs).
  assert (∀ w' e2, valid w' → ∃ e3, Vector_delete_size_t w' e2 = Ok () e3)
    as Hdel.
  { intros w' e2 [xs Hxs].
    destruct (Vector_delete_live xs w' e2 Hxs) as (e3 & Hd & _).
    unfold Vector_delete_size_t, Vector_delete in *.
    destruct (destroy_n _ _ _ e2) as [[c e4]|]; [by eexists | done]. }
  destruct (run_size_t prog w e1) as [[] [w' e2]|[w' e2]|]; [| |done].
  - by destruct (Hdel w' e2 Hrun) as (e3 & ->).
  - by destruct (Hdel w' e2 Hrun) as (e3 & ->).
Qed.

(** X17. A failure never changes the number of elements: whenever a
    mutating operation lets a failure propagate, the size is what it was
    before the call; and, except for a growing [Resize] (whose [Reserve]
    may already have moved the elements to a larger region), so are the
    buffer and the capacity. *)
Theorem failure_keeps_size (op : Op) (v : vec) (en : env) :
  match step op v en with
  | Throw (v', _) =>
      Size v' = Size v ∧
      ((∀ n, op ≠ OpResize n) →
       buffer_ (data_ v') = buffer_ (data_ v) ∧ Capacity v' = Capacity v)
  | _ => True
  end.
Proof.
  assert (∀ a, match EmplaceBack a v en with
               | Throw (v', _) =>
                   size_ v' = size_ v ∧ buffer_ (data_ v') = buffer_ (data_ v)
                   ∧ capacity_ (data_ v') = capacity_ (data_ v)
               | _ => True
               end) as Hback.
  { intros a. unfold EmplaceBack. cases; done. }
  assert (∀ offset a, match Emplace offset a v en with
               | Throw (v', _) =>
                   size_ v' = size_ v ∧ buffer_ (data_ v') = buffer_ (data_ v)
                   ∧ capacity_ (data_ v') = capacity_ (data_ v)
               | _ => True
               end) as Hemp.
  { intros offset a. unfold Emplace.
    destruct (size_ v <? offset); [done|].
    destruct (size_ v =? Capacity v).
    { unfold Emplace_grow. cases; done. }
    destruct (offset =? size_ v).
    { specialize (Hback a). by destruct (EmplaceBack a v en) as [? []|[]|]. }
    unfold Emplace_shift. cases; try done.
    all: simpl; split_and!; try done; lia. }
  unfold Size, Capacity.
  destruct op; simpl; unfold PushBack_copy, PushBack_move, Insert_copy,
    Insert_move, forget.
  - destruct (Resize new_size v en) as [[] [v' en']|[v' en']|] eqn:Hrun;
      try done.
    split; [|intros Hne; by destruct (Hne new_size)].
    unfold Resize in Hrun.
    destruct (new_size <? size_ v); [by cases|].
    destruct (size_ v <? new_size); [|done].
    destruct (Reserve new_size v en) as [[] [v1 en1]|[v1 en1]|] eqn:HR;
      try done.
    + assert (size_ v1 = size_ v) as <-
        by (eapply Reserve_size; [exact HR | by left]).
      cases; done.
    + simplify_eq. eapply Reserve_size; [exact HR | by right].
  - specialize (Hback (CopyOf value)).
    destruct (EmplaceBack _ v en) as [? []|[]|]; try done.
    split; [apply Hback | intros _; apply Hback].
  - specialize (Hback (MoveOf value)).
    destruct (EmplaceBack _ v en) as [? []|[]|]; try done.
    split; [apply Hback | intros _; apply Hback].
  - specialize (Hback a).
    destruct (EmplaceBack _ v en) as [? []|[]|]; try done.
    split; [apply Hback | intros _; apply Hback].
  - specialize (Hemp offset a).
    destruct (Emplace _ _ v en) as [? []|[]|]; try done.
    split; [apply Hemp | intros _; apply Hemp].
  - specialize (Hemp offset (CopyOf value)).
    destruct (Emplace _ _ v en) as [? []|[]|]; try done.
    split; [apply Hemp | intros _; apply Hemp].
  - specialize (Hemp offset (MoveOf value)).
    destruct (Emplace _ _ v en) as [? []|[]|]; try done.
    split; [apply Hemp | intros _; apply Hemp].
  - unfold Erase, PopBack. cases; done.
  - unfold PopBack. cases; done.
  - unfold Reserve. cases; done.
Qed.

End Element.

(** ** Runs on the sample element types *)

Import Sample.

(** The count [wrapping_count] on the sample layout: its byte size wraps
    to 4, the size of one element. *)
Lemma wrapping_count_granted : granted (lay := lp64) wrapping_count = 1.
Proof.
  unfold granted, request_bytes, wrapping_count, lp64, size_t_bits, sizeof_T.
  rewrite Z2Nat.id by (vm_compute; discriminate).
  reflexivity.
Qed.

Lemma wrapping_count_large : 2 < wrapping_count.
Proof. unfold wrapping_count. lia. Qed.

Lemma wrapping_count_not_representable :
  ¬ representable (lay := lp64) wrapping_count.
Proof.
  unfold representable, wrapping_count, lp64, size_t_bits, sizeof_T.
  rewrite Z2Nat.id by (vm_compute; discriminate).
  vm_compute. discriminate.
Qed.


(** C1, the claim as first stated fails: with an element type that is not
    copyable and whose move constructor may raise, a full vector [5; 7]
    whose second relocation raises is left as [0; 7], the first element
    moved-from. *)
Lemma growth_failure_move_only_changes_elements :
  Size (vec_of 1 2 [5; 7]) = Capacity (vec_of 1 2 [5; 7]) ∧
  is_throw (EmplaceBack (ops := move_only_throwing) (FromArgs 9)
              (vec_of 1 2 [5; 7]) (env0 2 100)) = true ∧
  final (EmplaceBack (ops := move_only_throwing) (FromArgs 9)
           (vec_of 1 2 [5; 7]) (env0 2 100)) = Some (vec_of 1 2 [0; 7]) ∧
  elements (vec_of 1 2 [0; 7]) ≠ elements (vec_of 1 2 [5; 7]).
Proof. split_and!; [reflexivity | reflexivity | reflexivity | discriminate]. Qed.

Lemma growth_failure_witness :
  final (EmplaceBack (ops := copy_relocated) (FromArgs 9)
           (vec_of 1 2 [5; 7]) (env0 2 100)) = Some (vec_of 1 2 [5; 7]).
Proof.
  destruct (EmplaceBack (ops := copy_relocated) (FromArgs 9)
              (vec_of 1 2 [5; 7]) (env0 2 100))
    as [r [v' en']|[v' en']|r] eqn:Hrun.
  - vm_compute in Hrun. discriminate.
  - destruct (proj1 (growth_failure_leaves_vector_unchanged
                       (ops := copy_relocated) (FromArgs 9) 0
                       (vec_of 1 2 [5; 7]) (env0 2 100) eq_refl)
                eq_refl v' en' (or_introl Hrun)) as [-> _].
    reflexivity.
  - vm_compute in Hrun. discriminate.
Defined.


Lemma invariant_preserved_witness :
  (∃ v', final (step_size_t (ops := int_like) (lay := lp64)
                  (OpEmplaceBack (FromArgs 9))
                  (vec_of 1 2 [5; 7]) (env0 5 100)) = Some v' ∧
         Size v' ≤ Capacity v') ∧
  match step_size_t (ops := int_like) (lay := lp64) (OpReserve 8)
          (vec_of 1 2 [5; 7]) (env0 5 100) with
  | Ok _ (v', _) => invariant v' ∧ Size v' ≤ Capacity v'
  | _ => False
  end.
Proof.
  destruct (invariant_preserved (ops := int_like) (lay := lp64))
    as (_ & _ & _ & _ & _ & Hstep & _).
  assert (invariant (vec_of 1 2 [5; 7])) as Hv
    by (split; [reflexivity | vm_compute; lia]).
  split.
  - eexists. split; first reflexivity.
    exact (proj2 (Hstep (OpEmplaceBack (FromArgs 9)) (vec_of 1 2 [5; 7])
                    (env0 5 100) _ I Hv eq_refl)).
  - destruct (step_size_t (ops := int_like) (lay := lp64) (OpReserve 8)
                (vec_of 1 2 [5; 7]) (env0 5 100))
      as [[] [v' en']|[v' en']|r] eqn:Hrun.
    + apply (Hstep (OpReserve 8) (vec_of 1 2 [5; 7]) (env0 5 100) v');
        [reflexivity | exact Hv | rewrite Hrun; reflexivity].
    + vm_compute in Hrun. discriminate.
    + vm_compute in Hrun. discriminate.
Defined.

(** [Reserve] on the empty vector with any count for which one slot is
    obtained, and two [PushBack]s after it. *)
Lemma Reserve_breaks_region (n : nat) :
  2 < n → granted (lay := lp64) n = 1 →
  Reserve_size_t (ops := int_like) (lay := lp64) n Vector_default
    (env0 9 100)
    = Ok () (mkVector (mkRaw 1 n [None]) 0, mkEnv 9 99 1 [EvAlloc 1 1]) ∧
  ¬ invariant (mkVector (mkRaw 1 n [@None nat]) 0) ∧
  PushBack_copy (ops := int_like) 5 (mkVector (mkRaw 1 n [None]) 0)
    (mkEnv 9 99 1 [EvAlloc 1 1])
    = Ok () (mkVector (mkRaw 1 n [Some 5]) 1,
             mkEnv 8 99 1 [EvAlloc 1 1; EvCopy 5]) ∧
  PushBack_copy (ops := int_like) 7 (mkVector (mkRaw 1 n [Some 5]) 1)
    (mkEnv 8 99 1 [EvAlloc 1 1; EvCopy 5]) = Abort UndefinedBehaviour.
Proof.
  intros Hn Hg.
  destruct n as [|[|[|k]]]; [lia | lia | lia |].
  split_and!.
  - unfold Reserve_size_t, RawMemory_new_size_t, Allocate_size_t.
    rewrite Hg. reflexivity.
  - unfold invariant, region_ok. simpl. lia.
  - reflexivity.
  - reflexivity.
Qed.

(** C8, the claim as first stated fails: on the empty vector, which
    satisfies the invariant, [Reserve(2^62 + 1)] (4-byte elements, 64-bit
    [size_t]) returns with [Capacity()] at [2^62 + 1] over a region of one
    slot, a vector that does not satisfy it; one [PushBack] later the size
    is 1, still below [Capacity()], and the next [PushBack], which finds
    room by that test, constructs past the region. *)
Lemma invariant_claim_fails :
  invariant (@Vector_default nat) ∧
  Reserve_size_t (ops := int_like) (lay := lp64) wrapping_count
    Vector_default (env0 9 100)
    = Ok () (mkVector (mkRaw 1 wrapping_count [None]) 0,
             mkEnv 9 99 1 [EvAlloc 1 1]) ∧
  ¬ invariant (mkVector (mkRaw 1 wrapping_count [@None nat]) 0) ∧
  PushBack_copy (ops := int_like) 5
    (mkVector (mkRaw 1 wrapping_count [None]) 0)
    (mkEnv 9 99 1 [EvAlloc 1 1])
    = Ok () (mkVector (mkRaw 1 wrapping_count [Some 5]) 1,
             mkEnv 8 99 1 [EvAlloc 1 1; EvCopy 5]) ∧
  PushBack_copy (ops := int_like) 7
    (mkVector (mkRaw 1 wrapping_count [Some 5]) 1)
    (mkEnv 8 99 1 [EvAlloc 1 1; EvCopy 5]) = Abort UndefinedBehaviour.
Proof.
  split; [split; [reflexivity | unfold Size, Capacity; simpl; lia]|].
  exact (Reserve_breaks_region wrapping_count wrapping_count_large
           wrapping_count_granted).
Qed.

Lemma self_assignment_witness :
  CopyAssign (ops := handle_like) 0 0 [vec_of 1 2 [5; 7]] (env0 5 100)
    = Ok () ([vec_of 1 2 [5; 7]], env0 5 100) ∧
  MoveAssign 0 0 [vec_of 1 2 [5; 7]] (env0 5 100)
    = Ok () ([vec_of 1 2 [5; 7]], env0 5 100).
Proof.
  apply (self_assignment_is_noop (ops := handle_like) 0).
  eexists. reflexivity.
Defined.

Lemma plain_never_raises : never_raises (ops := plain).
Proof.
  unfold never_raises. simpl.
  split; [intros ? ?; exists a; reflexivity|].
  split; [intros ?; exists 0; reflexivity|].
  split; [intros ? ?; reflexivity|].
  split; [intros ? ?; reflexivity|].
  split; intros ? ? ?; reflexivity.
Defined.

Lemma growth_rule_witness :
  match EmplaceBack (ops := int_like) (FromArgs 9) (vec_of 1 2 [5; 7])
          (env0 5 100) with
  | Ok _ (v', _) => Capacity v' = 4
  | _ => False
  end ∧
  match Emplace (ops := int_like) 1 (FromArgs 9) (vec_of 1 2 [5; 7])
          (env0 5 100) with
  | Ok _ (v', _) => Capacity v' = 4
  | _ => False
  end ∧
  is_ok (Emplace (ops := plain) 1 (FromArgs 9) (vec_of 1 2 [5; 7])
           (mkEnv () 100 0 [])) = true.
Proof.
  split; [|split].
  - destruct (EmplaceBack (ops := int_like) (FromArgs 9) (vec_of 1 2 [5; 7])
                (env0 5 100)) as [r [v' en']|[v' en']|r] eqn:Hrun.
    + exact (proj1 (proj1 (growth_rule (ops := int_like) (FromArgs 9) 0
                             [5; 7] (vec_of 1 2 [5; 7]) (env0 5 100))
                      r v' en' (or_introl Hrun)) eq_refl).
    + vm_compute in Hrun. discriminate.
    + vm_compute in Hrun. discriminate.
  - destruct (Emplace (ops := int_like) 1 (FromArgs 9) (vec_of 1 2 [5; 7])
                (env0 5 100)) as [r [v' en']|[v' en']|r] eqn:Hrun.
    + exact (proj1 (proj1 (growth_rule (ops := int_like) (FromArgs 9) 1
                             [5; 7] (vec_of 1 2 [5; 7]) (env0 5 100))
                      r v' en' (or_intror Hrun)) eq_refl).
    + vm_compute in Hrun. discriminate.
    + vm_compute in Hrun. discriminate.
  - refine (proj2 (proj2 (growth_rule (ops := plain) (FromArgs 9) 1 [5; 7]
                            (vec_of 1 2 [5; 7]) (mkEnv () 100 0 []))
                     plain_never_raises _ _ _)).
    + split; [reflexivity|]. split; [reflexivity | vm_compute; lia].
    + vm_compute. lia.
    + intros _. vm_compute. lia.
Defined.


(** [Reserve] on [5; 7] with any count for which one slot is obtained:
    the second element is relocated past the end of the new region. *)
Lemma Reserve_overruns (n : nat) :
  2 < n → granted (lay := lp64) n = 1 →
  Reserve_size_t (ops := int_like) (lay := lp64) n (vec_of 1 2 [5; 7])
    (env0 9 100) = Abort UndefinedBehaviour.
Proof.
  intros Hn Hg. unfold Reserve_size_t, RawMemory_new_size_t, Allocate_size_t.
  simpl capacity_.
  assert ((n <=? 2) = false) as -> by (apply Nat.leb_gt; lia).
  assert ((n =? 0) = false) as -> by (apply Nat.eqb_neq; lia).
  rewrite Hg. reflexivity.
Qed.

(** C6, the claim as first stated fails twice.  [Reserve(4)] on [5; 7]
    with an element type that is not copyable and whose move constructor
    raises at the second element lets the failure propagate and leaves
    [0; 7].  And [Reserve(2^62 + 1)] on [5; 7], 4-byte elements and a
    64-bit [size_t], asks [operator new] for 4 bytes and relocates the
    second element past them. *)
Lemma Reserve_claim_fails :
  (Capacity (vec_of 1 2 [5; 7]) < 4 ∧
   is_throw (Reserve_size_t (ops := move_only_throwing) (lay := lp64) 4
               (vec_of 1 2 [5; 7]) (env0 1 100)) = true ∧
   final (Reserve_size_t (ops := move_only_throwing) (lay := lp64) 4
            (vec_of 1 2 [5; 7]) (env0 1 100)) = Some (vec_of 1 2 [0; 7]) ∧
   elements (vec_of 1 2 [0; 7]) ≠ elements (vec_of 1 2 [5; 7])) ∧
  (Capacity (vec_of 1 2 [5; 7]) < wrapping_count ∧
   request_bytes (lay := lp64) wrapping_count = 4%Z ∧
   Reserve_size_t (ops := int_like) (lay := lp64) wrapping_count
     (vec_of 1 2 [5; 7]) (env0 9 100) = Abort UndefinedBehaviour).
Proof.
  split.
  - split; [vm_compute; lia|].
    split; [reflexivity|]. split; [reflexivity | discriminate].
  - split; [apply wrapping_count_large|]. split.
    + unfold request_bytes, wrapping_count, lp64, size_t_bits, sizeof_T.
      rewrite Z2Nat.id by (vm_compute; discriminate). reflexivity.
    + apply Reserve_overruns;
        [apply wrapping_count_large | apply wrapping_count_granted].
Qed.

Lemma Reserve_frame_witness :
  Reserve_size_t (ops := copy_relocated) (lay := lp64) 1
    (vec_of 1 2 [5; 7]) (env0 1 100)
    = Ok () (vec_of 1 2 [5; 7], env0 1 100) ∧
  final (Reserve_size_t (ops := copy_relocated) (lay := lp64) 4
           (vec_of 1 2 [5; 7]) (env0 1 100))
    = Some (vec_of 1 2 [5; 7]) ∧
  match Reserve_size_t (ops := copy_relocated) (lay := lp64) 4
          (vec_of 1 2 [5; 7]) (env0 5 100) with
  | Ok _ (v', _) => Capacity v' = 4 ∧ Size v' = 2 ∧ holds [5; 7] v'
  | _ => False
  end.
Proof.
  pose proof (Reserve_frame (ops := copy_relocated) (lay := lp64) 1
                (vec_of 1 2 [5; 7]) (env0 1 100)) as [Hnoop _].
  pose proof (Reserve_frame (ops := copy_relocated) (lay := lp64) 4
                (vec_of 1 2 [5; 7]) (env0 1 100)) as [_ Hthrow].
  pose proof (Reserve_frame (ops := copy_relocated) (lay := lp64) 4
                (vec_of 1 2 [5; 7]) (env0 5 100)) as [_ Hok].
  split_and!.
  - apply Hnoop. vm_compute. lia.
  - destruct (Reserve_size_t (ops := copy_relocated) (lay := lp64) 4
                (vec_of 1 2 [5; 7]) (env0 1 100))
      as [r [v' en']|[v' en']|r] eqn:Hrun.
    + vm_compute in Hrun. discriminate.
    + rewrite (proj1 (proj2 (Hthrow ltac:(vm_compute; lia) eq_refl))
                 eq_refl v' en' eq_refl).
      reflexivity.
    + vm_compute in Hrun. discriminate.
  - destruct (Reserve_size_t (ops := copy_relocated) (lay := lp64) 4
                (vec_of 1 2 [5; 7]) (env0 5 100))
      as [[] [v' en']|[v' en']|r] eqn:Hrun.
    + apply (proj1 (Hok ltac:(vm_compute; lia) eq_refl) [5; 7] v' en');
        [| reflexivity].
      split_and!; [reflexivity | reflexivity | vm_compute; lia].
    + vm_compute in Hrun. discriminate.
    + vm_compute in Hrun. discriminate.
Defined.


(** [Vector(n)] with any count for which one slot is obtained: the second
    element is value-constructed past the end of the region. *)
Lemma Vector_sized_overruns (n : nat) :
  1 < n → granted (lay := lp64) n = 1 →
  Vector_sized_size_t (ops := plain) (lay := lp64) n (mkEnv () 100 0 [])
    = Abort UndefinedBehaviour.
Proof.
  intros Hn Hg.
  unfold Vector_sized_size_t, RawMemory_new_size_t, Allocate_size_t.
  assert ((n =? 0) = false) as -> by (apply Nat.eqb_neq; lia).
  assert ((0 <? n) = true) as Hpos by (apply Nat.ltb_lt; lia).
  rewrite Hg. simpl. rewrite Hpos.
  destruct n as [|[|k]]; [lia | lia | reflexivity].
Qed.

(** C7, the claim as first stated fails: [Vector(2^62 + 1)], 4-byte elements
    and a 64-bit [size_t], asks [operator new] for 4 bytes and
    value-constructs the second element past them. *)
Lemma Vector_sized_claim_fails :
  ¬ representable (lay := lp64) wrapping_count ∧
  Vector_sized_size_t (ops := plain) (lay := lp64) wrapping_count
    (mkEnv () 100 0 []) = Abort UndefinedBehaviour.
Proof.
  split; [apply wrapping_count_not_representable|].
  apply Vector_sized_overruns;
    [pose proof wrapping_count_large; lia | apply wrapping_count_granted].
Qed.

Lemma Vector_sized_witness :
  is_ok (Vector_sized_size_t (ops := plain) (lay := lp64) 3
           (mkEnv () 100 0 [])) = true.
Proof.
  refine (proj2 (Vector_sized_spec (ops := plain) (lay := lp64) 3
                   (mkEnv () 100 0 []) _) _ _).
  - reflexivity.
  - vm_compute. lia.
  - intros e. exists 0. reflexivity.
Defined.


Lemma relocation_rule_witness :
  match Reserve_size_t (ops := handle_like) (lay := lp64) 4
          (vec_of 1 2 [5; 7]) (env0 5 100) with
  | Ok _ (_, en') =>
      log_ en' = [EvAlloc 1 4; EvMove 5; EvMove 7; EvDestroy 0; EvDestroy 0;
                  EvDealloc 1]
  | _ => False
  end ∧
  match EmplaceBack (ops := copy_relocated) (FromArgs 9) (vec_of 1 2 [5; 7])
          (env0 5 100) with
  | Ok _ (_, en') =>
      ∃ x, log_ en' = [EvAlloc 1 4; EvEmplace x; EvCopy 5; EvCopy 7;
                       EvDestroy 5; EvDestroy 7; EvDealloc 1]
  | _ => False
  end ∧
  match Emplace (ops := handle_like) 1 (FromArgs 9) (vec_of 1 2 [5; 7])
          (env0 5 100) with
  | Ok _ (_, en') =>
      ∃ x, log_ en' = [EvAlloc 1 4; EvEmplace x; EvMove 5; EvMove 7;
                       EvDestroy 0; EvDestroy 0; EvDealloc 1]
  | _ => False
  end.
Proof.
  assert (holds [5; 7] (vec_of 1 2 [5; 7])) as Hv
    by (split_and!; [reflexivity | reflexivity | vm_compute; lia]).
  split; [|split].
  - destruct (relocation_rule (ops := handle_like) (lay := lp64) [5; 7]
                (vec_of 1 2 [5; 7]) (env0 5 100) Hv) as (HR & _).
    destruct (Reserve_size_t (ops := handle_like) (lay := lp64) 4
                (vec_of 1 2 [5; 7]) (env0 5 100))
      as [[] [v' en']|[v' en']|r] eqn:Hrun.
    + apply (HR 4 v' en'); [reflexivity | vm_compute; lia | exact Hrun].
    + vm_compute in Hrun. discriminate.
    + vm_compute in Hrun. discriminate.
  - destruct (relocation_rule (ops := copy_relocated) (lay := lp64) [5; 7]
                (vec_of 1 2 [5; 7]) (env0 5 100) Hv) as (_ & HB & _).
    destruct (EmplaceBack (ops := copy_relocated) (FromArgs 9)
                (vec_of 1 2 [5; 7]) (env0 5 100))
      as [r [v' en']|[v' en']|r] eqn:Hrun.
    + exact (HB (FromArgs 9) r v' en' eq_refl Hrun).
    + vm_compute in Hrun. discriminate.
    + vm_compute in Hrun. discriminate.
  - destruct (relocation_rule (ops := handle_like) (lay := lp64) [5; 7]
                (vec_of 1 2 [5; 7]) (env0 5 100) Hv) as (_ & _ & HE & _).
    destruct (Emplace (ops := handle_like) 1 (FromArgs 9)
                (vec_of 1 2 [5; 7]) (env0 5 100))
      as [r [v' en']|[v' en']|r] eqn:Hrun.
    + exact (HE 1 (FromArgs 9) r v' en' eq_refl ltac:(vm_compute; lia) Hrun).
    + vm_compute in Hrun. discriminate.
    + vm_compute in Hrun. discriminate.
Defined.


Lemma copy_assignment_witness :
  match copy_assign_distinct (ops := int_like) (vec_of 2 3 [1; 2; 3])
          (vec_of 1 2 [5; 7]) (env0 9 100) with
  | Ok _ (v', _) => holds [1; 2; 3] v'
  | _ => False
  end ∧
  match copy_assign_distinct (ops := int_like) (vec_of 2 3 [1; 2; 3])
          (vec_of 1 4 [5; 7]) (env0 9 100) with
  | Ok _ (v', en') =>
      holds [1; 2; 3] v' ∧ buffer_ (data_ v') = 1 ∧ Capacity v' = 4 ∧
      log_ en' = [EvCopyAssign 1; EvCopyAssign 2; EvCopy 3]
  | _ => False
  end ∧
  match copy_assign_distinct (ops := int_like) (vec_of 2 3 [1])
          (vec_of 1 4 [5; 7]) (env0 9 100) with
  | Ok _ (v', en') =>
      holds [1] v' ∧ log_ en' = [EvCopyAssign 1; EvDestroy 7]
  | _ => False
  end.
Proof.
  assert (holds [1; 2; 3] (vec_of 2 3 [1; 2; 3])) as Hy
    by (split_and!; [reflexivity | reflexivity | vm_compute; lia]).
  assert (holds [1] (vec_of 2 3 [1])) as Hy1
    by (split_and!; [reflexivity | reflexivity | vm_compute; lia]).
  assert (holds [5; 7] (vec_of 1 2 [5; 7])) as Hx
    by (split_and!; [reflexivity | reflexivity | vm_compute; lia]).
  assert (holds [5; 7] (vec_of 1 4 [5; 7])) as Hx4
    by (split_and!; [reflexivity | reflexivity | vm_compute; lia]).
  split; [|split].
  - destruct (copy_assignment_spec (ops := int_like) [1; 2; 3] [5; 7]
                (vec_of 2 3 [1; 2; 3]) (vec_of 1 2 [5; 7]) (env0 9 100) Hy Hx)
      as (Hbig & _).
    specialize (Hbig ltac:(vm_compute; lia)).
    destruct (copy_assign_distinct (ops := int_like) (vec_of 2 3 [1; 2; 3])
                (vec_of 1 2 [5; 7]) (env0 9 100)) as [[] [v' en']|[v' en']|r]
      eqn:Hrun.
    + exact (proj1 Hbig).
    + vm_compute in Hrun. discriminate.
    + exact Hbig.
  - destruct (copy_assignment_spec (ops := int_like) [1; 2; 3] [5; 7]
                (vec_of 2 3 [1; 2; 3]) (vec_of 1 4 [5; 7]) (env0 9 100)
                Hy Hx4) as (_ & Hfit & _).
    specialize (Hfit ltac:(vm_compute; lia)).
    destruct (copy_assign_distinct (ops := int_like) (vec_of 2 3 [1; 2; 3])
                (vec_of 1 4 [5; 7]) (env0 9 100)) as [[] [v' en']|[v' en']|r]
      eqn:Hrun.
    + destruct Hfit as (Hh & Hb & Hc & Hlog & _).
      split; [exact Hh|]. split; [exact Hb|]. split; [exact Hc | exact Hlog].
    + vm_compute in Hrun. discriminate.
    + exact Hfit.
  - destruct (copy_assignment_spec (ops := int_like) [1] [5; 7]
                (vec_of 2 3 [1]) (vec_of 1 4 [5; 7]) (env0 9 100)
                Hy1 Hx4) as (_ & Hfit & _).
    specialize (Hfit ltac:(vm_compute; lia)).
    destruct (copy_assign_distinct (ops := int_like) (vec_of 2 3 [1])
                (vec_of 1 4 [5; 7]) (env0 9 100)) as [[] [v' en']|[v' en']|r]
      eqn:Hrun.
    + destruct Hfit as (Hh & _ & _ & Hlog & _).
      split; [exact Hh | exact Hlog].
    + vm_compute in Hrun. discriminate.
    + exact Hfit.
Defined.

(** The reuse path gives no more than the basic guarantee: [5; 7] assigned
    from [1; 2], the second assignment raising, is left as [1; 7]. *)
Lemma copy_assignment_reuse_is_basic :
  copy_assign_distinct (ops := int_like) (vec_of 2 2 [1; 2])
    (vec_of 1 2 [5; 7]) (env0 1 100)
  = Throw (vec_of 1 2 [1; 7],
           mkEnv 0 100 0 [EvCopyAssign 1]).
Proof. reflexivity. Qed.


Lemma Erase_witness :
  match Erase (ops := handle_like) 1 (vec_of 1 4 [5; 7; 9]) (env0 9 100) with
  | Ok r (v', _) => r = 1 ∧ index r v' = Some 9
  | _ => False
  end.
Proof.
  assert (holds [5; 7; 9] (vec_of 1 4 [5; 7; 9])) as Hv
    by (split_and!; [reflexivity | reflexivity | vm_compute; lia]).
  pose proof (Erase_returns_same_offset (ops := handle_like) 1 [5; 7; 9]
                (vec_of 1 4 [5; 7; 9]) (env0 9 100) Hv
                ltac:(vm_compute; lia)) as He.
  destruct (Erase (ops := handle_like) 1 (vec_of 1 4 [5; 7; 9]) (env0 9 100))
    as [r [v' en']|[v' en']|r] eqn:Hrun.
  - destruct He as (Hr & Hi & _). split; [exact Hr | exact Hi].
  - vm_compute in Hrun. discriminate.
  - exact He.
Defined.


(** C5. The claim fails on the code: a vector [5; 7] with room for four,
    of an element type whose moved-from value is empty (here [0]), after
    [Insert(begin(), 9)] holds [9; 5; 0] and after [Erase(begin())] holds
    [5; 0], not [5; 7].  The backward shift of [Emplace] starts from the
    slot the last element was just moved out of
    ([Emplace_shift_then_Erase] gives the general statement). *)
Theorem Insert_then_Erase_loses_last_element :
  match Insert_copy (ops := handle_like) 0 9 (vec_of 1 4 [5; 7])
          (env0 9 100) with
  | Ok r (v1, en1) =>
      r = 0 ∧ elements v1 = [Some 9; Some 5; Some 0] ∧
      match Erase (ops := handle_like) r v1 en1 with
      | Ok _ (v2, _) =>
          elements v2 = [Some 5; Some 0] ∧
          elements v2 ≠ elements (vec_of 1 4 [5; 7])
      | _ => False
      end
  | _ => False
  end.
Proof. vm_compute. split_and!; [done | done | done | discriminate]. Qed.

(** ** Runs of the further properties *)

Lemma step_accounted_witness :
  match step_size_t (ops := int_like) (lay := lp64) (OpReserve 8)
          (vec_of 1 2 [5; 7]) (env0 9 100) with
  | Ok _ (v', en') =>
      region_ok v' ∧ counted v' ∧ null_is_empty v' ∧
      (objects en' - Z.of_nat (Size v') = -2)%Z ∧
      free_ en' + Capacity v' = 102
  | _ => False
  end.
Proof.
  pose proof (step_accounted (ops := int_like) (lay := lp64) (OpReserve 8)
                (vec_of 1 2 [5; 7]) (env0 9 100)) as Hs.
  specialize (Hs eq_refl eq_refl eq_refl).
  assert (null_is_empty (vec_of 1 2 [5; 7])) as Hn
    by (intros Hnull; vm_compute in Hnull; discriminate).
  specialize (Hs Hn).
  destruct (step_size_t (ops := int_like) (lay := lp64) (OpReserve 8)
              (vec_of 1 2 [5; 7]) (env0 9 100))
    as [[] [v' en']|[v' en']|r] eqn:Hrun.
  - exact Hs.
  - vm_compute in Hrun. discriminate.
  - vm_compute in Hrun. discriminate.
Defined.

Lemma copy_assignment_accounted_witness :
  match copy_assign_distinct (ops := int_like) (vec_of 2 3 [1; 2; 3])
          (vec_of 1 2 [5; 7]) (env0 2 100) with
  | Ok _ (v', en') | Throw (v', en') =>
      counted v' ∧ null_is_empty v' ∧
      (objects en' - Z.of_nat (Size v') = -2)%Z ∧
      free_ en' + Capacity v' = 102
  | Abort _ => True
  end.
Proof.
  apply (copy_assignment_accounted (ops := int_like) (vec_of 2 3 [1; 2; 3])
           (vec_of 1 2 [5; 7]) (env0 2 100)).
  - reflexivity.
  - intros Hnull. vm_compute in Hnull. discriminate.
Defined.

Lemma no_reallocation_with_room_witness :
  match step (ops := int_like) (OpPushBack_copy 9) (vec_of 1 4 [5; 7])
          (env0 9 100) with
  | Ok _ (v', en') | Throw (v', en') =>
      buffer_ (data_ v') = 1 ∧ Capacity v' = 4 ∧
      free_ en' = 100 ∧ next_ en' = 0
  | Abort _ => True
  end.
Proof.
  exact (no_reallocation_with_room (ops := int_like) (OpPushBack_copy 9)
           (vec_of 1 4 [5; 7]) (env0 9 100) eq_refl).
Defined.

Lemma PopBack_removes_last_witness :
  ∃ v' en',
    PopBack (ops := int_like) (vec_of 1 2 [5; 7]) (env0 9 100)
      = Ok () (v', en') ∧ holds [5] v'.
Proof.
  assert (holds ([5] ++ [7]) (vec_of 1 2 [5; 7])) as Hv
    by (split_and!; [reflexivity | reflexivity | vm_compute; lia]).
  destruct (proj2 (PopBack_removes_last (ops := int_like)
                     (vec_of 1 2 [5; 7]) (env0 9 100)) [5] 7 Hv)
    as (v' & en' & Hrun & Hv' & _).
  exists v', en'. split; [exact Hrun | exact Hv'].
Defined.

Lemma Resize_spec_witness :
  match Resize_size_t (ops := plain) (lay := lp64) 4 (vec_of 1 2 [5; 7])
          (mkEnv () 100 0 []) with
  | Ok _ (v', _) => Size v' = 4 ∧ ∃ ds, holds ([5; 7] ++ ds) v'
  | _ => False
  end ∧
  match Resize_size_t (ops := plain) (lay := lp64) 1 (vec_of 1 2 [5; 7])
          (mkEnv () 100 0 []) with
  | Ok _ (v', en') => holds [5] v' ∧ log_ en' = [EvDestroy 7]
  | _ => False
  end.
Proof.
  assert (holds [5; 7] (vec_of 1 2 [5; 7])) as Hv
    by (split_and!; [reflexivity | reflexivity | vm_compute; lia]).
  split.
  - pose proof (Resize_spec (ops := plain) (lay := lp64) 4 [5; 7]
                  (vec_of 1 2 [5; 7]) (mkEnv () 100 0 []) Hv
                  (fun _ => eq_refl)) as [Hr _].
    destruct (Resize_size_t (ops := plain) (lay := lp64) 4
                (vec_of 1 2 [5; 7]) (mkEnv () 100 0 []))
      as [[] [v' en']|[v' en']|r] eqn:Hrun.
    + destruct Hr as (Hs & _ & Hgrow). split; [exact Hs|].
      destruct (Hgrow ltac:(vm_compute; lia)) as (ds & _ & _ & Hh & _).
      exists ds. exact Hh.
    + vm_compute in Hrun. discriminate.
    + vm_compute in Hrun. discriminate.
  - pose proof (Resize_spec (ops := plain) (lay := lp64) 1 [5; 7]
                  (vec_of 1 2 [5; 7]) (mkEnv () 100 0 []) Hv
                  (fun _ => eq_refl)) as [Hr _].
    destruct (Resize_size_t (ops := plain) (lay := lp64) 1
                (vec_of 1 2 [5; 7]) (mkEnv () 100 0 []))
      as [[] [v' en']|[v' en']|r] eqn:Hrun.
    + destruct Hr as (_ & Hshrink & _).
      destruct (Hshrink ltac:(vm_compute; lia)) as (Hh & _ & _ & Hlog & _).
      split; [exact Hh | exact Hlog].
    + vm_compute in Hrun. discriminate.
    + vm_compute in Hrun. discriminate.
Defined.

Lemma EmplaceBack_appends_witness :
  match PushBack_copy (ops := int_like) 9 (vec_of 1 2 [5; 7])
          (env0 9 100) with
  | Ok _ (v', _) => holds [5; 7; 9] v'
  | _ => False
  end.
Proof.
  assert (holds [5; 7] (vec_of 1 2 [5; 7])) as Hv
    by (split_and!; [reflexivity | reflexivity | vm_compute; lia]).
  destruct (PushBack_copy (ops := int_like) 9 (vec_of 1 2 [5; 7])
              (env0 9 100)) as [[] [v' en']|[v' en']|r] eqn:Hrun.
  - exact (proj2 (EmplaceBack_appends (ops := int_like) (CopyOf 9) [5; 7]
                    (vec_of 1 2 [5; 7]) (env0 9 100) Hv)
             9 v' en' (or_introl Hrun)).
  - vm_compute in Hrun. discriminate.
  - vm_compute in Hrun. discriminate.
Defined.

Lemma Emplace_result_witness :
  match Emplace (ops := int_like) 1 (FromArgs 9) (vec_of 1 4 [5; 7; 8])
          (env0 9 100) with
  | Ok r (v', _) =>
      r = 1 ∧ (∃ x, index r v' = Some x) ∧ holds [5; 9; 7; 8] v'
  | _ => False
  end ∧
  match Emplace (ops := handle_like) 0 (FromArgs 9) (vec_of 1 4 [5; 7])
          (env0 9 100) with
  | Ok r (v', _) => holds [9; 5; 0] v'
  | _ => False
  end ∧
  match Emplace (ops := handle_like) 1 (FromArgs 9) (vec_of 1 2 [5; 7])
          (env0 9 100) with
  | Ok r (v', _) => holds [5; 9; 7] v'
  | _ => False
  end.
Proof.
  assert (holds [5; 7; 8] (vec_of 1 4 [5; 7; 8])) as Hv3
    by (split_and!; [reflexivity | reflexivity | vm_compute; lia]).
  assert (holds [5; 7] (vec_of 1 4 [5; 7])) as Hv4
    by (split_and!; [reflexivity | reflexivity | vm_compute; lia]).
  assert (holds [5; 7] (vec_of 1 2 [5; 7])) as Hv2
    by (split_and!; [reflexivity | reflexivity | vm_compute; lia]).
  split; [|split].
  - pose proof (Emplace_result (ops := int_like) 1 (FromArgs 9)
                  [5; 7; 8] (vec_of 1 4 [5; 7; 8]) (env0 9 100) Hv3
                  ltac:(vm_compute; lia)) as [_ He].
    destruct (Emplace (ops := int_like) 1 (FromArgs 9)
                (vec_of 1 4 [5; 7; 8]) (env0 9 100))
      as [r [v' en']|[v' en']|r] eqn:Hrun.
    + destruct He as (Hr & x & Hb & Hx & _ & Hshift). split; [exact Hr|].
      split; [exists x; exact Hx|].
      destruct (Hshift ltac:(vm_compute; lia) ltac:(vm_compute; lia))
        as (ini & z & Hxs & Hh & _).
      destruct Hb as [e Hb]. destruct e as [|e]; [discriminate|].
      injection Hb as <-.
      apply (app_inj_tail [5; 7] ini 8 z) in Hxs as [<- <-].
      exact Hh.
    + vm_compute in Hrun. discriminate.
    + vm_compute in Hrun. discriminate.
  - pose proof (Emplace_result (ops := handle_like) 0 (FromArgs 9)
                  [5; 7] (vec_of 1 4 [5; 7]) (env0 9 100) Hv4
                  ltac:(vm_compute; lia)) as [_ He].
    destruct (Emplace (ops := handle_like) 0 (FromArgs 9)
                (vec_of 1 4 [5; 7]) (env0 9 100))
      as [r [v' en']|[v' en']|r] eqn:Hrun.
    + destruct He as (Hr & x & Hb & Hx & _ & Hshift).
      destruct (Hshift ltac:(vm_compute; lia) ltac:(vm_compute; lia))
        as (ini & z & Hxs & Hh & _).
      destruct Hb as [e Hb]. destruct e as [|e]; [discriminate|].
      injection Hb as <-.
      apply (app_inj_tail [5] ini 7 z) in Hxs as [<- <-].
      exact Hh.
    + vm_compute in Hrun. discriminate.
    + vm_compute in Hrun. discriminate.
  - pose proof (Emplace_result (ops := handle_like) 1 (FromArgs 9)
                  [5; 7] (vec_of 1 2 [5; 7]) (env0 9 100) Hv2
                  ltac:(vm_compute; lia)) as [_ He].
    destruct (Emplace (ops := handle_like) 1 (FromArgs 9)
                (vec_of 1 2 [5; 7]) (env0 9 100))
      as [r [v' en']|[v' en']|r] eqn:Hrun.
    + destruct He as (Hr & x & Hb & Hx & Hfull & _).
      specialize (Hfull (or_introl eq_refl)).
      destruct Hb as [e Hb]. destruct e as [|e]; [discriminate|].
      injection Hb as <-. exact Hfull.
    + vm_compute in Hrun. discriminate.
    + vm_compute in Hrun. discriminate.
Defined.

Lemma Erase_in_place_witness :
  match Erase (ops := handle_like) 1 (vec_of 1 4 [5; 7; 9]) (env0 9 100) with
  | Ok _ (v', en') =>
      buffer_ (data_ v') = 1 ∧ Capacity v' = 4 ∧
      log_ en' = [EvMoveAssign 9; EvDestroy 0]
  | _ => False
  end.
Proof.
  assert (holds [5; 7; 9] (vec_of 1 4 [5; 7; 9])) as Hv
    by (split_and!; [reflexivity | reflexivity | vm_compute; lia]).
  pose proof (Erase_in_place (ops := handle_like) 1 7 [5; 7; 9]
                (vec_of 1 4 [5; 7; 9]) (env0 9 100) Hv eq_refl) as He.
  destruct (Erase (ops := handle_like) 1 (vec_of 1 4 [5; 7; 9]) (env0 9 100))
    as [r [v' en']|[v' en']|r] eqn:Hrun.
  - destruct He as (Hb & Hc & Hlog & _).
    split; [exact Hb|]. split; [exact Hc | exact Hlog].
  - vm_compute in Hrun. discriminate.
  - exact He.
Defined.

Lemma Vector_copy_spec_witness :
  match Vector_copy (ops := int_like) (vec_of 1 4 [5; 7]) (env0 9 100) with
  | Ok v _ => holds [5; 7] v ∧ Capacity v = 2
  | _ => False
  end.
Proof.
  assert (holds [5; 7] (vec_of 1 4 [5; 7])) as Hv
    by (split_and!; [reflexivity | reflexivity | vm_compute; lia]).
  pose proof (Vector_copy_spec (ops := int_like) [5; 7] (vec_of 1 4 [5; 7])
                (env0 9 100) Hv) as Hc.
  destruct (Vector_copy (ops := int_like) (vec_of 1 4 [5; 7]) (env0 9 100))
    as [v en'|en'|r] eqn:Hrun.
  - destruct Hc as (Hh & Hcap & _). split; [exact Hh | exact Hcap].
  - vm_compute in Hrun. discriminate.
  - exact Hc.
Defined.

Lemma Vector_delete_spec_witness :
  ∃ en', Vector_delete (ops := int_like) (vec_of 1 4 [5; 7]) (env0 9 100)
           = Ok () en' ∧
         log_ en' = [EvDestroy 5; EvDestroy 7; EvDealloc 1] ∧
         free_ en' = 104.
Proof.
  assert (holds [5; 7] (vec_of 1 4 [5; 7])) as Hv
    by (split_and!; [reflexivity | reflexivity | vm_compute; lia]).
  assert (null_is_empty (vec_of 1 4 [5; 7])) as Hn
    by (intros Hnull; vm_compute in Hnull; discriminate).
  destruct (Vector_delete_spec (ops := int_like) [5; 7] (vec_of 1 4 [5; 7])
              (env0 9 100) Hv Hn) as (en' & Hrun & Hlog & Hfree & _).
  exists en'. split; [exact Hrun|]. split; [exact Hlog | exact Hfree].
Defined.

Lemma repeated_PushBack_witness :
  match run (ops := plain) (map OpPushBack_copy [1; 2; 3]) Vector_default
          (mkEnv () 100 0 []) with
  | Ok _ (v', _) => holds [1; 2; 3] v'
  | _ => False
  end.
Proof.
  destruct (run (ops := plain) (map OpPushBack_copy [1; 2; 3]) Vector_default
              (mkEnv () 100 0 [])) as [[] [v' en']|[v' en']|r] eqn:Hrun.
  - exact (proj1 (repeated_PushBack (ops := plain) OpPushBack_copy [1; 2; 3]
                    (mkEnv () 100 0 []) v' en' (or_introl eq_refl) Hrun)).
  - vm_compute in Hrun. discriminate.
  - vm_compute in Hrun. discriminate.
Defined.

Lemma move_exchanges_witness :
  ∃ st', MoveAssign 0 1 [vec_of 1 2 [5; 7]; vec_of 2 3 [1; 2; 3]]
           (env0 9 100) = Ok () (st', env0 9 100) ∧
         st' !! 0 = Some (vec_of 2 3 [1; 2; 3]) ∧
         st' !! 1 = Some (vec_of 1 2 [5; 7]).
Proof.
  destruct (move_exchanges (E := nat) 0 1
              [vec_of 1 2 [5; 7]; vec_of 2 3 [1; 2; 3]] (env0 9 100)
              (vec_of 1 2 [5; 7]) (vec_of 2 3 [1; 2; 3])
              ltac:(lia) eq_refl eq_refl)
    as (_ & st' & Hrun & Hthis & Hrhs & _).
  exists st'. split; [exact Hrun|]. split; [exact Hthis | exact Hrhs].
Defined.

Lemma unconditional_operations_are_safe_witness :
  match scope_size_t (ops := plain) (lay := lp64) 2
          [OpResize 3; OpPushBack_copy 5; OpReserve 10]
          (mkEnv () 100 0 []) with
  | Ok _ _ | Throw _ => True
  | Abort r => r = Terminated
  end ∧
  is_ok (scope_size_t (ops := plain) (lay := lp64) 2
           [OpResize 3; OpPushBack_copy 5; OpReserve 10]
           (mkEnv () 100 0 [])) = true.
Proof.
  split; [|reflexivity].
  refine (proj2 (unconditional_operations_are_safe (ops := plain)
                   (lay := lp64) 2
                   [OpResize 3; OpPushBack_copy 5; OpReserve 10]
                   Vector_default (mkEnv () 100 0 []) _) eq_refl).
  repeat constructor.
Defined.
